(** * py-shiny: identifier namespaces and the reactive objects

    A shallow embedding of [shiny/_namespaces.py] and [shiny/reactives.py].
    Python objects live in explicit heaps (lists indexed by object id),
    closures are defunctionalised into a [callback] type, and user
    functions are terms of a small command language evaluated with fuel. *)

From Stdlib Require Import String Ascii.
From stdpp Require Import base option list gmap.

Local Open Scope nat_scope.

(** A Python [str] is a sequence of Unicode code points. *)
Abbreviation pystr := (list N).

Definition lit (s : string) : pystr :=
  map (fun a => N.of_nat (nat_of_ascii a)) (list_ascii_of_string s).

(** Result of a call that may raise. *)
Inductive outcome (A E : Type) : Type :=
| Ok (a : A)
| Exc (e : E).
Arguments Ok {A E} a.
Arguments Exc {A E} e.

(* ===================================================================== *)
(** ** shiny/_namespaces.py *)
(* ===================================================================== *)

Module Namespaces.

(** The pattern language needed for [re_valid_id]. *)
Inductive atom : Type :=
| Chr (c : N)     (* a literal character, here the escaped dot *)
| Word.           (* \w *)

Inductive item : Type :=
| Bol             (* ^ *)
| Eol             (* $ *)
| Opt (a : atom)  (* a? *)
| Plus (a : atom) (* a+ *).

(** [\w] on code points below 256, as the [re] module classifies them for
    [str] patterns: ASCII letters, digits, underscore, and the Latin-1
    letters and numerics. *)
Definition latin1_word (c : N) : bool :=
  ((48 <=? c) && (c <=? 57) || (65 <=? c) && (c <=? 90) || (c =? 95)
   || (97 <=? c) && (c <=? 122)
   || (c =? 170) || (c =? 178) || (c =? 179) || (c =? 181) || (c =? 185)
   || (c =? 186) || (188 <=? c) && (c <=? 190)
   || (192 <=? c) && (c <=? 214) || (216 <=? c) && (c <=? 246)
   || (248 <=? c) && (c <=? 255))%N.

(** The character class of the spec's pattern, [[A-Za-z0-9_]]. *)
Definition ascii_word (c : N) : bool :=
  ((48 <=? c) && (c <=? 57) || (65 <=? c) && (c <=? 90) || (c =? 95)
   || (97 <=? c) && (c <=? 122))%N.

(** Python's [$] without MULTILINE: at the end of the string, or just
    before a newline that is the last character. *)
Definition at_eol (s : pystr) : bool :=
  match s with
  | [] => true
  | [c] => (c =? 10)%N
  | _ => false
  end.

Section Matcher.

(** The part of the Unicode database above U+00FF decides [\w] there; it
    is not part of the repository. *)
Variable word_above_latin1 : N → bool.

Definition is_word (c : N) : bool :=
  if (c <? 256)%N then latin1_word c else word_above_latin1 c.

Definition atom_matches (a : atom) (c : N) : bool :=
  match a with
  | Chr d => (c =? d)%N
  | Word => is_word c
  end.

(** Greedy [a*] followed by the continuation [k], with backtracking. *)
Fixpoint star_then (a : atom) (k : pystr → bool) (s : pystr) : bool :=
  match s with
  | [] => k []
  | c :: t => (atom_matches a c && star_then a k t) || k s
  end.

(** [re.match]: the pattern is matched at the start of the string;
    [start] tells whether the current position is position 0. *)
Fixpoint run (p : list item) (start : bool) (s : pystr) : bool :=
  match p with
  | [] => true
  | Bol :: p' => start && run p' start s
  | Eol :: p' => at_eol s && run p' start s
  | Opt a :: p' =>
      match s with
      | c :: t => (atom_matches a c && run p' false t) || run p' start s
      | [] => run p' start s
      end
  | Plus a :: p' =>
      match s with
      | c :: t => atom_matches a c && star_then a (run p' false) t
      | [] => false
      end
  end.

(** [re_valid_id = re.compile("^\\.?\\w+$")] *)
Definition re_valid_id : list item := [Bol; Opt (Chr 46); Plus Word; Eol].

Definition re_match (p : list item) (s : pystr) : bool := run p true s.

Inductive exn : Type :=
| ValueError (msg : pystr).

Definition invalid_id_message (id : pystr) : pystr :=
  lit "The string '" ++ id
  ++ lit "' is not a valid id; only letters, numbers, and underscore are permitted".

Definition validate_id (id : pystr) : outcome unit exn :=
  if negb (re_match re_valid_id id)
  then Exc (ValueError (invalid_id_message id))
  else Ok tt.

(** [Id = Union[str, ResolvedId]]; [ResolvedId] is a subclass of [str], so
    the two are told apart by [isinstance]. *)
Inductive Id : Type :=
| Str (s : pystr)
| ResolvedId (s : pystr).

Definition text (i : Id) : pystr :=
  match i with Str s | ResolvedId s => s end.

(** [ResolvedId.__call__(self, id)]; [self] is the text of the receiver. *)
Definition ResolvedId_call (self : pystr) (id : Id) : outcome Id exn :=
  match id with
  | ResolvedId _ => Ok id
  | Str s =>
      match validate_id s with
      | Exc e => Exc e
      | Ok _ =>
          if decide (self = [])
          then Ok (ResolvedId s)
          else Ok (ResolvedId (self ++ lit "-" ++ s))
      end
  end.

Definition Root : pystr := [].

(** [resolve_id(id)]: [curr_ns] is the value of the context variable
    [_current_namespace]. *)
Definition resolve_id (curr_ns : pystr) (id : Id) : outcome Id exn :=
  ResolvedId_call curr_ns id.

(** What [validate_id] accepts, away from the trailing-newline case of
    [$]: an optional leading dot, then one or more [\w] characters. *)
Definition word_valid_id (s : pystr) : bool :=
  let body := match s with
              | c :: t => if (c =? 46)%N then t else s
              | [] => s
              end in
  negb (bool_decide (body = [])) && forallb is_word body.

(** The input left once the longest run of [\w] characters is consumed. *)
Fixpoint skip_word (s : pystr) : pystr :=
  match s with
  | c :: t => if is_word c then skip_word t else s
  | [] => []
  end.

(** [current_namespace()]: the value of the context variable. *)
Definition current_namespace (curr_ns : pystr) : Id := ResolvedId curr_ns.

(** Truth value of the argument of [namespace_context]: [None] and the
    empty string are false. *)
Definition truthy (id : option Id) : bool :=
  match id with
  | None => false
  | Some i => negb (bool_decide (text i = []))
  end.

(** [namespace_context(id)] around a block.  The context variable is
    the state: [curr_ns] on entry; the block receives the value set for
    it and returns its result with the value it leaves; [reset(token)]
    in the [finally] puts back the value of entry, also when the block
    raised.  When [resolve_id] raises, nothing was set. *)
Definition namespace_context {A : Type} (id : option Id)
    (block : pystr → outcome A exn * pystr) (curr_ns : pystr)
    : outcome A exn * pystr :=
  let namespace :=
    match id with
    | Some i => if truthy id then resolve_id curr_ns i else Ok (ResolvedId Root)
    | None => Ok (ResolvedId Root)
    end in
  match namespace with
  | Exc e => (Exc e, curr_ns)
  | Ok ns => let '(res, _) := block (text ns) in (res, curr_ns)
  end.

(** Blocks nested in one [namespace_context] per name, outermost first. *)
Fixpoint within {A : Type} (names : list pystr)
    (block : pystr → outcome A exn * pystr) (curr_ns : pystr)
    : outcome A exn * pystr :=
  match names with
  | [] => block curr_ns
  | n :: rest => namespace_context (Some (Str n)) (within rest block) curr_ns
  end.

(** The names joined by single dashes. *)
Fixpoint dashed (names : list pystr) : pystr :=
  match names with
  | [] => []
  | [n] => n
  | n :: rest => n ++ lit "-" ++ dashed rest
  end.

End Matcher.

(** The spec's pattern [^\.?[A-Za-z0-9_]+$] read as its gloss: an optional
    leading dot followed by one or more ASCII letters, digits or
    underscores, and nothing else. *)
Definition spec_valid_id (s : pystr) : bool :=
  let body := match s with
              | c :: t => if (c =? 46)%N then t else s
              | [] => s
              end in
  negb (bool_decide (body = [])) && forallb ascii_word body.

End Namespaces.

(* ===================================================================== *)
(** ** shiny/reactives.py: data *)
(* ===================================================================== *)

Module Reactives.

(** Python values as the reactive objects see them: [None], or an object
    at an address carrying a payload.  [is] compares addresses, [==]
    compares payloads, so a boxed value can be equal to another one
    without being the same object.  [VBase] is an object whose class
    derives from [BaseException] but not from [Exception]
    ([KeyboardInterrupt], [SystemExit], [asyncio.CancelledError]); it is
    the only kind of object that [except Exception] lets through. *)
Inductive value : Type :=
| VNone
| VObj (addr : nat) (data : Z)
| VBase (addr : nat) (data : Z).

Definition py_is (a b : value) : bool :=
  match a, b with
  | VNone, VNone => true
  | VObj i _, VObj j _ => bool_decide (i = j)
  | VBase i _, VBase j _ => bool_decide (i = j)
  | _, _ => false
  end.

Definition py_eq (a b : value) : bool :=
  match a, b with
  | VNone, VNone => true
  | VObj _ x, VObj _ y => bool_decide (x = y)
  | VBase _ x, VBase _ y => bool_decide (x = y)
  | _, _ => false
  end.

(** [isinstance(e, Exception)], the test of an [except Exception]
    clause on a raised object. *)
Definition is_Exception (e : value) : bool :=
  match e with
  | VBase _ _ => false
  | _ => true
  end.

(** Exceptions raised by the library itself. *)
Inductive pyexn : Type :=
| TypeError (msg : string)
| KeyError (key : pystr).

(** User functions: what a zero-argument function handed to [Reactive] or
    [Observer] can do to the reactive objects.  Reads bind their result
    in the continuation; an exception raised by a read propagates (user
    functions here do not catch). *)
Inductive cmd : Type :=
| Return (v : value)
| Raise (e : value)
| GetVal (x : nat) (k : value → cmd)        (* v = x() *)
| SetVal (x : nat) (v : value) (k : cmd)     (* x(v) *)
| GetReactive (r : nat) (k : value → cmd).   (* v = r() *)

(** A callable with what [inspect.iscoroutinefunction] says about it. *)
Record func : Type := Func { is_coroutine : bool; body : cmd }.

(** [utils.wrap_async(func)]: awaiting the wrapped function runs it. *)
Definition wrap_async (f : func) : cmd := body f.

(** [lambda: None] *)
Definition lambda_None : func := Func false (Return VNone).

(** The closures registered on a context, defunctionalised. *)
Inductive inv_callback : Type :=
| ReactiveOnInvalidate (r : nat)         (* r._on_invalidate_cb *)
| ObserverOnInvalidate (o : nat) (c : nat).
                        (* on_invalidate_cb of o._create_context, closed
                           over the context c it was created for *)

Inductive flush_callback : Type :=
| ObserverOnFlush (o : nat).             (* on_flush_cb of o._create_context *)

Inductive session_callback : Type :=
| ObserverOnSessionEnded (o : nat).      (* o._on_session_ended_cb *)

Record Context : Type := mkContext {
  c_invalidated : bool;
  c_invalidate_callbacks : list inv_callback;
  c_flush_callbacks : list flush_callback }.

Record ReactiveVal : Type := mkReactiveVal {
  rv_value : value;
  rv_dependents : list nat }.

Record Reactive : Type := mkReactive {
  r_func : cmd;
  r_is_async : bool;
  r_dependents : list nat;
  r_invalidated : bool;
  r_running : bool;
  r_most_recent_ctx_id : Z;
  r_ctx : option nat;
  r_exec_count : nat;
  r_session : option nat;
  r_value : value;
  r_error : bool }.

Record Observer : Type := mkObserver {
  o_func : cmd;
  o_is_async : bool;
  o_invalidate_callbacks : list nat;
  o_destroyed : bool;
  o_ctx : option nat;
  o_exec_count : nat;
  o_session : option nat }.

(** Assignments to one attribute of an object. *)
Definition set_r_func (a : cmd) (rc : Reactive) : Reactive :=
  mkReactive a (r_is_async rc) (r_dependents rc) (r_invalidated rc)
    (r_running rc) (r_most_recent_ctx_id rc) (r_ctx rc) (r_exec_count rc)
    (r_session rc) (r_value rc) (r_error rc).
Definition set_r_is_async (a : bool) (rc : Reactive) : Reactive :=
  mkReactive (r_func rc) a (r_dependents rc) (r_invalidated rc) (r_running rc)
    (r_most_recent_ctx_id rc) (r_ctx rc) (r_exec_count rc) (r_session rc)
    (r_value rc) (r_error rc).
Definition set_r_dependents (a : list nat) (rc : Reactive) : Reactive :=
  mkReactive (r_func rc) (r_is_async rc) a (r_invalidated rc) (r_running rc)
    (r_most_recent_ctx_id rc) (r_ctx rc) (r_exec_count rc) (r_session rc)
    (r_value rc) (r_error rc).
Definition set_r_invalidated (a : bool) (rc : Reactive) : Reactive :=
  mkReactive (r_func rc) (r_is_async rc) (r_dependents rc) a (r_running rc)
    (r_most_recent_ctx_id rc) (r_ctx rc) (r_exec_count rc) (r_session rc)
    (r_value rc) (r_error rc).
Definition set_r_running (a : bool) (rc : Reactive) : Reactive :=
  mkReactive (r_func rc) (r_is_async rc) (r_dependents rc) (r_invalidated rc)
    a (r_most_recent_ctx_id rc) (r_ctx rc) (r_exec_count rc) (r_session rc)
    (r_value rc) (r_error rc).
Definition set_r_most_recent_ctx_id (a : Z) (rc : Reactive) : Reactive :=
  mkReactive (r_func rc) (r_is_async rc) (r_dependents rc) (r_invalidated rc)
    (r_running rc) a (r_ctx rc) (r_exec_count rc) (r_session rc) (r_value rc)
    (r_error rc).
Definition set_r_ctx (a : option nat) (rc : Reactive) : Reactive :=
  mkReactive (r_func rc) (r_is_async rc) (r_dependents rc) (r_invalidated rc)
    (r_running rc) (r_most_recent_ctx_id rc) a (r_exec_count rc)
    (r_session rc) (r_value rc) (r_error rc).
Definition set_r_exec_count (a : nat) (rc : Reactive) : Reactive :=
  mkReactive (r_func rc) (r_is_async rc) (r_dependents rc) (r_invalidated rc)
    (r_running rc) (r_most_recent_ctx_id rc) (r_ctx rc) a (r_session rc)
    (r_value rc) (r_error rc).
Definition set_r_value (a : value) (rc : Reactive) : Reactive :=
  mkReactive (r_func rc) (r_is_async rc) (r_dependents rc) (r_invalidated rc)
    (r_running rc) (r_most_recent_ctx_id rc) (r_ctx rc) (r_exec_count rc)
    (r_session rc) a (r_error rc).
Definition set_r_error (a : bool) (rc : Reactive) : Reactive :=
  mkReactive (r_func rc) (r_is_async rc) (r_dependents rc) (r_invalidated rc)
    (r_running rc) (r_most_recent_ctx_id rc) (r_ctx rc) (r_exec_count rc)
    (r_session rc) (r_value rc) a.
Definition incr_r_exec_count (rc : Reactive) : Reactive :=
  set_r_exec_count (S (r_exec_count rc)) rc.

Definition set_o_func (a : cmd) (ob : Observer) : Observer :=
  mkObserver a (o_is_async ob) (o_invalidate_callbacks ob) (o_destroyed ob)
    (o_ctx ob) (o_exec_count ob) (o_session ob).
Definition set_o_is_async (a : bool) (ob : Observer) : Observer :=
  mkObserver (o_func ob) a (o_invalidate_callbacks ob) (o_destroyed ob)
    (o_ctx ob) (o_exec_count ob) (o_session ob).
Definition set_o_invalidate_callbacks (a : list nat) (ob : Observer) : Observer :=
  mkObserver (o_func ob) (o_is_async ob) a (o_destroyed ob) (o_ctx ob)
    (o_exec_count ob) (o_session ob).
Definition set_o_destroyed (a : bool) (ob : Observer) : Observer :=
  mkObserver (o_func ob) (o_is_async ob) (o_invalidate_callbacks ob) a
    (o_ctx ob) (o_exec_count ob) (o_session ob).
Definition set_o_ctx (a : option nat) (ob : Observer) : Observer :=
  mkObserver (o_func ob) (o_is_async ob) (o_invalidate_callbacks ob)
    (o_destroyed ob) a (o_exec_count ob) (o_session ob).
Definition set_o_exec_count (a : nat) (ob : Observer) : Observer :=
  mkObserver (o_func ob) (o_is_async ob) (o_invalidate_callbacks ob)
    (o_destroyed ob) (o_ctx ob) a (o_session ob).
Definition incr_o_exec_count (ob : Observer) : Observer :=
  set_o_exec_count (S (o_exec_count ob)) ob.
Definition add_o_invalidate_callback (tag : nat) (ob : Observer) : Observer :=
  set_o_invalidate_callbacks (o_invalidate_callbacks ob ++ [tag]) ob.

(** Which user function was entered. *)
Inductive target : Type :=
| OfReactive (r : nat)
| OfObserver (o : nat).

(** The interpreter state: one heap per class (an object's id is its
    index), the ambient context and session, the scheduler's pending
    set, and two ghost logs: [calls] records every entry into a user
    function, [fired] every external invalidate callback that ran. *)
Record world : Type := mkWorld {
  ctxs : list Context;
  current_ctx : option nat;
  pending : list nat;
  rvals : list ReactiveVal;
  reactives : list Reactive;
  observers : list Observer;
  rmaps : list (gmap pystr nat);
  current_session : option nat;
  on_ended : list (nat * session_callback);
  calls : list target;
  fired : list nat }.

Definition empty_world : world :=
  mkWorld [] None [] [] [] [] [] None [] [] [].

Definition set_ctxs (f : list Context → list Context) (w : world) : world :=
  mkWorld (f (ctxs w)) (current_ctx w) (pending w) (rvals w) (reactives w)
    (observers w) (rmaps w) (current_session w) (on_ended w) (calls w) (fired w).
Definition set_current_ctx (c : option nat) (w : world) : world :=
  mkWorld (ctxs w) c (pending w) (rvals w) (reactives w)
    (observers w) (rmaps w) (current_session w) (on_ended w) (calls w) (fired w).
Definition set_pending (f : list nat → list nat) (w : world) : world :=
  mkWorld (ctxs w) (current_ctx w) (f (pending w)) (rvals w) (reactives w)
    (observers w) (rmaps w) (current_session w) (on_ended w) (calls w) (fired w).
Definition set_rvals (f : list ReactiveVal → list ReactiveVal) (w : world) : world :=
  mkWorld (ctxs w) (current_ctx w) (pending w) (f (rvals w)) (reactives w)
    (observers w) (rmaps w) (current_session w) (on_ended w) (calls w) (fired w).
Definition set_reactives (f : list Reactive → list Reactive) (w : world) : world :=
  mkWorld (ctxs w) (current_ctx w) (pending w) (rvals w) (f (reactives w))
    (observers w) (rmaps w) (current_session w) (on_ended w) (calls w) (fired w).
Definition set_observers (f : list Observer → list Observer) (w : world) : world :=
  mkWorld (ctxs w) (current_ctx w) (pending w) (rvals w) (reactives w)
    (f (observers w)) (rmaps w) (current_session w) (on_ended w) (calls w) (fired w).
Definition set_rmaps (f : list (gmap pystr nat) → list (gmap pystr nat)) (w : world) : world :=
  mkWorld (ctxs w) (current_ctx w) (pending w) (rvals w) (reactives w)
    (observers w) (f (rmaps w)) (current_session w) (on_ended w) (calls w) (fired w).
Definition set_current_session (s : option nat) (w : world) : world :=
  mkWorld (ctxs w) (current_ctx w) (pending w) (rvals w) (reactives w)
    (observers w) (rmaps w) s (on_ended w) (calls w) (fired w).
Definition add_on_ended (s : nat) (cb : session_callback) (w : world) : world :=
  mkWorld (ctxs w) (current_ctx w) (pending w) (rvals w) (reactives w)
    (observers w) (rmaps w) (current_session w) (on_ended w ++ [(s, cb)])
    (calls w) (fired w).
Definition log_call (t : target) (w : world) : world :=
  mkWorld (ctxs w) (current_ctx w) (pending w) (rvals w) (reactives w)
    (observers w) (rmaps w) (current_session w) (on_ended w) (calls w ++ [t]) (fired w).
Definition log_fired (tags : list nat) (w : world) : world :=
  mkWorld (ctxs w) (current_ctx w) (pending w) (rvals w) (reactives w)
    (observers w) (rmaps w) (current_session w) (on_ended w) (calls w) (fired w ++ tags).

(** Field updates of the objects ([alter] leaves the heap alone when the
    id is not allocated). *)
Definition upd_ctx (c : nat) (f : Context → Context) (w : world) : world :=
  set_ctxs (alter f c) w.
Definition upd_rval (x : nat) (f : ReactiveVal → ReactiveVal) (w : world) : world :=
  set_rvals (alter f x) w.
Definition upd_reactive (r : nat) (f : Reactive → Reactive) (w : world) : world :=
  set_reactives (alter f r) w.
Definition upd_observer (o : nat) (f : Observer → Observer) (w : world) : world :=
  set_observers (alter f o) w.

(* ===================================================================== *)
(** ** reactcore: Context, Dependents and the flush scheduler *)
(* ===================================================================== *)

(** Sequencing of a state-passing step over a list. *)
Fixpoint foldM {A : Type} (step : A → world → option world)
    (l : list A) (w : world) : option world :=
  match l with
  | [] => Some w
  | a :: l' => w' ← step a w; foldM step l' w'
  end.

(** Modelled from the spec: [reactcore.Context()] is missing from the
    sources.  A context is created fresh, not invalidated, with empty
    callback lists, under an id that distinguishes it from every other. *)
Definition Context_new (w : world) : nat * world :=
  (length (ctxs w), set_ctxs (λ l, l ++ [mkContext false [] []]) w).

Definition is_invalidated (c : nat) (w : world) : bool :=
  match ctxs w !! c with
  | Some cx => c_invalidated cx
  | None => false
  end.

(** Modelled from the spec: [Context.add_pending_flush] is missing from
    the sources.  It adds the context to the scheduler's pending set,
    which holds a context at most once. *)
Definition add_pending_flush (c : nat) (w : world) : world :=
  if bool_decide (c ∈ pending w) then w else set_pending (λ l, l ++ [c]) w.

(** A [Dependents] object is owned by one [ReactiveVal] or one
    [Reactive]; it is stored in its owner. *)
Inductive dep_owner : Type :=
| DepVal (x : nat)
| DepReactive (r : nat).

Definition get_dependents (d : dep_owner) (w : world) : list nat :=
  match d with
  | DepVal x => default [] (rv_dependents <$> rvals w !! x)
  | DepReactive r => default [] (r_dependents <$> reactives w !! r)
  end.

Definition set_dependents (d : dep_owner) (ds : list nat) (w : world) : world :=
  match d with
  | DepVal x => upd_rval x (λ v, mkReactiveVal (rv_value v) ds) w
  | DepReactive r =>
      upd_reactive r (set_r_dependents ds) w
  end.

(** Modelled from the spec: [Dependents.register] is missing from the
    sources.  It adds the currently active context, if any; a context
    appears at most once; outside any active context it does nothing. *)
Definition Dependents_register (d : dep_owner) (w : world) : world :=
  match current_ctx w with
  | None => w
  | Some c =>
      if bool_decide (c ∈ get_dependents d w) then w
      else set_dependents d (get_dependents d w ++ [c]) w
  end.

(** Modelled from the spec: [Dependents.invalidate] is missing from the
    sources.  It notifies every member, then clears the set
    unconditionally.  [inval] is [Context.invalidate]. *)
Definition Dependents_invalidate (inval : nat → world → option world)
    (d : dep_owner) (w : world) : option world :=
  w' ← foldM inval (get_dependents d w) w;
  Some (set_dependents d [] w').

(** [Reactive._on_invalidate_cb], lines 117-121. *)
Definition Reactive_on_invalidate_cb (inval : nat → world → option world)
    (r : nat) (w : world) : option world :=
  let w1 := upd_reactive r (set_r_invalidated true ∘ set_r_value VNone) w in
  w2 ← Dependents_invalidate inval (DepReactive r) w1;
  Some (upd_reactive r (set_r_ctx None) w2).

(** [on_invalidate_cb] inside [Observer._create_context], lines 175-184.
    The callbacks registered through [Observer.on_invalidate] are opaque
    to the engine: running them is recorded in [fired]. *)
Definition Observer_on_invalidate_cb (o c : nat) (w : world) : world :=
  let w1 := upd_observer o (set_o_ctx None) w in
  let cbs := default [] (o_invalidate_callbacks <$> observers w1 !! o) in
  add_pending_flush c (log_fired cbs w1).

Definition run_inv_callback (inval : nat → world → option world)
    (cb : inv_callback) (w : world) : option world :=
  match cb with
  | ReactiveOnInvalidate r => Reactive_on_invalidate_cb inval r w
  | ObserverOnInvalidate o c => Some (Observer_on_invalidate_cb o c w)
  end.

(** Modelled from the spec: [Context.invalidate] is missing from the
    sources.  It is idempotent: the first call marks the context
    invalidated and fires the registered callbacks in registration order,
    the list being drained before they run; later calls do nothing.
    A callback can invalidate further contexts, so the recursion is on
    a depth bound. *)
Fixpoint Context_invalidate_fuel (fuel : nat) (c : nat) (w : world)
    {struct fuel} : option world :=
  match fuel with
  | 0 => None
  | S f =>
      match ctxs w !! c with
      | None => Some w
      | Some cx =>
          if c_invalidated cx then Some w
          else
            foldM (run_inv_callback (Context_invalidate_fuel f))
              (c_invalidate_callbacks cx)
              (upd_ctx c (λ cx, mkContext true [] (c_flush_callbacks cx)) w)
      end
  end.

(** Nested invalidations only go through contexts that are not yet
    invalidated, so the number of contexts bounds the depth. *)
Definition Context_invalidate (c : nat) (w : world) : option world :=
  Context_invalidate_fuel (S (length (ctxs w))) c w.

(** Modelled from the spec: [Context.on_invalidate] is missing from the
    sources.  The callback is appended, or fired at once when the context
    is already invalidated. *)
Definition Context_on_invalidate (c : nat) (cb : inv_callback) (w : world)
    : option world :=
  if is_invalidated c w then run_inv_callback Context_invalidate cb w
  else Some (upd_ctx c (λ cx,
         mkContext (c_invalidated cx) (c_invalidate_callbacks cx ++ [cb])
           (c_flush_callbacks cx)) w).

(** Modelled from the spec: [Context.on_flush] is missing from the
    sources.  It appends to the context's flush callbacks. *)
Definition Context_on_flush (c : nat) (cb : flush_callback) (w : world) : world :=
  upd_ctx c (λ cx,
    mkContext (c_invalidated cx) (c_invalidate_callbacks cx)
      (c_flush_callbacks cx ++ [cb])) w.

(** Modelled from the spec: [Context.run] is missing from the sources.
    It installs the context as the active one while [fn] runs and
    restores the previous one afterwards, also when [fn] raised. *)
Definition Context_run {A : Type} (c : nat)
    (fn : world → option (A * world)) (w : world) : option (A * world) :=
  let prev := current_ctx w in
  '(a, w1) ← fn (set_current_ctx (Some c) w);
  Some (a, set_current_ctx prev w1).

(** Modelled from the spec: [shinysession.session_context] is missing from
    the sources.  It makes the given session the ambient one for the
    duration of the block. *)
Definition session_context {A : Type} (s : option nat)
    (fn : world → option (A * world)) (w : world) : option (A * world) :=
  let prev := current_session w in
  '(a, w1) ← fn (set_current_session s w);
  Some (a, set_current_session prev w1).

(* ===================================================================== *)
(** ** shiny/reactives.py: operations *)
(* ===================================================================== *)

Abbreviation result := (outcome value value).

(** *** class ReactiveVal *)

Definition ReactiveVal_init (v : value) (w : world) : nat * world :=
  (length (rvals w), set_rvals (λ l, l ++ [mkReactiveVal v []]) w).

Definition ReactiveVal_get (x : nat) (w : world) : option (value * world) :=
  let w1 := Dependents_register (DepVal x) w in
  rv ← rvals w1 !! x;
  Some (rv_value rv, w1).

Definition ReactiveVal_set (x : nat) (v : value) (w : world)
    : option (bool * world) :=
  rv ← rvals w !! x;
  if py_is (rv_value rv) v then Some (false, w)
  else
    let w1 := upd_rval x (λ rv, mkReactiveVal v (rv_dependents rv)) w in
    w2 ← Dependents_invalidate Context_invalidate (DepVal x) w1;
    Some (true, w2).

Definition too_many_args : pyexn :=
  TypeError "ReactiveVal can only be called with one argument".

(** [ReactiveVal.__call__] with its positional arguments. *)
Definition ReactiveVal_call (x : nat) (args : list value) (w : world)
    : option (outcome value pyexn * world) :=
  match args with
  | [] => '(v, w1) ← ReactiveVal_get x w; Some (Ok v, w1)
  | [a] => '(_, w1) ← ReactiveVal_set x a w; Some (Ok VNone, w1)
  | _ => Some (Exc too_many_args, w)
  end.

(** *** class ReactiveValues *)

Definition ReactiveValues_init (kwargs : list (pystr * value)) (w : world)
    : nat * world :=
  let '(mp, w1) :=
    fold_left (λ '(mp, w) '(key, v),
                 let '(x, w') := ReactiveVal_init v w in (<[key := x]> mp, w'))
      kwargs (∅, w) in
  (length (rmaps w1), set_rmaps (λ l, l ++ [mp]) w1).

Definition ReactiveValues_setitem (m : nat) (key : pystr) (v : value)
    (w : world) : option (outcome unit pyexn * world) :=
  mp ← rmaps w !! m;
  match mp !! key with
  | Some x =>
      '(res, w1) ← ReactiveVal_call x [v] w;
      Some (match res with Ok _ => Ok tt | Exc e => Exc e end, w1)
  | None =>
      let '(x, w1) := ReactiveVal_init v w in
      Some (Ok tt, set_rmaps (alter (λ mp, <[key := x]> mp) m) w1)
  end.

Definition ReactiveValues_getitem (m : nat) (key : pystr) (w : world)
    : option (outcome value pyexn * world) :=
  mp ← rmaps w !! m;
  let w1 :=
    match mp !! key with
    | Some _ => w
    | None =>
        let '(x, w') := ReactiveVal_init VNone w in
        set_rmaps (alter (λ mp, <[key := x]> mp) m) w'
    end in
  mp1 ← rmaps w1 !! m;
  x ← mp1 !! key;
  ReactiveVal_call x [] w1.

Definition ReactiveValues_delitem (m : nat) (key : pystr) (w : world)
    : option (outcome unit pyexn * world) :=
  mp ← rmaps w !! m;
  match mp !! key with
  | Some _ => Some (Ok tt, set_rmaps (alter (λ mp, delete key mp) m) w)
  | None => Some (Exc (KeyError key), w)
  end.

(** *** class Reactive *)

Definition Reactive_init (f : func) (w : world)
    : outcome nat pyexn * world :=
  if is_coroutine f then (Exc (TypeError "Reactive requires a non-async function"), w)
  else
    (Ok (length (reactives w)),
     set_reactives (λ l, l ++
       [mkReactive (wrap_async f) false [] true false (-1)%Z None 0
          (current_session w) VNone false]) w).

(** The [try] statement of [Reactive._run_func], lines 125-129, once
    the function has come back with [res]: a returned value is stored;
    a raised [Exception] is caught and stored with the error flag; any
    other raised object is not caught by [except Exception] and leaves
    [_run_func] with nothing stored. *)
Definition Reactive_store (r : nat) (res : result) (w : world)
    : outcome unit value * world :=
  match res with
  | Ok v => (Ok tt, upd_reactive r (set_r_value v) w)
  | Exc err =>
      if is_Exception err
      then (Ok tt, upd_reactive r (set_r_value err ∘ set_r_error true) w)
      else (Exc err, w)
  end.

(** [Reactive._run_func], lines 123-129; [run] evaluates a user function. *)
Definition Reactive_run_func (run : cmd → world → option (result * world))
    (r : nat) (w : world) : option (outcome unit value * world) :=
  let w1 := upd_reactive r (set_r_error false) w in
  rc ← reactives w1 !! r;
  '(res, w2) ← run (r_func rc) (log_call (OfReactive r) w1);
  Some (Reactive_store r res w2).

Definition set_running (r : nat) (b : bool) (w : world) : world :=
  upd_reactive r (set_r_running b) w.

(** [Reactive.update_value], lines 99-115.  The [finally] clause
    restores [_running] also when [_run_func] raised; what it raised
    then leaves [update_value]. *)
Definition Reactive_update_value (run : cmd → world → option (result * world))
    (r : nat) (w : world) : option (outcome unit value * world) :=
  let '(c, w1) := Context_new w in
  let w2 := upd_reactive r
              (set_r_most_recent_ctx_id (Z.of_nat c) ∘ set_r_ctx (Some c)) w1 in
  w3 ← Context_on_invalidate c (ReactiveOnInvalidate r) w2;
  let w4 := upd_reactive r (set_r_invalidated false ∘ incr_r_exec_count) w3 in
  rc ← reactives w4 !! r;
  let was_running := r_running rc in
  let w5 := set_running r true w4 in
  '(res, w6) ← session_context (r_session rc)
                 (Context_run c (Reactive_run_func run r)) w5;
  Some (res, set_running r was_running w6).

(** [Reactive.get_value], lines 88-97. *)
Definition Reactive_get_value (run : cmd → world → option (result * world))
    (r : nat) (w : world) : option (result * world) :=
  let w1 := Dependents_register (DepReactive r) w in
  rc ← reactives w1 !! r;
  '(upd, w2) ← (if r_invalidated rc || r_running rc
                then Reactive_update_value run r w1
                else Some (Ok tt, w1));
  match upd with
  | Exc e => Some (Exc e, w2)
  | Ok _ =>
      rc2 ← reactives w2 !! r;
      Some (if r_error rc2 then Exc (r_value rc2) else Ok (r_value rc2), w2)
  end.

(** *** class ReactiveAsync *)

Definition ReactiveAsync_init (f : func) (w : world)
    : outcome nat pyexn * world :=
  if negb (is_coroutine f)
  then (Exc (TypeError "ReactiveAsync requires an async function"), w)
  else
    match Reactive_init lambda_None w with
    | (Ok r, w1) =>
        (Ok r, upd_reactive r (set_r_func (body f) ∘ set_r_is_async true) w1)
    | (Exc e, w1) => (Exc e, w1)
    end.

(** *** Evaluation of user functions *)

(** [r()] goes through [Reactive.__call__] or [ReactiveAsync.__call__];
    both return what [get_value] returns. *)
Fixpoint exec (fuel : nat) (c : cmd) (w : world) {struct fuel}
    : option (result * world) :=
  match fuel with
  | 0 => None
  | S f =>
      match c with
      | Return v => Some (Ok v, w)
      | Raise e => Some (Exc e, w)
      | GetVal x k => '(v, w1) ← ReactiveVal_get x w; exec f (k v) w1
      | SetVal x v k => '(_, w1) ← ReactiveVal_set x v w; exec f k w1
      | GetReactive r k =>
          '(res, w1) ← Reactive_get_value (exec f) r w;
          match res with
          | Ok v => exec f (k v) w1
          | Exc e => Some (Exc e, w1)
          end
      end
  end.

(** [Reactive.__call__] *)
Definition Reactive_call (fuel : nat) (r : nat) (w : world)
    : option (result * world) :=
  Reactive_get_value (exec fuel) r w.


(** *** class Observer *)

(** [Observer._create_context], lines 168-193. *)
Definition Observer_create_context (o : nat) (w : world) : option (nat * world) :=
  let '(ctx, w1) := Context_new w in
  let w2 := upd_observer o (set_o_ctx (Some ctx)) w1 in
  w3 ← Context_on_invalidate ctx (ObserverOnInvalidate o ctx) w2;
  Some (ctx, Context_on_flush ctx (ObserverOnFlush o) w3).

(** [Observer.destroy], lines 205-209. *)
Definition Observer_destroy (o : nat) (w : world) : option world :=
  let w1 := upd_observer o (set_o_destroyed true) w in
  ob ← observers w1 !! o;
  match o_ctx ob with
  | Some c => Context_invalidate c w1
  | None => Some w1
  end.

Definition run_session_callback (cb : session_callback) (w : world)
    : option world :=
  match cb with
  | ObserverOnSessionEnded o => Observer_destroy o w
  end.

(** Modelled from the spec: the session object is missing from the
    sources.  When a session ends, the callbacks registered with its
    [on_ended] run. *)
Definition session_ended (s : nat) (w : world) : option world :=
  foldM run_session_callback
    (map snd (filter (λ p, p.1 = s) (on_ended w))) w.

(** [Observer.__init__], lines 148-165. *)
Definition Observer_init (f : func) (w : world)
    : option (outcome nat pyexn * world) :=
  if is_coroutine f
  then Some (Exc (TypeError "Observer requires a non-async function"), w)
  else
    let o := length (observers w) in
    let w1 := set_observers (λ l, l ++
      [mkObserver (wrap_async f) false [] false None 0 (current_session w)]) w in
    let w2 := match current_session w with
              | Some s => add_on_ended s (ObserverOnSessionEnded o) w1
              | None => w1
              end in
    '(ctx, w3) ← Observer_create_context o w2;
    w4 ← Context_invalidate ctx w3;
    Some (Ok o, w4).

(** What a function without a [return] statement gives back: [None]
    when its last call returned, whatever that was; what was raised
    otherwise. *)
Definition discard (res : result) : result :=
  match res with
  | Ok _ => Ok VNone
  | Exc e => Exc e
  end.

(** [Observer.run], lines 195-200.  There is no [return]: the value of
    the function is dropped. *)
Definition Observer_run (run : cmd → world → option (result * world))
    (o : nat) (w : world) : option (result * world) :=
  '(ctx, w1) ← Observer_create_context o w;
  let w2 := upd_observer o (incr_o_exec_count) w1 in
  ob ← observers w2 !! o;
  '(res, w3) ← session_context (o_session ob)
                 (Context_run ctx
                    (λ w, run (o_func ob) (log_call (OfObserver o) w))) w2;
  Some (discard res, w3).

(** [Observer.on_invalidate], lines 202-203. *)
Definition Observer_on_invalidate (o : nat) (tag : nat) (w : world) : world :=
  upd_observer o (add_o_invalidate_callback tag) w.

(** [on_flush_cb] inside [Observer._create_context], lines 186-188. *)
Definition Observer_on_flush_cb (run : cmd → world → option (result * world))
    (o : nat) (w : world) : option (result * world) :=
  ob ← observers w !! o;
  if negb (o_destroyed ob) then Observer_run run o w
  else Some (Ok VNone, w).

(** *** class ObserverAsync *)

Definition ObserverAsync_init (f : func) (w : world)
    : option (outcome nat pyexn * world) :=
  if negb (is_coroutine f)
  then Some (Exc (TypeError "ObserverAsync requires an async function"), w)
  else
    '(res, w1) ← Observer_init lambda_None w;
    match res with
    | Ok o =>
        Some (Ok o, upd_observer o (set_o_func (body f) ∘ set_o_is_async true) w1)
    | Exc e => Some (Exc e, w1)
    end.

(** *** reactcore.flush *)

Definition run_flush_callback (run : cmd → world → option (result * world))
    (cb : flush_callback) (w : world) : option (result * world) :=
  match cb with
  | ObserverOnFlush o => Observer_on_flush_cb run o w
  end.

(** The flush callbacks of one context, in order; an exception stops the
    rest and surfaces. *)
Fixpoint run_flush_callbacks (run : cmd → world → option (result * world))
    (cbs : list flush_callback) (w : world) : option (result * world) :=
  match cbs with
  | [] => Some (Ok VNone, w)
  | cb :: rest =>
      '(res, w1) ← run_flush_callback run cb w;
      match res with
      | Ok _ => run_flush_callbacks run rest w1
      | Exc e => Some (Exc e, w1)
      end
  end.

(** Modelled from the spec: [reactcore.flush] is missing from the
    sources.  While the pending set is not empty, one context is removed
    from it and its flush callbacks run; what they enqueue is processed
    in the same pass; an exception of an observer surfaces to the caller
    and interrupts the pass. *)
Fixpoint flush (fuel : nat) (w : world) {struct fuel} : option (result * world) :=
  match fuel with
  | 0 => None
  | S f =>
      match pending w with
      | [] => Some (Ok VNone, w)
      | c :: rest =>
          let w1 := set_pending (λ _, rest) w in
          let cbs := default [] (c_flush_callbacks <$> ctxs w1 !! c) in
          '(res, w2) ← run_flush_callbacks (exec f) cbs w1;
          match res with
          | Ok _ => flush f w2
          | Exc e => Some (Exc e, w2)
          end
      end
  end.

(* ===================================================================== *)
(** ** Observations used to state the properties *)
(* ===================================================================== *)

(** Number of contexts not yet invalidated. *)
Fixpoint live (l : list Context) : nat :=
  match l with
  | [] => 0
  | cx :: l' => (if c_invalidated cx then 0 else 1) + live l'
  end.

(** The fields of a [Reactive] that invalidation never writes. *)
Definition r_stable (rc : Reactive) : cmd * bool * bool * nat * option nat * bool :=
  (r_func rc, r_is_async rc, r_running rc, r_exec_count rc, r_session rc,
   r_error rc).

(** The fields of an [Observer] that only [run], [destroy] and
    [on_invalidate] write. *)
Definition o_stable (ob : Observer) : cmd * bool * list nat * bool * nat * option nat :=
  (o_func ob, o_is_async ob, o_invalidate_callbacks ob, o_destroyed ob,
   o_exec_count ob, o_session ob).

(** What an invalidation leaves alone. *)
Record inv_frame (w w' : world) : Prop := mkInvFrame {
  if_live : live (ctxs w') ≤ live (ctxs w);
  if_length : length (ctxs w') = length (ctxs w);
  if_mono : ∀ c, is_invalidated c w = true → is_invalidated c w' = true;
  if_flush_cbs : c_flush_callbacks <$> ctxs w' = c_flush_callbacks <$> ctxs w;
  if_current : current_ctx w' = current_ctx w;
  if_rvals : rvals w' = rvals w;
  if_reactives : r_stable <$> reactives w' = r_stable <$> reactives w;
  if_observers : o_stable <$> observers w' = o_stable <$> observers w;
  if_rmaps : rmaps w' = rmaps w;
  if_session : current_session w' = current_session w;
  if_on_ended : on_ended w' = on_ended w;
  if_calls : calls w' = calls w }.

(** A step that succeeds and frames whenever fewer than [n] contexts are
    live. *)
Definition steps_below {A : Type} (n : nat) (step : A → world → option world) : Prop :=
  ∀ a w, live (ctxs w) < n → ∃ w', step a w = Some w' ∧ inv_frame w w'.

#[global] Instance target_eq_dec : EqDecision target.
Proof. solve_decision. Defined.

(** The execution counter and the error flag of a [Reactive], the
    execution counter and the destroyed flag of an [Observer]. *)
Definition execs (r : nat) (w : world) : nat :=
  default 0 (r_exec_count <$> reactives w !! r).
Definition err (r : nat) (w : world) : bool :=
  default false (r_error <$> reactives w !! r).
Definition o_execs (o : nat) (w : world) : nat :=
  default 0 (o_exec_count <$> observers w !! o).
Definition destroyed (o : nat) (w : world) : bool :=
  default false (o_destroyed <$> observers w !! o).

(** How many times a user function was entered in a stretch of the log. *)
Fixpoint entries (t : target) (l : list target) : nat :=
  match l with
  | [] => 0
  | t' :: l' => (if bool_decide (t' = t) then 1 else 0) + entries t l'
  end.

Definition is_reactive_call (t : target) : Prop :=
  match t with OfReactive _ => True | OfObserver _ => False end.

(** What evaluating a user function or reading a [Reactive] leaves
    alone: only functions of reactives are entered, each entry counted
    by its reactive, and the observers keep their stable fields. *)
Record run_frame (w w' : world) : Prop := mkRunFrame {
  rf_calls : ∃ l, calls w' = calls w ++ l ∧ Forall is_reactive_call l ∧
                  ∀ r, execs r w' = execs r w + entries (OfReactive r) l;
  rf_observers : o_stable <$> observers w' = o_stable <$> observers w;
  rf_funcs : r_func <$> reactives w' = r_func <$> reactives w }.

(** No error flag is raised between the two states. *)
Definition err_mono (w w' : world) : Prop :=
  ∀ r, err r w = false → err r w' = false.

(** [res] is not an exception that [_run_func] catches: a returned
    value, or a raised object that is not an [Exception]. *)
Definition unstored (res : result) : Prop :=
  match res with
  | Ok _ => True
  | Exc e => is_Exception e = false
  end.


(** The cached value of a [Reactive]. *)
Definition val (r : nat) (w : world) : value :=
  default VNone (r_value <$> reactives w !! r).

(** The test of [get_value], line 91. *)
Definition stale (rc : Reactive) : bool := r_invalidated rc || r_running rc.

(** What [get_value] reports from the final state, lines 94-97. *)
Definition reported (r : nat) (w : world) : result :=
  if err r w then Exc (val r w) else Ok (val r w).

(** [wpre] is a state in which [update_value], started in [w], enters
    the user function of [r]: the entry is logged, the counter of [r]
    is one more, its error flag is cleared, nothing else that the
    properties look at has moved. *)
Record entered (r : nat) (w wpre : world) : Prop := mkEntered {
  en_calls : calls wpre = calls w ++ [OfReactive r];
  en_execs : ∀ r', execs r' wpre = execs r' w + (if decide (r' = r) then 1 else 0);
  en_err : err r wpre = false;
  en_err_ne : ∀ r', r' ≠ r → err r' wpre = err r' w;
  en_observers : observers wpre = observers w;
  en_funcs : r_func <$> reactives wpre = r_func <$> reactives w }.

(** [w'] is the state [update_value] returns when the user function of
    [r] came back with [res] in [wpost]. *)
Record returned (r : nat) (res : result) (wpost w' : world) : Prop := mkReturned {
  lf_calls : calls w' = calls wpost;
  lf_execs : ∀ r', execs r' w' = execs r' wpost;
  lf_err_ne : ∀ r', r' ≠ r → err r' w' = err r' wpost;
  lf_observers : observers w' = observers wpost;
  lf_funcs : r_func <$> reactives w' = r_func <$> reactives wpost;
  lf_result : is_Some (reactives wpost !! r) →
              match res with
              | Ok v => err r w' = err r wpost ∧ val r w' = v
              | Exc e =>
                  if is_Exception e then err r w' = true ∧ val r w' = e
                  else err r w' = err r wpost ∧ val r w' = val r wpost
              end }.

(** What an evaluator of user functions has to respect. *)
Definition run_spec (run : cmd → world → option (result * world)) : Prop :=
  ∀ c w res w', run c w = Some (res, w') →
                run_frame w w' ∧ (unstored res → err_mono w w').

(** The state [update_value], started in [w] for the reactive [r], has
    reached at line 109: a new context is stored in [r] with the
    invalidation callback on it, the counter is one up, [_invalidated]
    is cleared and [_running] set. *)
Definition Reactive_prepared (r : nat) (w : world) : world :=
  let '(c, w1) := Context_new w in
  let w2 := upd_reactive r
              (set_r_most_recent_ctx_id (Z.of_nat c) ∘ set_r_ctx (Some c)) w1 in
  let w3 := default w2 (Context_on_invalidate c (ReactiveOnInvalidate r) w2) in
  set_running r true
    (upd_reactive r (set_r_invalidated false ∘ incr_r_exec_count) w3).

(** The state in which [update_value], started in [w], has the user
    function of [r] called: the session of [r] and the new context are
    installed (lines 111-113) and [_run_func] has cleared the error
    flag (line 124). *)
Definition Reactive_update_entry (r : nat) (w : world) : world :=
  let w5 := Reactive_prepared r w in
  let s := reactives w5 !! r ≫= r_session in
  log_call (OfReactive r)
    (upd_reactive r (set_r_error false)
       (set_current_ctx (Some (length (ctxs w)))
          (set_current_session s w5))).

(** The same for a read of a stale [r] through [get_value], which
    registers the reader first (line 89). *)
Definition Reactive_entry (r : nat) (w : world) : world :=
  Reactive_update_entry r (Dependents_register (DepReactive r) w).

(** The state [update_value], started in [w], returns or raises in when
    the user function came back with [res] in [wpost]: the outcome is
    stored, the ambient context and session and the running flag are
    those of [w] again. *)
Definition Reactive_update_exit (r : nat) (w : world) (res : result)
    (wpost : world) : outcome unit value * world :=
  let '(out, w1) := Reactive_store r res wpost in
  (out,
   set_running r (default false (r_running <$> reactives w !! r))
     (set_current_session (current_session w)
        (set_current_ctx (current_ctx w) w1))).

(** The state in which [Observer.run], started in [w], has the function
    of the observer [o] called: the context of this run is created and
    stored, the counter is one up, the session of [o] and the context
    are installed. *)
Definition Observer_entry (o : nat) (w : world) : world :=
  match Observer_create_context o w with
  | Some (ctx, w1) =>
      let w2 := upd_observer o incr_o_exec_count w1 in
      let s := observers w2 !! o ≫= o_session in
      log_call (OfObserver o)
        (set_current_ctx (Some ctx) (set_current_session s w2))
  | None => w
  end.


(* ===================================================================== *)
(** ** The engine as seen by an application *)
(* ===================================================================== *)

(** The calls an application makes on the engine.  A call that raises
    leaves the state it reached. *)
Inductive op : Type :=
| NewVal (v : value)
| ValGet (x : nat)
| ValSet (x : nat) (v : value)
| GetItem (m : nat) (key : pystr)
| SetItem (m : nat) (key : pystr) (v : value)
| DelItem (m : nat) (key : pystr)
| NewReactive (f : func)
| NewReactiveAsync (f : func)
| ReactiveGet (fuel : nat) (r : nat)
| NewObserver (f : func)
| NewObserverAsync (f : func)
| OnInvalidate (o : nat) (tag : nat)
| Destroy (o : nat)
| SessionEnded (s : nat)
| Flush (fuel : nat).

Definition step (a : op) (w : world) : option world :=
  match a with
  | NewVal v => Some (ReactiveVal_init v w).2
  | ValGet x => snd <$> ReactiveVal_get x w
  | ValSet x v => snd <$> ReactiveVal_set x v w
  | GetItem m key => snd <$> ReactiveValues_getitem m key w
  | SetItem m key v => snd <$> ReactiveValues_setitem m key v w
  | DelItem m key => snd <$> ReactiveValues_delitem m key w
  | NewReactive f => Some (Reactive_init f w).2
  | NewReactiveAsync f => Some (ReactiveAsync_init f w).2
  | ReactiveGet fuel r => snd <$> Reactive_call fuel r w
  | NewObserver f => snd <$> Observer_init f w
  | NewObserverAsync f => snd <$> ObserverAsync_init f w
  | OnInvalidate o tag => Some (Observer_on_invalidate o tag w)
  | Destroy o => Observer_destroy o w
  | SessionEnded s => session_ended s w
  | Flush fuel => snd <$> flush fuel w
  end.

Definition is_flush (a : op) : bool :=
  match a with Flush _ => true | _ => false end.

(** What a stretch of execution does to the observers that exist at its
    start: [l] is what it adds to the log of entries; an observer's
    counter moves by the number of its entries; a destroyed observer
    stays destroyed and is not entered.  With [quiet], no observer at
    all is entered. *)
Record obs_frame (quiet : bool) (w w' : world) : Prop := mkObsFrame {
  of_length : length (observers w) ≤ length (observers w');
  of_calls : ∃ l, calls w' = calls w ++ l ∧
      (quiet = true → Forall is_reactive_call l) ∧
      ∀ o, o < length (observers w) →
        o_execs o w' = o_execs o w + entries (OfObserver o) l ∧
        (destroyed o w = true →
         destroyed o w' = true ∧ entries (OfObserver o) l = 0) }.

(** What a stretch of execution does to the reactives that exist at
    its start: the counter of each moves by the number of entries into
    its function that the stretch adds to the log. *)
Record count_frame (w w' : world) : Prop := mkCountFrame {
  cf_length : length (reactives w) ≤ length (reactives w');
  cf_calls : ∃ l, calls w' = calls w ++ l ∧
      ∀ r, r < length (reactives w) →
           execs r w' = execs r w + entries (OfReactive r) l }.

(** [c] notifies [d] in [w]: [c] is a live context on which a reactive
    has its [_on_invalidate_cb] registered, and [d] is a dependent of
    that reactive. *)
Definition notifies (w : world) (c d : nat) : Prop :=
  ∃ cx r, ctxs w !! c = Some cx ∧ c_invalidated cx = false ∧
          ReactiveOnInvalidate r ∈ c_invalidate_callbacks cx ∧
          d ∈ get_dependents (DepReactive r) w.

(** The state [_on_invalidate_cb] leaves a reactive in. *)
Definition dirty (r : nat) (w : world) : Prop :=
  ∃ rc, reactives w !! r = Some rc ∧ r_invalidated rc = true ∧
        r_value rc = VNone ∧ r_dependents rc = [] ∧ r_ctx rc = None.

(** The state [on_invalidate_cb] leaves an observer and its context in. *)
Definition queued (o c : nat) (w : world) : Prop :=
  c ∈ pending w ∧
  ∀ ob, observers w !! o = Some ob → o_ctx ob = None.

(** How an invalidation spreads from [w] to [w']: contexts still live
    are untouched; a set of dependents is as it was or was notified and
    cleared; the callbacks registered on every context invalidated in
    between have had their effect; and what an invalidation writes
    stays written. *)
Record spread (w w' : world) : Prop := mkSpread {
  sp_frame : inv_frame w w';
  sp_live : ∀ e, is_invalidated e w' = false → ctxs w' !! e = ctxs w !! e;
  sp_deps : ∀ r,
    get_dependents (DepReactive r) w' = get_dependents (DepReactive r) w ∨
    (get_dependents (DepReactive r) w' = [] ∧
     ∀ d, d ∈ get_dependents (DepReactive r) w → d < length (ctxs w) →
          is_invalidated d w' = true);
  sp_flags : ∀ r rc, reactives w !! r = Some rc →
    ∃ rc', reactives w' !! r = Some rc' ∧
           (r_invalidated rc = true → r_invalidated rc' = true) ∧
           (r_value rc = VNone → r_value rc' = VNone) ∧
           (r_dependents rc = [] → r_dependents rc' = []) ∧
           (r_ctx rc = None → r_ctx rc' = None);
  sp_pending : ∀ c, c ∈ pending w → c ∈ pending w';
  sp_octx : ∀ o ob, observers w !! o = Some ob →
    ∃ ob', observers w' !! o = Some ob' ∧ (o_ctx ob = None → o_ctx ob' = None);
  sp_notified : ∀ e cx r d,
    ctxs w !! e = Some cx → c_invalidated cx = false →
    is_invalidated e w' = true →
    ReactiveOnInvalidate r ∈ c_invalidate_callbacks cx →
    d ∈ get_dependents (DepReactive r) w → d < length (ctxs w) →
    is_invalidated d w' = true;
  sp_dirty : ∀ e cx r,
    ctxs w !! e = Some cx → c_invalidated cx = false →
    is_invalidated e w' = true →
    ReactiveOnInvalidate r ∈ c_invalidate_callbacks cx →
    r < length (reactives w) → dirty r w';
  sp_queued : ∀ e cx o c,
    ctxs w !! e = Some cx → c_invalidated cx = false →
    is_invalidated e w' = true →
    ObserverOnInvalidate o c ∈ c_invalidate_callbacks cx →
    queued o c w' }.

(** What running one invalidation callback in [w] has achieved in [w']. *)
Definition cb_done (cb : inv_callback) (w w' : world) : Prop :=
  match cb with
  | ReactiveOnInvalidate r =>
      (r < length (reactives w) → dirty r w') ∧
      ∀ d, d ∈ get_dependents (DepReactive r) w → d < length (ctxs w) →
           is_invalidated d w' = true
  | ObserverOnInvalidate o c => queued o c w'
  end.

(** An invalidation step that succeeds and spreads whenever fewer than
    [n] contexts are live. *)
Definition spreads_below (n : nat) (inval : nat → world → option world) : Prop :=
  ∀ c w, live (ctxs w) < n →
    ∃ w', inval c w = Some w' ∧ spread w w' ∧
          (c < length (ctxs w) → is_invalidated c w' = true).

(* ===================================================================== *)
(** ** Sample programs and states *)
(* ===================================================================== *)

(** One [ReactiveVal], object 0, holding a boxed 0. *)
Definition w_val : world := (ReactiveVal_init (VObj 1 0) empty_world).2.

(** Raises while the value holds 0, returns the value otherwise. *)
Definition failing_on_zero : func :=
  Func false
    (GetVal 0 (λ v, match v with
                    | VObj _ 0%Z => Raise (VObj 50 (-1))
                    | _ => Return v
                    end)).


(** Reads reactive 0 and returns nothing. *)
Definition reads_reactive : func :=
  Func false (GetReactive 0 (λ _, Return VNone)).

Definition a_coroutine : func := Func true (Return VNone).

Definition w_failing : world := (Reactive_init failing_on_zero w_val).2.



(** An observer of the failing reactive: just constructed, after a
    first flush, and destroyed after that flush. *)
Definition w_observed : world :=
  default w_failing (snd <$> Observer_init reads_reactive w_failing).
Definition w_flushed : world := default w_observed (step (Flush 9) w_observed).
Definition w_destroyed : world := default w_flushed (Observer_destroy 0 w_flushed).

(** One live context, active, registered with a value holding a boxed 4. *)
Definition w_watched : world :=
  mkWorld [mkContext false [] []] (Some 0) [] [mkReactiveVal (VObj 1 4) [0]]
    [] [] [∅] None [] [] [].






(** The state in which the first run of the observer ends. *)
Definition w_observed_post : world :=
  default w_observed
    (snd <$> exec 9 (body reads_reactive) (Observer_entry 0 w_observed)).


(** The observed state after a write, a read and a flush. *)
Definition w_stepped : world :=
  default w_observed
    (foldM step [ValSet 0 (VObj 2 1); ReactiveGet 5 0; Flush 9] w_observed).

(** The state with the failing reactive, inside session 3. *)
Definition w_in_session : world := set_current_session (Some 3) w_failing.

(** The observed state after the observer has run once. *)
Definition w_ran : world :=
  match Observer_run (exec 9) 0 w_observed with
  | Some (_, w) => w
  | None => w_observed
  end.

End Reactives.

(* ===================================================================== *)
(** ** Properties of the identifier namespace *)
(* ===================================================================== *)

Module NamespacesFacts.
Import Namespaces.

Section Matching.
Variable tbl : N → bool.

Lemma is_word_not_newline c : is_word tbl c = true → c ≠ 10%N.
Proof. intros H ->. discriminate H. Qed.

Lemma is_word_not_dot c : is_word tbl c = true → c ≠ 46%N.
Proof. intros H ->. discriminate H. Qed.

Lemma star_word_eol s :
  star_then tbl Word (run tbl [Eol] false) s = at_eol (skip_word tbl s).
Proof.
  induction s as [|c t IH]; [reflexivity|].
  cbn [star_then skip_word atom_matches]. rewrite IH.
  destruct (is_word tbl c) eqn:Hc; cbn [andb orb].
  - assert (run tbl [Eol] false (c :: t) = false) as ->; [|by rewrite orb_false_r].
    cbn. destruct t; [|reflexivity].
    apply is_word_not_newline, N.eqb_neq in Hc. by rewrite Hc.
  - cbn. by rewrite andb_true_r.
Qed.

Lemma plus_word_eol s :
  run tbl [Plus Word; Eol] false s
  = negb (bool_decide (s = [])) && forallb (is_word tbl) (take 1 s)
    && at_eol (skip_word tbl s).
Proof.
  destruct s as [|c t]; [reflexivity|].
  rewrite (bool_decide_eq_false_2 (c :: t = [])) by done.
  cbn [run atom_matches]. rewrite star_word_eol.
  cbn [skip_word take forallb negb andb].
  destruct (is_word tbl c); reflexivity.
Qed.

Lemma re_valid_id_unfold s :
  re_match tbl re_valid_id s =
  match s with
  | c :: t => if (c =? 46)%N then run tbl [Plus Word; Eol] false t
              else run tbl [Plus Word; Eol] false s
  | [] => false
  end.
Proof.
  destruct s as [|c t]; [reflexivity|].
  unfold re_match, re_valid_id. cbn [run andb atom_matches].
  destruct (c =? 46)%N eqn:Hc; cbn [andb orb].
  - apply N.eqb_eq in Hc as ->.
    replace (is_word tbl 46) with false by reflexivity. cbn [andb].
    by rewrite orb_false_r.
  - reflexivity.
Qed.

Lemma eol_after_words s :
  last s ≠ Some 10%N → at_eol (skip_word tbl s) = forallb (is_word tbl) s.
Proof.
  induction s as [|c t IH]; [reflexivity|]. intros Hl.
  cbn [skip_word forallb]. destruct (is_word tbl c) eqn:Hc; cbn [andb].
  - apply IH. destruct t; [done|]. exact Hl.
  - destruct t as [|d t]; [|reflexivity].
    cbn. apply N.eqb_neq. intros ->. by apply Hl.
Qed.

Lemma tail_words s :
  last s ≠ Some 10%N →
  run tbl [Plus Word; Eol] false s
  = negb (bool_decide (s = [])) && forallb (is_word tbl) s.
Proof.
  intros Hl. rewrite plus_word_eol, eol_after_words by done.
  destruct s as [|c t]; [reflexivity|].
  rewrite (bool_decide_eq_false_2 (c :: t = [])) by done.
  cbn [take forallb negb andb].
  destruct (is_word tbl c); reflexivity.
Qed.

Lemma re_valid_id_words s :
  last s ≠ Some 10%N → re_match tbl re_valid_id s = word_valid_id tbl s.
Proof.
  intros Hl. rewrite re_valid_id_unfold. unfold word_valid_id.
  destruct s as [|c t]; [reflexivity|].
  destruct (c =? 46)%N; apply tail_words; [|done].
  destruct t; [done|exact Hl].
Qed.

End Matching.

(** C8 (as the code has it): away from a trailing newline, validation
    succeeds exactly on an optional leading dot followed by one or more
    [\w] characters, which for [str] patterns are the Unicode word
    characters and not only the ASCII ones; a rejected string is
    reported in a [ValueError] whose message quotes it. *)
Theorem validate_id_word_pattern (tbl : N → bool) (s : pystr) :
  last s ≠ Some 10%N →
  (validate_id tbl s = Ok tt ↔ word_valid_id tbl s = true) ∧
  (word_valid_id tbl s = false →
   validate_id tbl s =
   Exc (ValueError
          (lit "The string '" ++ s ++
           lit "' is not a valid id; only letters, numbers, and underscore are permitted"))).
Proof.
  intros Hl. unfold validate_id. rewrite re_valid_id_words by done.
  destruct (word_valid_id tbl s); cbn; (split; [split|]); done.
Qed.

Lemma validate_id_word_pattern_witness :
  validate_id (λ _, false) (lit ".tab_1") = Ok tt
  ∧ validate_id (λ _, false) (lit "a-b")
    = Exc (ValueError
             (lit ("The string 'a-b' is not a valid id; only letters, numbers, "
                   ++ "and underscore are permitted"))).
Proof.
  split.
  - apply (validate_id_word_pattern (λ _, false) (lit ".tab_1")); [done|reflexivity].
  - apply (validate_id_word_pattern (λ _, false) (lit "a-b")); [done|reflexivity].
Defined.

(** C8 (as stated) fails: the one-character identifier U+00E9 is
    accepted by [validate_id], whatever the Unicode table says above
    U+00FF, and is not matched by the ASCII pattern of the spec. *)
Lemma validate_id_accepts_non_ascii :
  ¬ (∀ (tbl : N → bool) (s : pystr),
       validate_id tbl s = Ok tt ↔ spec_valid_id s = true).
Proof.
  intros H. destruct (H (λ _, false) [233%N]) as [H1 _].
  specialize (H1 eq_refl). discriminate H1.
Qed.

(** C10: an id that is already a [ResolvedId] is returned as it is, with
    no validation (also when its text would not validate); a plain
    string is validated, a malformed one raising the validation error;
    a valid one is returned unprefixed under the root namespace and
    joined to the namespace with one '-' otherwise. *)
Theorem resolve_id_cases (tbl : N → bool) (ns s : pystr) :
  resolve_id tbl ns (ResolvedId s) = Ok (ResolvedId s) ∧
  (re_match tbl re_valid_id s = false →
   resolve_id tbl ns (Str s) = Exc (ValueError (invalid_id_message s))) ∧
  (re_match tbl re_valid_id s = true →
   resolve_id tbl Root (Str s) = Ok (ResolvedId s) ∧
   (ns ≠ [] → resolve_id tbl ns (Str s) = Ok (ResolvedId (ns ++ [45%N] ++ s)))).
Proof.
  split; [reflexivity|]. unfold resolve_id, ResolvedId_call, validate_id.
  split; intros ->; cbn; [reflexivity|].
  split; [reflexivity|]. intros Hns. by rewrite decide_False.
Qed.

Lemma resolve_id_cases_witness :
  resolve_id (λ _, false) (lit "mod") (ResolvedId (lit "not valid"))
  = Ok (ResolvedId (lit "not valid"))
  ∧ resolve_id (λ _, false) (lit "mod") (Str (lit "not valid"))
    = Exc (ValueError (invalid_id_message (lit "not valid")))
  ∧ resolve_id (λ _, false) Root (Str (lit "x")) = Ok (ResolvedId (lit "x"))
  ∧ resolve_id (λ _, false) (lit "mod") (Str (lit "x")) = Ok (ResolvedId (lit "mod-x")).
Proof.
  destruct (resolve_id_cases (λ _, false) (lit "mod") (lit "not valid")) as (H1 & H2 & _).
  destruct (resolve_id_cases (λ _, false) (lit "mod") (lit "x")) as (_ & _ & H3).
  destruct (H3 eq_refl) as [H4 H5].
  split; [exact H1|]. split; [exact (H2 eq_refl)|]. split; [exact H4|].
  apply H5. done.
Defined.


(** *** More on validation and on nested namespaces *)

Section MoreMatching.
Variable tbl : N → bool.

Lemma eol_shape t :
  at_eol (skip_word tbl t) = true →
  ∃ ws, Forall (λ c, is_word tbl c = true) ws ∧ (t = ws ∨ t = ws ++ [10%N]).
Proof.
  induction t as [|c t IH]; cbn [skip_word].
  - intros _. exists []. split; [constructor|by left].
  - destruct (is_word tbl c) eqn:Hc.
    + intros H. destruct (IH H) as (ws & Hws & Ht). exists (c :: ws).
      split; [by constructor|]. destruct Ht as [->| ->]; [by left|by right].
    + intros H. cbn in H. destruct t as [|d t]; [|done].
      apply N.eqb_eq in H as ->. exists []. split; [constructor|by right].
Qed.

(** The shape of an accepted identifier: an optional dot, a non-empty
    run of word characters, an optional final newline. *)
Lemma accepted_shape s :
  re_match tbl re_valid_id s = true →
  ∃ dot ws nl, s = dot ++ ws ++ nl ∧ (dot = [] ∨ dot = [46%N]) ∧
               ws ≠ [] ∧ Forall (λ c, is_word tbl c = true) ws ∧
               (nl = [] ∨ nl = [10%N]).
Proof.
  rewrite re_valid_id_unfold. destruct s as [|c t]; [done|].
  assert (Htail : ∀ u, run tbl [Plus Word; Eol] false u = true →
            ∃ ws nl, u = ws ++ nl ∧ ws ≠ [] ∧
                     Forall (λ c, is_word tbl c = true) ws ∧ (nl = [] ∨ nl = [10%N])).
  { intros u. rewrite plus_word_eol. intros H.
    apply andb_prop in H as [H Heol]. apply andb_prop in H as [Hne Hhd].
    destruct (eol_shape u Heol) as (ws & Hws & Hu).
    destruct ws as [|w ws].
    - destruct Hu as [->| ->]; [done|]. cbn in Hhd. done.
    - destruct Hu as [->| ->].
      + exists (w :: ws), []. rewrite app_nil_r. by eauto 10.
      + exists (w :: ws), [10%N]. by eauto 10. }
  destruct (c =? 46)%N eqn:Hc; intros H.
  - apply N.eqb_eq in Hc as ->.
    destruct (Htail _ H) as (ws & nl & -> & Hne & Hws & Hnl).
    exists [46%N], ws, nl. by eauto 10.
  - destruct (Htail _ H) as (ws & nl & E & Hne & Hws & Hnl).
    exists [], ws, nl. by eauto 10.
Qed.

Lemma skip_word_snoc_newline t :
  skip_word tbl (t ++ [10%N])
  = if forallb (is_word tbl) t then [10%N] else skip_word tbl t ++ [10%N].
Proof.
  induction t as [|c t IH]; [reflexivity|]. cbn [app skip_word forallb].
  destruct (is_word tbl c); cbn [andb]; [exact IH|reflexivity].
Qed.

Lemma skip_word_stops t :
  forallb (is_word tbl) t = false → skip_word tbl t ≠ [].
Proof.
  induction t as [|c t IH]; [done|]. cbn [skip_word forallb].
  destruct (is_word tbl c); cbn [andb]; [exact IH|done].
Qed.

Lemma at_eol_snoc (x : pystr) : x ≠ [] → at_eol (x ++ [10%N]) = false.
Proof. destruct x as [|d [|e u]]; done. Qed.

Lemma tail_words_newline t :
  last t ≠ Some 10%N →
  run tbl [Plus Word; Eol] false (t ++ [10%N])
  = run tbl [Plus Word; Eol] false t.
Proof.
  intros Hl. rewrite (tail_words tbl t Hl), plus_word_eol, skip_word_snoc_newline.
  destruct t as [|c t]; [reflexivity|].
  rewrite (bool_decide_eq_false_2 (c :: t = [])) by done.
  rewrite (bool_decide_eq_false_2 ((c :: t) ++ [10%N] = [])) by done.
  destruct (forallb (is_word tbl) (c :: t)) eqn:Hall.
  - cbn in Hall |- *. apply andb_prop in Hall as [-> _]. reflexivity.
  - rewrite (at_eol_snoc _ (skip_word_stops _ Hall)). by rewrite andb_false_r.
Qed.

End MoreMatching.

Lemma validate_id_excludes_specials_aux (tbl : N → bool) (s : pystr) :
  validate_id tbl s = Ok tt →
  s ≠ [] ∧ s ≠ [46%N] ∧ (32%N ∉ s) ∧ (44%N ∉ s) ∧ (45%N ∉ s) ∧ (46%N ∉ drop 1 s).
Proof.
  unfold validate_id. destruct (re_match tbl re_valid_id s) eqn:H; [|done].
  intros _. destruct (accepted_shape tbl s H) as (dot & ws & nl & -> & Hdot & Hne & Hws & Hnl).
  assert (Hw : ∀ c, c ∈ ws → c ≠ 32%N ∧ c ≠ 44%N ∧ c ≠ 45%N ∧ c ≠ 46%N).
  { intros c Hc. rewrite Forall_forall in Hws. specialize (Hws c Hc).
    repeat split; intros ->; discriminate Hws. }
  assert (Hin : ∀ c, c ∈ ws ++ nl → c ≠ 32%N ∧ c ≠ 44%N ∧ c ≠ 45%N ∧ c ≠ 46%N).
  { intros c Hc. apply elem_of_app in Hc as [Hc|Hc]; [by apply Hw|].
    destruct Hnl as [->| ->]; [by apply elem_of_nil in Hc|].
    apply list_elem_of_singleton in Hc as ->. done. }
  destruct ws as [|w ws]; [done|].
  destruct Hdot as [->| ->]; cbn [app drop].
  - split; [done|]. split.
    { intros [= -> E]. destruct (Hw 46%N) as (_ & _ & _ & Hd); [by left|done]. }
    repeat split; intros Hc.
    + by destruct (Hin _ Hc) as (? & _).
    + by destruct (Hin _ Hc) as (_ & ? & _).
    + by destruct (Hin _ Hc) as (_ & _ & ? & _).
    + assert (Hc' : 46%N ∈ (w :: ws) ++ nl) by (cbn; by right).
      by destruct (Hin _ Hc') as (_ & _ & _ & ?).
  - split; [done|]. split; [done|].
    repeat split; intros Hc.
    + apply elem_of_cons in Hc as [Hc|Hc]; [done|]. by destruct (Hin _ Hc) as (? & _).
    + apply elem_of_cons in Hc as [Hc|Hc]; [done|]. by destruct (Hin _ Hc) as (_ & ? & _).
    + apply elem_of_cons in Hc as [Hc|Hc]; [done|]. by destruct (Hin _ Hc) as (_ & _ & ? & _).
    + by destruct (Hin _ Hc) as (_ & _ & _ & ?).
Qed.

(** X1: an identifier that validates is not empty and contains no
    space, comma or dash, and no period except as its first character. *)
Theorem validate_id_excludes_specials (tbl : N → bool) (s : pystr) :
  validate_id tbl s = Ok tt →
  s ≠ [] ∧ s ≠ [46%N] ∧ (32%N ∉ s) ∧ (44%N ∉ s) ∧ (45%N ∉ s) ∧ (46%N ∉ drop 1 s).
Proof. apply validate_id_excludes_specials_aux. Qed.

Lemma validate_id_excludes_specials_witness :
  lit ".tab_1" ≠ [] ∧ (45%N ∉ lit ".tab_1") ∧ (46%N ∉ drop 1 (lit ".tab_1")).
Proof.
  destruct (validate_id_excludes_specials (λ _, false) (lit ".tab_1") eq_refl)
    as (H1 & _ & _ & _ & H2 & H3).
  done.
Defined.

(** X2: the [$] of the pattern also matches before a final newline: an
    identifier followed by one newline validates exactly when the
    identifier itself does. *)
Theorem validate_id_trailing_newline (tbl : N → bool) (s : pystr) :
  last s ≠ Some 10%N →
  validate_id tbl (s ++ [10%N]) = Ok tt ↔ validate_id tbl s = Ok tt.
Proof.
  intros Hl. unfold validate_id. rewrite !re_valid_id_unfold.
  assert (E : match s ++ [10%N] with
              | c :: t => if (c =? 46)%N then run tbl [Plus Word; Eol] false t
                          else run tbl [Plus Word; Eol] false (s ++ [10%N])
              | [] => false
              end
              = match s with
                | c :: t => if (c =? 46)%N then run tbl [Plus Word; Eol] false t
                            else run tbl [Plus Word; Eol] false s
                | [] => false
                end).
  { destruct s as [|c t]; [reflexivity|]. cbn [app].
    destruct (c =? 46)%N.
    - apply tail_words_newline. destruct t; [done|exact Hl].
    - apply (tail_words_newline tbl (c :: t) Hl). }
  rewrite E. match goal with |- context [negb ?b] => destruct b end; by cbn.
Qed.

Lemma validate_id_trailing_newline_witness :
  validate_id (λ _, false) (lit "a" ++ [10%N]) = Ok tt.
Proof.
  apply (validate_id_trailing_newline (λ _, false) (lit "a")); [done|reflexivity].
Defined.

Lemma dash_not_valid (tbl : N → bool) (s : pystr) :
  45%N ∈ s → validate_id tbl s = Exc (ValueError (invalid_id_message s)).
Proof.
  intros Hd. destruct (validate_id tbl s) as [[]|e] eqn:E.
  - by destruct (validate_id_excludes_specials_aux tbl s E) as (_ & _ & _ & _ & H & _).
  - unfold validate_id in E. by destruct (negb _).
Qed.

(** X3: what [resolve_id] returns is returned unchanged by a second
    [resolve_id] under any namespace; and this rests on the
    [isinstance] test, since under a non-root namespace the text of the
    result contains the dash and would be rejected as a plain string. *)
Theorem resolve_id_idempotent (tbl : N → bool) (ns ns' : pystr) (id r : Id) :
  resolve_id tbl ns id = Ok r →
  resolve_id tbl ns' r = Ok r ∧
  (∀ s, id = Str s → ns ≠ [] →
        resolve_id tbl ns' (Str (text r))
        = Exc (ValueError (invalid_id_message (text r)))).
Proof.
  unfold resolve_id, ResolvedId_call. intros H. destruct id as [s|s].
  - destruct (validate_id tbl s) as [[]|e]; [|done].
    destruct (decide (ns = [])) as [->|Hns]; injection H as <-.
    + split; [done|]. by intros s' _ [].
    + split; [done|]. intros s' _ _. cbn [text].
      rewrite dash_not_valid; [done|].
      apply elem_of_app. right. apply elem_of_cons. left. reflexivity.
  - injection H as <-. split; [done|]. by intros s' [=].
Qed.

Lemma resolve_id_idempotent_witness :
  resolve_id (λ _, false) (lit "other") (ResolvedId (lit "mod-x"))
  = Ok (ResolvedId (lit "mod-x")) ∧
  resolve_id (λ _, false) (lit "other") (Str (lit "mod-x"))
  = Exc (ValueError (invalid_id_message (lit "mod-x"))).
Proof.
  destruct (resolve_id_idempotent (λ _, false) (lit "mod") (lit "other")
              (Str (lit "x")) (ResolvedId (lit "mod-x")) eq_refl) as [H1 H2].
  split; [exact H1|]. by apply (H2 (lit "x")).
Defined.

(** The namespace joined to a name as [ResolvedId.__call__] does. *)
Lemma resolve_valid (tbl : N → bool) (ns s : pystr) :
  re_match tbl re_valid_id s = true →
  resolve_id tbl ns (Str s)
  = Ok (ResolvedId (if decide (ns = []) then s else ns ++ lit "-" ++ s)).
Proof.
  intros H. unfold resolve_id, ResolvedId_call, validate_id. rewrite H. cbn.
  by destruct (decide (ns = [])).
Qed.

Lemma within_resolve (tbl : N → bool) (x : pystr) (names : list pystr) :
  Forall (λ n, re_match tbl re_valid_id n = true) names →
  re_match tbl re_valid_id x = true →
  ∀ ns, within tbl names (λ cur, (resolve_id tbl cur (Str x), cur)) ns
        = (Ok (ResolvedId (if decide (ns = []) then dashed (names ++ [x])
                           else ns ++ lit "-" ++ dashed (names ++ [x]))), ns).
Proof.
  intros Hn Hx. induction Hn as [|n names Hv Hn IH]; intros ns.
  - cbn [within app dashed]. by rewrite (resolve_valid tbl ns x Hx).
  - cbn [within]. unfold namespace_context.
    assert (Hne : n ≠ []) by (intros ->; discriminate Hv).
    unfold truthy. cbn [text]. rewrite bool_decide_eq_false_2 by done. cbn [negb].
    rewrite (resolve_valid tbl ns n Hv). cbn [text]. rewrite IH.
    assert (Hd : dashed ((n :: names) ++ [x]) = n ++ lit "-" ++ dashed (names ++ [x])).
    { cbn [app dashed]. by destruct (names ++ [x]) eqn:E; [destruct names|]. }
    rewrite Hd. f_equal. f_equal. f_equal.
    destruct (decide (ns = [])) as [->|Hns].
    + by rewrite decide_False.
    + rewrite decide_False by (by destruct ns). by rewrite <- !app_assoc.
Qed.

(** X4: an id resolved inside nested [namespace_context] blocks, entered
    from the root namespace with valid names, is the names of the
    enclosing blocks, outermost first, and the id, joined by single
    dashes; when the blocks are left the namespace is the root again. *)
Theorem namespace_context_nesting (tbl : N → bool) (names : list pystr) (x : pystr) :
  Forall (λ n, re_match tbl re_valid_id n = true) names →
  re_match tbl re_valid_id x = true →
  within tbl names (λ cur, (resolve_id tbl cur (Str x), cur)) Root
  = (Ok (ResolvedId (dashed (names ++ [x]))), Root).
Proof. intros Hn Hx. by rewrite (within_resolve tbl x names Hn Hx Root). Qed.

Lemma namespace_context_nesting_witness :
  within (λ _, false) [lit "outer"; lit "inner"]
    (λ cur, (resolve_id (λ _, false) cur (Str (lit "btn")), cur)) Root
  = (Ok (ResolvedId (lit "outer-inner-btn")), Root).
Proof.
  apply (namespace_context_nesting (λ _, false) [lit "outer"; lit "inner"] (lit "btn")).
  - by repeat constructor.
  - reflexivity.
Defined.

(** X5: [namespace_context] always leaves the namespace it found, also
    when the block raises or the id is rejected.  An id that is [None]
    or empty runs the block in the root namespace, and an id that is
    already resolved runs it in exactly that namespace, whatever the
    current one is; a malformed id raises before the block starts. *)
Theorem namespace_context_cases (tbl : N → bool) (A : Type) (id : option Id)
    (block : pystr → outcome A exn * pystr) (ns : pystr) :
  (namespace_context tbl id block ns).2 = ns ∧
  (truthy id = false →
   namespace_context tbl id block ns = ((block Root).1, ns)) ∧
  (∀ s, id = Some (ResolvedId s) → s ≠ [] →
        namespace_context tbl id block ns = ((block s).1, ns)) ∧
  (∀ s, id = Some (Str s) → s ≠ [] → re_match tbl re_valid_id s = false →
        namespace_context tbl id block ns
        = (Exc (ValueError (invalid_id_message s)), ns)).
Proof.
  split; [|split; [|split]].
  - unfold namespace_context.
    destruct (match id with Some i => _ | None => _ end) as [r|e]; [|done].
    by destruct (block (text r)).
  - intros Ht. unfold namespace_context. destruct id as [i|]; rewrite ?Ht;
      cbn [text]; by destruct (block Root).
  - intros s -> Hs. unfold namespace_context, truthy. cbn [text].
    rewrite bool_decide_eq_false_2 by done. cbn. by destruct (block s).
  - intros s -> Hs Hv. unfold namespace_context, truthy. cbn [text].
    rewrite bool_decide_eq_false_2 by done. cbn [negb].
    unfold resolve_id, ResolvedId_call, validate_id. by rewrite Hv.
Qed.

Lemma namespace_context_cases_witness :
  namespace_context (λ _, false) (Some (ResolvedId (lit "abs")))
    (λ cur, (Ok cur, lit "changed")) (lit "mod")
  = (Ok (lit "abs"), lit "mod") ∧
  namespace_context (λ _, false) (Some (Str (lit "a b")))
    (λ cur, (Ok cur, cur)) (lit "mod")
  = (Exc (ValueError (invalid_id_message (lit "a b"))), lit "mod") ∧
  namespace_context (λ _, false) (Some (Str []))
    (λ cur, (Ok cur, cur)) (lit "mod")
  = (Ok Root, lit "mod").
Proof.
  destruct (namespace_context_cases (λ _, false) pystr (Some (ResolvedId (lit "abs")))
              (λ cur, (Ok cur, lit "changed")) (lit "mod")) as (_ & _ & H1 & _).
  destruct (namespace_context_cases (λ _, false) pystr (Some (Str (lit "a b")))
              (λ cur, (Ok cur, cur)) (lit "mod")) as (_ & _ & _ & H2).
  destruct (namespace_context_cases (λ _, false) pystr (Some (Str []))
              (λ cur, (Ok cur, cur)) (lit "mod")) as (_ & H3 & _).
  split; [by apply (H1 (lit "abs"))|]. split; [by apply (H2 (lit "a b"))|].
  by apply H3.
Defined.
End NamespacesFacts.

(* ===================================================================== *)
(** ** Properties of the reactive objects *)
(* ===================================================================== *)

Module ReactivesFacts.
Import Reactives.

(** *** Invalidation terminates and touches little *)

Lemma map_alter_stable {A B : Type} (g : A → B) (f : A → A) (i : nat) (l : list A) :
  (∀ a, g (f a) = g a) → g <$> alter f i l = g <$> l.
Proof.
  intros Hg. revert i. induction l as [|a l IH]; intros [|i]; cbn; try done.
  - by rewrite Hg.
  - by rewrite IH.
Qed.

Lemma live_le_length l : live l ≤ length l.
Proof. induction l as [|cx l IH]; cbn; [lia|destruct (c_invalidated cx); lia]. Qed.

Lemma live_mark l c cx fl :
  l !! c = Some cx → c_invalidated cx = false →
  S (live (alter (λ cx, mkContext true [] (fl cx)) c l)) = live l.
Proof.
  revert c. induction l as [|a l IH]; intros [|c] Hc Hi; cbn in *; try done.
  - injection Hc as ->. rewrite Hi. lia.
  - rewrite <- (IH c Hc Hi). destruct (c_invalidated a); lia.
Qed.

Lemma inv_frame_refl w : inv_frame w w.
Proof. by constructor. Qed.

Lemma inv_frame_trans w1 w2 w3 : inv_frame w1 w2 → inv_frame w2 w3 → inv_frame w1 w3.
Proof.
  intros [] []. constructor; try congruence; [lia|auto].
Qed.

Lemma inv_frame_upd_reactive r g w :
  (∀ rc, r_stable (g rc) = r_stable rc) → inv_frame w (upd_reactive r g w).
Proof.
  intros Hg. constructor; try done. cbn. by apply map_alter_stable.
Qed.

Lemma inv_frame_upd_observer o g w :
  (∀ ob, o_stable (g ob) = o_stable ob) → inv_frame w (upd_observer o g w).
Proof.
  intros Hg. constructor; try done. cbn. by apply map_alter_stable.
Qed.

Lemma inv_frame_log_fired tags w : inv_frame w (log_fired tags w).
Proof. by constructor. Qed.

Lemma inv_frame_add_pending c w : inv_frame w (add_pending_flush c w).
Proof. unfold add_pending_flush. case_bool_decide; by constructor. Qed.

Lemma is_invalidated_mark c c' fl w :
  is_invalidated c' w = true →
  is_invalidated c' (upd_ctx c (λ cx, mkContext true [] (fl cx)) w) = true.
Proof.
  unfold is_invalidated, upd_ctx. cbn.
  destruct (decide (c = c')) as [->|Hne].
  - rewrite list_lookup_alter_eq. by destruct (ctxs w !! c').
  - by rewrite list_lookup_alter_ne.
Qed.

Lemma inv_frame_mark c cx w :
  ctxs w !! c = Some cx → c_invalidated cx = false →
  inv_frame w (upd_ctx c (λ cx, mkContext true [] (c_flush_callbacks cx)) w).
Proof.
  intros Hc Hi. constructor; try done.
  - cbn. rewrite <- (live_mark _ _ _ c_flush_callbacks Hc Hi). lia.
  - cbn. by rewrite length_alter.
  - intros c'. apply is_invalidated_mark.
  - cbn. by apply map_alter_stable.
Qed.

Lemma inv_frame_set_dependents r ds w :
  inv_frame w (set_dependents (DepReactive r) ds w).
Proof. by apply inv_frame_upd_reactive. Qed.

Lemma foldM_steps_below {A : Type} n (step : A → world → option world) :
  steps_below n step → ∀ l, steps_below n (λ _ : unit, foldM step l).
Proof.
  intros Hs l. induction l as [|a l IH]; intros u w Hw; cbn.
  - eauto using inv_frame_refl.
  - destruct (Hs a w Hw) as (w1 & -> & F1). cbn.
    destruct (IH u w1) as (w2 & -> & F2); [destruct F1; lia|].
    eauto using inv_frame_trans.
Qed.

Lemma run_inv_callback_steps_below n inval :
  steps_below n inval → steps_below n (run_inv_callback inval).
Proof.
  intros Hi [r|o c] w Hw; unfold run_inv_callback.
  - unfold Reactive_on_invalidate_cb, Dependents_invalidate.
    set (w1 := upd_reactive r _ w).
    assert (F1 : inv_frame w w1) by by apply inv_frame_upd_reactive.
    destruct (foldM_steps_below n inval Hi (get_dependents (DepReactive r) w1) tt w1)
      as (w2 & -> & F2); [destruct F1; lia|]. cbn.
    eexists; split; [reflexivity|].
    eapply inv_frame_trans; [exact F1|]. eapply inv_frame_trans; [exact F2|].
    eapply inv_frame_trans; [apply inv_frame_set_dependents|].
    by apply inv_frame_upd_reactive.
  - eexists; split; [reflexivity|]. unfold Observer_on_invalidate_cb.
    eapply inv_frame_trans; [|apply inv_frame_add_pending].
    eapply inv_frame_trans; [|apply inv_frame_log_fired].
    by apply inv_frame_upd_observer.
Qed.

Lemma Context_invalidate_fuel_total f :
  steps_below f (Context_invalidate_fuel f).
Proof.
  induction f as [|f IH]; intros c w Hw; [lia|]. cbn.
  destruct (ctxs w !! c) as [cx|] eqn:Hc; [|eauto using inv_frame_refl].
  destruct (c_invalidated cx) eqn:Hi; [eauto using inv_frame_refl|].
  pose proof (inv_frame_mark c cx w Hc Hi) as F1.
  set (w1 := upd_ctx c _ w) in *.
  assert (Hl : live (ctxs w1) < f).
  { pose proof (live_mark _ _ _ c_flush_callbacks Hc Hi) as E.
    subst w1; cbn; lia. }
  destruct (foldM_steps_below f _ (run_inv_callback_steps_below f _ IH)
              (c_invalidate_callbacks cx) tt w1 Hl) as (w2 & -> & F2).
  eauto using inv_frame_trans.
Qed.

Lemma Context_invalidate_total c w :
  ∃ w', Context_invalidate c w = Some w' ∧ inv_frame w w'.
Proof.
  apply Context_invalidate_fuel_total. pose proof (live_le_length (ctxs w)). lia.
Qed.

Lemma is_invalidated_lt c w : is_invalidated c w = true → c < length (ctxs w).
Proof.
  unfold is_invalidated. destruct (ctxs w !! c) eqn:E; [|done].
  intros _. by eapply lookup_lt_Some.
Qed.

Lemma Context_invalidate_marks c w w' :
  Context_invalidate c w = Some w' → c < length (ctxs w) →
  is_invalidated c w' = true.
Proof.
  unfold Context_invalidate. cbn. intros H Hlt.
  destruct (lookup_lt_is_Some_2 _ _ Hlt) as [cx Hc]. rewrite Hc in H.
  destruct (c_invalidated cx) eqn:Hi.
  - injection H as <-. unfold is_invalidated. by rewrite Hc.
  - pose proof (live_mark _ _ _ c_flush_callbacks Hc Hi) as E.
    pose proof (live_le_length (ctxs w)) as Hle.
    set (w1 := upd_ctx c _ w) in *.
    destruct (foldM_steps_below _ _
                (run_inv_callback_steps_below _ _
                   (Context_invalidate_fuel_total (length (ctxs w))))
                (c_invalidate_callbacks cx) tt w1) as (w2 & E2 & F2).
    { subst w1; cbn; lia. }
    rewrite E2 in H. injection H as <-.
    apply (if_mono _ _ F2). subst w1. unfold is_invalidated, upd_ctx. cbn.
    by rewrite list_lookup_alter_eq, Hc.
Qed.

#[local] Arguments Context_invalidate : simpl never.

(** Notifying a list of contexts invalidates each of them. *)
Lemma notify_all ds w :
  ∃ w', foldM Context_invalidate ds w = Some w' ∧ inv_frame w w' ∧
        ∀ d, d ∈ ds → d < length (ctxs w) → is_invalidated d w' = true.
Proof.
  revert w. induction ds as [|d ds IH]; intros w; cbn.
  - eexists; split; [done|]. split; [apply inv_frame_refl|].
    intros d Hd. by apply elem_of_nil in Hd.
  - destruct (Context_invalidate_total d w) as (w1 & E1 & F1). rewrite E1. cbn.
    destruct (IH w1) as (w2 & E2 & F2 & H2). rewrite E2.
    eexists; split; [done|]. split; [by eapply inv_frame_trans|].
    intros d' Hd' Hlt. apply elem_of_cons in Hd' as [->|Hin].
    + apply (if_mono _ _ F2). by eapply Context_invalidate_marks.
    + apply H2; [done|]. by rewrite (if_length _ _ F1).
Qed.

(** *** ReactiveVal *)

(** The changing case of [set], with what it leaves alone. *)
Lemma ReactiveVal_set_frame x rv v w :
  rvals w !! x = Some rv → py_is (rv_value rv) v = false →
  ∃ w', ReactiveVal_set x v w = Some (true, w') ∧
        rvals w' !! x = Some (mkReactiveVal v []) ∧
        (rmaps w' = rmaps w ∧ length (rvals w') = length (rvals w)
         ∧ calls w' = calls w) ∧
        ∀ c, c ∈ rv_dependents rv → c < length (ctxs w) →
             is_invalidated c w' = true.
Proof.
  intros Hx Hv. unfold ReactiveVal_set. rewrite Hx. cbn [mbind option_bind].
  rewrite Hv. unfold Dependents_invalidate.
  set (w1 := upd_rval x _ w).
  assert (Hd : get_dependents (DepVal x) w1 = rv_dependents rv).
  { subst w1. cbn. by rewrite list_lookup_alter_eq, Hx. }
  rewrite Hd.
  destruct (notify_all (rv_dependents rv) w1) as (w2 & -> & F & Hinv). cbn.
  eexists; split; [done|]. split; [|split].
  - cbn. rewrite list_lookup_alter_eq, (if_rvals _ _ F). subst w1. cbn.
    by rewrite list_lookup_alter_eq, Hx.
  - cbn. rewrite (if_rmaps _ _ F), length_alter, (if_rvals _ _ F), (if_calls _ _ F).
    subst w1. cbn. by rewrite length_alter.
  - intros c Hc Hlt. exact (Hinv c Hc Hlt).
Qed.

(** C1: [set] with the very object that is stored returns [False] and
    changes nothing, so no dependent is notified; [set] with any other
    object, equal or not to the stored one under [==], returns [True]
    with the value replaced, the dependent set emptied and every context
    that was in it invalidated when [set] returns. *)
Theorem ReactiveVal_set_identity (x : nat) (rv : ReactiveVal) (v : value) (w : world) :
  rvals w !! x = Some rv →
  (py_is (rv_value rv) v = true → ReactiveVal_set x v w = Some (false, w)) ∧
  (py_is (rv_value rv) v = false →
   ∃ w', ReactiveVal_set x v w = Some (true, w') ∧
         rvals w' !! x = Some (mkReactiveVal v []) ∧
         calls w' = calls w ∧
         ∀ c, c ∈ rv_dependents rv → c < length (ctxs w) →
              is_invalidated c w' = true).
Proof.
  intros Hx. split.
  - intros Hv. unfold ReactiveVal_set. rewrite Hx. cbn [mbind option_bind].
    by rewrite Hv.
  - intros Hv.
    destruct (ReactiveVal_set_frame x rv v w Hx Hv) as (w' & E & Hx' & (_ & _ & Hc) & Hinv).
    eauto 10.
Qed.

(** *** ReactiveValues *)

Lemma lookup_snoc_length {A : Type} (l : list A) (a : A) :
  (l ++ [a]) !! length l = Some a.
Proof. by rewrite lookup_app_r, Nat.sub_diag by lia. Qed.

Lemma ReactiveVal_get_fresh x v w :
  rvals w !! x = Some (mkReactiveVal v []) →
  ∃ w1, ReactiveVal_get x w = Some (v, w1) ∧
        rvals w1 !! x
          = Some (mkReactiveVal v
                    (match current_ctx w with Some c => [c] | None => [] end)) ∧
        length (rvals w1) = length (rvals w) ∧
        rmaps w1 = rmaps w ∧ ctxs w1 = ctxs w.
Proof.
  intros Hx. unfold ReactiveVal_get, Dependents_register.
  destruct (current_ctx w) as [c|].
  - cbn [get_dependents]. rewrite Hx. cbn [fmap option_fmap option_map default rv_dependents].
    rewrite bool_decide_eq_false_2 by apply not_elem_of_nil.
    cbn. rewrite list_lookup_alter_eq, Hx. cbn.
    eexists; split; [done|]. cbn. by rewrite ?list_lookup_alter_eq, ?Hx, ?length_alter.
  - rewrite Hx. cbn. eexists; by repeat split.
Qed.

(** C9 (as the code has it): reading a key that was never set does not
    fail; it creates a [ReactiveVal] holding [None] under the key, the
    read returns [None] and registers the active context if there is
    one; a later write of an object other than [None] under that key
    goes to the same [ReactiveVal], creating none, and invalidates that
    context. *)
Theorem ReactiveValues_getitem_unset (m : nat) (mp : gmap pystr nat)
    (key : pystr) (w : world) :
  rmaps w !! m = Some mp → mp !! key = None →
  ∃ w1, ReactiveValues_getitem m key w = Some (Ok VNone, w1) ∧
        rmaps w1 !! m = Some (<[key := length (rvals w)]> mp) ∧
        rvals w1 !! length (rvals w)
          = Some (mkReactiveVal VNone
                    (match current_ctx w with Some c => [c] | None => [] end)) ∧
        ctxs w1 = ctxs w ∧
        ∀ v, py_is VNone v = false →
          ∃ w2, ReactiveValues_setitem m key v w1 = Some (Ok tt, w2) ∧
                rmaps w2 = rmaps w1 ∧
                length (rvals w2) = length (rvals w1) ∧
                rvals w2 !! length (rvals w) = Some (mkReactiveVal v []) ∧
                ∀ c, current_ctx w = Some c → c < length (ctxs w) →
                     is_invalidated c w2 = true.
Proof.
  intros Hm Hk. unfold ReactiveValues_getitem. rewrite Hm.
  cbn [mbind option_bind]. rewrite Hk.
  unfold ReactiveVal_init.
  set (x := length (rvals w)).
  set (w0 := set_rmaps _ (set_rvals _ w)).
  assert (Hm0 : rmaps w0 !! m = Some (<[key:=x]> mp)).
  { subst w0. cbn. by rewrite list_lookup_alter_eq, Hm. }
  assert (Hx0 : rvals w0 !! x = Some (mkReactiveVal VNone [])).
  { subst w0 x. cbn. apply lookup_snoc_length. }
  rewrite Hm0. cbn [mbind option_bind]. rewrite lookup_insert_eq.
  cbn [mbind option_bind]. unfold ReactiveVal_call.
  destruct (ReactiveVal_get_fresh x VNone w0 Hx0) as (w1 & -> & Hx1 & Hl1 & Hr1 & Hc1).
  cbn [mbind option_bind]. eexists; split; [done|].
  assert (Hm1 : rmaps w1 !! m = Some (<[key:=x]> mp)) by by rewrite Hr1.
  split; [done|]. split; [exact Hx1|]. split; [by rewrite Hc1|].
  intros v Hv. unfold ReactiveValues_setitem. rewrite Hm1.
  cbn [mbind option_bind]. rewrite lookup_insert_eq. unfold ReactiveVal_call.
  destruct (ReactiveVal_set_frame x _ v w1 Hx1 Hv)
    as (w2 & -> & Hx2 & (Hr2 & Hl2 & _) & Hinv).
  cbn [mbind option_bind]. eexists; split; [done|].
  split; [done|]. split; [done|]. split; [exact Hx2|].
  intros c Hc Hlt. apply Hinv; [|by rewrite Hc1].
  change (current_ctx w0) with (current_ctx w). rewrite Hc. set_solver.
Qed.


(** *** What evaluation leaves alone *)

Lemma lookup_fmap_eq {A B : Type} (g : A → B) (l l' : list A) (i : nat) :
  g <$> l = g <$> l' → g <$> l !! i = g <$> l' !! i.
Proof. intros H. by rewrite <- !list_lookup_fmap, H. Qed.

Lemma execs_stable w w' :
  r_stable <$> reactives w' = r_stable <$> reactives w →
  ∀ r, execs r w' = execs r w ∧ err r w' = err r w.
Proof.
  intros H r. apply (lookup_fmap_eq _ _ _ r) in H. unfold execs, err.
  destruct (reactives w' !! r) as [a|], (reactives w !! r) as [b|]; cbn in *; try done.
  unfold r_stable in H. by simplify_eq.
Qed.

Lemma funcs_stable w w' :
  r_stable <$> reactives w' = r_stable <$> reactives w →
  r_func <$> reactives w' = r_func <$> reactives w.
Proof.
  intros H. change r_func with ((λ p, p.1.1.1.1.1) ∘ r_stable).
  by rewrite !list_fmap_compose, H.
Qed.

Lemma entries_app t l1 l2 : entries t (l1 ++ l2) = entries t l1 + entries t l2.
Proof. induction l1 as [|a l1 IH]; cbn; [done|rewrite IH; lia]. Qed.

Lemma run_frame_refl w : run_frame w w.
Proof.
  constructor; try done. exists []. rewrite app_nil_r. repeat split; [constructor|].
  intros r; cbn; lia.
Qed.

Lemma run_frame_trans w1 w2 w3 : run_frame w1 w2 → run_frame w2 w3 → run_frame w1 w3.
Proof.
  intros [(l1 & C1 & F1 & E1) O1 G1] [(l2 & C2 & F2 & E2) O2 G2].
  constructor; try congruence.
  exists (l1 ++ l2). rewrite C2, C1, app_assoc. repeat split.
  - by apply Forall_app.
  - intros r. rewrite E2, E1, entries_app. lia.
Qed.

(** A step that enters no user function and moves no counter. *)
Lemma run_frame_quiet w w' :
  calls w' = calls w → (∀ r, execs r w' = execs r w) →
  o_stable <$> observers w' = o_stable <$> observers w →
  r_func <$> reactives w' = r_func <$> reactives w →
  run_frame w w'.
Proof.
  intros Hc He Ho Hf. constructor; try done.
  exists []. rewrite app_nil_r. repeat split; [done|constructor|].
  intros r. rewrite He. cbn. lia.
Qed.

Lemma inv_frame_run_frame w w' : inv_frame w w' → run_frame w w'.
Proof.
  intros F. apply run_frame_quiet.
  - apply (if_calls _ _ F).
  - intros r. apply execs_stable, (if_reactives _ _ F).
  - apply (if_observers _ _ F).
  - apply funcs_stable, (if_reactives _ _ F).
Qed.

Lemma inv_frame_err_mono w w' : inv_frame w w' → err_mono w w'.
Proof.
  intros F r. destruct (execs_stable _ _ (if_reactives _ _ F) r) as [_ ->]. done.
Qed.

Lemma err_mono_refl w : err_mono w w.
Proof. by intros r. Qed.

Lemma err_mono_trans w1 w2 w3 : err_mono w1 w2 → err_mono w2 w3 → err_mono w1 w3.
Proof. intros H1 H2 r Hr. auto. Qed.

Lemma execs_upd r g r' w :
  (∀ rc, r_exec_count (g rc) = r_exec_count rc) →
  execs r' (upd_reactive r g w) = execs r' w.
Proof.
  intros Hg. unfold execs. cbn. destruct (decide (r = r')) as [->|Hne].
  - rewrite list_lookup_alter_eq. destruct (reactives w !! r'); cbn; [|done]. by rewrite Hg.
  - by rewrite list_lookup_alter_ne.
Qed.

Lemma err_upd r g r' w :
  (∀ rc, r_error (g rc) = r_error rc) →
  err r' (upd_reactive r g w) = err r' w.
Proof.
  intros Hg. unfold err. cbn. destruct (decide (r = r')) as [->|Hne].
  - rewrite list_lookup_alter_eq. destruct (reactives w !! r'); cbn; [|done]. by rewrite Hg.
  - by rewrite list_lookup_alter_ne.
Qed.

Lemma err_upd_ne r g r' w : r' ≠ r → err r' (upd_reactive r g w) = err r' w.
Proof. intros Hne. unfold err. cbn. by rewrite list_lookup_alter_ne. Qed.

Lemma run_frame_upd_reactive r g w :
  (∀ rc, r_exec_count (g rc) = r_exec_count rc) →
  (∀ rc, r_func (g rc) = r_func rc) →
  run_frame w (upd_reactive r g w).
Proof.
  intros He Hf. apply run_frame_quiet; try done.
  - intros r'. by apply execs_upd.
  - cbn. by apply map_alter_stable.
Qed.

Lemma run_frame_set_current_ctx c w : run_frame w (set_current_ctx c w).
Proof. by apply run_frame_quiet. Qed.

Lemma run_frame_set_current_session s w : run_frame w (set_current_session s w).
Proof. by apply run_frame_quiet. Qed.

Lemma run_frame_set_ctxs f w : run_frame w (set_ctxs f w).
Proof. by apply run_frame_quiet. Qed.

Lemma run_frame_set_rvals f w : run_frame w (set_rvals f w).
Proof. by apply run_frame_quiet. Qed.

Lemma run_frame_register d w : run_frame w (Dependents_register d w).
Proof.
  unfold Dependents_register. destruct (current_ctx w); [|apply run_frame_refl].
  case_bool_decide; [apply run_frame_refl|].
  destruct d; [apply run_frame_set_rvals|by apply run_frame_upd_reactive].
Qed.

Lemma err_register d r w : err r (Dependents_register d w) = err r w.
Proof.
  unfold Dependents_register. destruct (current_ctx w); [|done].
  case_bool_decide; [done|]. destruct d; [done|by apply err_upd].
Qed.
(** *** Reading a Reactive *)

Lemma register_lookup d r rc w :
  reactives w !! r = Some rc →
  ∃ rc1, reactives (Dependents_register d w) !! r = Some rc1 ∧
         r_stable rc1 = r_stable rc ∧ r_invalidated rc1 = r_invalidated rc ∧
         r_value rc1 = r_value rc.
Proof.
  intros Hr. unfold Dependents_register. destruct (current_ctx w); [|eauto].
  case_bool_decide; [eauto|]. destruct d as [x|r']; cbn; [eauto|].
  destruct (decide (r' = r)) as [->|Hne].
  - rewrite list_lookup_alter_eq, Hr. cbn. eauto.
  - rewrite list_lookup_alter_ne by done. eauto.
Qed.

Lemma fresh_not_invalidated r g w :
  is_invalidated (length (ctxs w))
    (upd_reactive r g (set_ctxs (λ l, l ++ [mkContext false [] []]) w)) = false.
Proof. unfold is_invalidated. cbn. by rewrite lookup_snoc_length. Qed.

Lemma execs_incr r r' rc w :
  reactives w !! r = Some rc →
  execs r' (upd_reactive r (set_r_invalidated false ∘ incr_r_exec_count) w)
  = execs r' w + (if decide (r' = r) then 1 else 0).
Proof.
  intros Hr. unfold execs. cbn. destruct (decide (r' = r)) as [->|Hne].
  - rewrite list_lookup_alter_eq, Hr. cbn. lia.
  - rewrite list_lookup_alter_ne by done. lia.
Qed.

Lemma err_clear r rc w :
  reactives w !! r = Some rc → err r (upd_reactive r (set_r_error false) w) = false.
Proof. intros Hr. unfold err. cbn. by rewrite list_lookup_alter_eq, Hr. Qed.

(** The per-reactive observations look through every update that does
    not write to the heap of reactives. *)
Lemma execs_set_current_session r s w : execs r (set_current_session s w) = execs r w.
Proof. reflexivity. Qed.
Lemma execs_set_current_ctx r c w : execs r (set_current_ctx c w) = execs r w.
Proof. reflexivity. Qed.
Lemma execs_set_ctxs r f w : execs r (set_ctxs f w) = execs r w.
Proof. reflexivity. Qed.
Lemma execs_upd_ctx r c f w : execs r (upd_ctx c f w) = execs r w.
Proof. reflexivity. Qed.
Lemma execs_log_call r t w : execs r (log_call t w) = execs r w.
Proof. reflexivity. Qed.
Lemma execs_set_rvals r f w : execs r (set_rvals f w) = execs r w.
Proof. reflexivity. Qed.
Lemma execs_upd_rval r x f w : execs r (upd_rval x f w) = execs r w.
Proof. reflexivity. Qed.
Lemma execs_set_pending r f w : execs r (set_pending f w) = execs r w.
Proof. reflexivity. Qed.
Lemma execs_log_fired r l w : execs r (log_fired l w) = execs r w.
Proof. reflexivity. Qed.
Lemma err_set_current_session r s w : err r (set_current_session s w) = err r w.
Proof. reflexivity. Qed.
Lemma err_set_current_ctx r c w : err r (set_current_ctx c w) = err r w.
Proof. reflexivity. Qed.
Lemma err_set_ctxs r f w : err r (set_ctxs f w) = err r w.
Proof. reflexivity. Qed.
Lemma err_upd_ctx r c f w : err r (upd_ctx c f w) = err r w.
Proof. reflexivity. Qed.
Lemma err_log_call r t w : err r (log_call t w) = err r w.
Proof. reflexivity. Qed.
Lemma err_set_rvals r f w : err r (set_rvals f w) = err r w.
Proof. reflexivity. Qed.
Lemma err_upd_rval r x f w : err r (upd_rval x f w) = err r w.
Proof. reflexivity. Qed.
Lemma err_set_pending r f w : err r (set_pending f w) = err r w.
Proof. reflexivity. Qed.
Lemma err_log_fired r l w : err r (log_fired l w) = err r w.
Proof. reflexivity. Qed.
Lemma val_set_current_session r s w : val r (set_current_session s w) = val r w.
Proof. reflexivity. Qed.
Lemma val_set_current_ctx r c w : val r (set_current_ctx c w) = val r w.
Proof. reflexivity. Qed.
Lemma val_set_ctxs r f w : val r (set_ctxs f w) = val r w.
Proof. reflexivity. Qed.
Lemma val_upd_ctx r c f w : val r (upd_ctx c f w) = val r w.
Proof. reflexivity. Qed.
Lemma val_log_call r t w : val r (log_call t w) = val r w.
Proof. reflexivity. Qed.
Lemma val_set_rvals r f w : val r (set_rvals f w) = val r w.
Proof. reflexivity. Qed.
Lemma val_upd_rval r x f w : val r (upd_rval x f w) = val r w.
Proof. reflexivity. Qed.
Lemma val_set_pending r f w : val r (set_pending f w) = val r w.
Proof. reflexivity. Qed.
Lemma val_log_fired r l w : val r (log_fired l w) = val r w.
Proof. reflexivity. Qed.

Create Rewrite HintDb skip.
#[local] Hint Rewrite
  execs_set_current_session execs_set_current_ctx execs_set_ctxs
  execs_upd_ctx execs_log_call execs_set_rvals execs_upd_rval
  execs_set_pending execs_log_fired err_set_current_session
  err_set_current_ctx err_set_ctxs err_upd_ctx err_log_call err_set_rvals
  err_upd_rval err_set_pending err_log_fired val_set_current_session
  val_set_current_ctx val_set_ctxs val_upd_ctx val_log_call val_set_rvals
  val_upd_rval val_set_pending val_log_fired
  : skip.

Lemma val_upd_ne r g r' w : r' ≠ r → val r' (upd_reactive r g w) = val r' w.
Proof. intros Hne. unfold val. cbn. by rewrite list_lookup_alter_ne. Qed.

Lemma lookup_upd_reactive r g w rc :
  reactives w !! r = Some rc → reactives (upd_reactive r g w) !! r = Some (g rc).
Proof. intros Hr. cbn. by rewrite list_lookup_alter_eq, Hr. Qed.

Lemma returned_exit r w res wpost :
  returned r res wpost (Reactive_update_exit r w res wpost).2.
Proof.
  unfold Reactive_update_exit, Reactive_store, set_running.
  destruct res as [v|e]; [|destruct (is_Exception e) eqn:He]; cbn [snd];
    constructor; try done.
  - intros r'. rewrite execs_upd by done. autorewrite with skip. by rewrite execs_upd.
  - intros r' Hne. rewrite err_upd by done. autorewrite with skip. by rewrite err_upd_ne.
  - cbn. by rewrite !map_alter_stable.
  - intros [rp Hp]. unfold err, val. cbn. by rewrite !list_lookup_alter_eq, Hp.
  - intros r'. rewrite execs_upd by done. autorewrite with skip. by rewrite execs_upd.
  - intros r' Hne. rewrite err_upd by done. autorewrite with skip. by rewrite err_upd_ne.
  - cbn. by rewrite !map_alter_stable.
  - intros [rp Hp]. rewrite He. unfold err, val. cbn.
    by rewrite !list_lookup_alter_eq, Hp.
  - intros r'. by rewrite execs_upd.
  - intros r' Hne. by rewrite err_upd.
  - cbn. by rewrite !map_alter_stable.
  - intros [rp Hp]. rewrite He. unfold err, val. cbn.
    by rewrite !list_lookup_alter_eq, Hp.
Qed.

(** [update_value] is the run of the user function in the entry state,
    followed by the exit. *)
Lemma Reactive_update_value_eq run r rc w :
  reactives w !! r = Some rc →
  Reactive_update_value run r w
  = '(res, wpost) ← run (r_func rc) (Reactive_update_entry r w);
    Some (Reactive_update_exit r w res wpost).
Proof.
  intros Hr.
  unfold Reactive_update_value, Reactive_update_entry, Reactive_update_exit,
    Reactive_prepared, Context_new, Context_on_invalidate.
  rewrite fresh_not_invalidated. cbn [mbind option_bind default from_option id].
  set (c := length (ctxs w)).
  set (w2 := upd_reactive r _ (set_ctxs _ w)).
  set (w3 := upd_ctx c _ w2).
  set (w4 := upd_reactive r (set_r_invalidated false ∘ incr_r_exec_count) w3).
  assert (H3 : reactives w3 !! r
               = Some ((set_r_most_recent_ctx_id (Z.of_nat c) ∘ set_r_ctx (Some c)) rc)).
  { subst w3 w2. by apply (lookup_upd_reactive r _ (set_ctxs _ w)). }
  assert (H4 : reactives w4 !! r
               = Some ((set_r_invalidated false ∘ incr_r_exec_count)
                         ((set_r_most_recent_ctx_id (Z.of_nat c) ∘ set_r_ctx (Some c)) rc))).
  { subst w4. by apply lookup_upd_reactive. }
  rewrite H4. cbn [mbind option_bind].
  pose proof (lookup_upd_reactive r (set_r_running true) w4 _ H4) as H5.
  change (upd_reactive r (set_r_running true) w4) with (set_running r true w4) in H5.
  rewrite H5. cbn [mbind option_bind].
  unfold session_context, Context_run, Reactive_run_func.
  match goal with
  | |- context [reactives (upd_reactive r (set_r_error false) ?wa) !! r] =>
      rewrite (lookup_upd_reactive r (set_r_error false) wa _ H5)
  end.
  cbn [mbind option_bind]. rewrite Hr.
  change (r_func _) with (r_func rc) at 1.
  destruct (run (r_func rc) _) as [[res wpost]|]; [|done].
  cbn [mbind option_bind]. by destruct (Reactive_store r res wpost).
Qed.

Lemma entered_update_entry r rc w :
  reactives w !! r = Some rc → entered r w (Reactive_update_entry r w).
Proof.
  intros Hr.
  unfold Reactive_update_entry, Reactive_prepared, Context_new, Context_on_invalidate.
  rewrite fresh_not_invalidated. cbn [default from_option id].
  set (c := length (ctxs w)).
  set (w2 := upd_reactive r _ (set_ctxs _ w)).
  set (w3 := upd_ctx c _ w2).
  set (w4 := upd_reactive r (set_r_invalidated false ∘ incr_r_exec_count) w3).
  assert (H3 : reactives w3 !! r
               = Some ((set_r_most_recent_ctx_id (Z.of_nat c) ∘ set_r_ctx (Some c)) rc)).
  { subst w3 w2. by apply (lookup_upd_reactive r _ (set_ctxs _ w)). }
  assert (H4 : reactives w4 !! r
               = Some ((set_r_invalidated false ∘ incr_r_exec_count)
                         ((set_r_most_recent_ctx_id (Z.of_nat c) ∘ set_r_ctx (Some c)) rc))).
  { subst w4. by apply lookup_upd_reactive. }
  pose proof (lookup_upd_reactive r (set_r_running true) w4 _ H4) as H5.
  constructor.
  - done.
  - intros r'. rewrite execs_log_call, execs_upd by done. autorewrite with skip.
    unfold set_running. rewrite execs_upd by done.
    subst w4. rewrite (execs_incr _ _ _ _ H3). subst w3 w2.
    autorewrite with skip. rewrite execs_upd by done. by autorewrite with skip.
  - rewrite err_log_call. eapply err_clear.
    rewrite <- H5. reflexivity.
  - intros r' Hne. rewrite err_log_call. rewrite err_upd_ne by done.
    autorewrite with skip. unfold set_running. rewrite err_upd_ne by done.
    subst w4. rewrite err_upd_ne by done. subst w3 w2. autorewrite with skip.
    by rewrite err_upd_ne.
  - done.
  - cbn. rewrite !map_alter_stable by done. done.
Qed.

Lemma err_lookup r rc w : reactives w !! r = Some rc → err r w = r_error rc.
Proof. intros H. unfold err. by rewrite H. Qed.

Lemma val_lookup r rc w : reactives w !! r = Some rc → val r w = r_value rc.
Proof. intros H. unfold val. by rewrite H. Qed.



Lemma observers_register d w : observers (Dependents_register d w) = observers w.
Proof.
  unfold Dependents_register. destruct (current_ctx w); [|done].
  case_bool_decide; [done|]. by destruct d.
Qed.

Lemma calls_register d w : calls (Dependents_register d w) = calls w.
Proof.
  unfold Dependents_register. destruct (current_ctx w); [|done].
  case_bool_decide; [done|]. by destruct d.
Qed.

Lemma execs_register d r w : execs r (Dependents_register d w) = execs r w.
Proof.
  destruct (run_frame_register d w) as [(l & Hc & _ & He) _ _].
  rewrite calls_register in Hc.
  assert (l = []) as -> by (apply (app_inv_head (calls w)); by rewrite app_nil_r).
  rewrite He. cbn. lia.
Qed.

(** The cached branch of [get_value]: nothing but the registration. *)
Lemma Reactive_get_value_cached run r rc w :
  reactives w !! r = Some rc → stale rc = false →
  Reactive_get_value run r w
  = Some (reported r w, Dependents_register (DepReactive r) w).
Proof.
  intros Hr Hs. unfold Reactive_get_value.
  destruct (register_lookup (DepReactive r) r rc w Hr) as (rc1 & Hr1 & Hst & Hi & Hv).
  rewrite Hr1. cbn [mbind option_bind].
  assert (r_running rc1 = r_running rc) as Hrun by (unfold r_stable in Hst; congruence).
  assert (r_error rc1 = r_error rc) as He by (unfold r_stable in Hst; congruence).
  unfold stale in Hs. rewrite Hi, Hrun, Hs. cbn [mbind option_bind]. rewrite Hr1.
  cbn [mbind option_bind]. unfold reported.
  by rewrite (err_lookup _ _ _ Hr), (val_lookup _ _ _ Hr), He, Hv.
Qed.

Lemma entered_register d r w wpre :
  entered r (Dependents_register d w) wpre → entered r w wpre.
Proof.
  intros []. constructor.
  - by rewrite <- (calls_register d w).
  - intros r'. by rewrite <- (execs_register d r' w).
  - done.
  - intros r' Hne. rewrite <- (err_register d r' w). auto.
  - by rewrite <- (observers_register d w).
  - rewrite en_funcs0. apply (rf_funcs _ _ (run_frame_register d w)).
Qed.

Lemma lookup_of_funcs r w w' :
  r_func <$> reactives w' = r_func <$> reactives w →
  is_Some (reactives w !! r) → is_Some (reactives w' !! r).
Proof.
  intros H [rc Hr]. apply (lookup_fmap_eq _ _ _ r) in H. rewrite Hr in H.
  destruct (reactives w' !! r); [eauto|done].
Qed.

Lemma entered_entry r rc w :
  reactives w !! r = Some rc → entered r w (Reactive_entry r w).
Proof.
  intros Hr.
  destruct (register_lookup (DepReactive r) r rc w Hr) as (rc1 & Hr1 & _).
  eapply entered_register, entered_update_entry, Hr1.
Qed.

(** The recomputing branch of [get_value]: it is the run of the user
    function in the entry state, and what [get_value] returns or raises
    is what that run returned or raised. *)
Lemma Reactive_get_value_stale_eq run r rc w :
  run_spec run → reactives w !! r = Some rc → stale rc = true →
  Reactive_get_value run r w
  = '(res, wpost) ← run (r_func rc) (Reactive_entry r w);
    Some (res, (Reactive_update_exit r (Dependents_register (DepReactive r) w)
                  res wpost).2).
Proof.
  intros Hrun Hr Hs. unfold Reactive_get_value.
  destruct (register_lookup (DepReactive r) r rc w Hr) as (rc1 & Hr1 & Hst & Hi & Hv).
  rewrite Hr1. cbn [mbind option_bind].
  assert (r_running rc1 = r_running rc) as Hrn by (unfold r_stable in Hst; congruence).
  assert (r_func rc1 = r_func rc) as Hf by (unfold r_stable in Hst; congruence).
  unfold stale in Hs. rewrite Hi, Hrn, Hs.
  rewrite (Reactive_update_value_eq run r rc1 _ Hr1), Hf.
  unfold Reactive_entry.
  set (w1 := Dependents_register (DepReactive r) w) in *.
  destruct (run (r_func rc) (Reactive_update_entry r w1)) as [[res wpost]|] eqn:E;
    [|done].
  cbn [mbind option_bind].
  pose proof (returned_exit r w1 res wpost) as Hret.
  pose proof (entered_update_entry r rc1 w1 Hr1) as Hen.
  destruct (Hrun _ _ _ _ E) as [Frun Hmono].
  assert (Hal : is_Some (reactives wpost !! r)).
  { apply (lookup_of_funcs r (Reactive_update_entry r w1));
      [apply (rf_funcs _ _ Frun)|].
    apply (lookup_of_funcs r w1); [apply (en_funcs _ _ _ Hen)|eauto]. }
  pose proof (lf_result _ _ _ _ Hret Hal) as Hres.
  assert (Hal' : is_Some (reactives (Reactive_update_exit r w1 res wpost).2 !! r)).
  { apply (lookup_of_funcs r wpost); [apply (lf_funcs _ _ _ _ Hret)|done]. }
  destruct Hal' as [rc2 Hr2].
  rewrite (err_lookup _ _ _ Hr2), (val_lookup _ _ _ Hr2) in Hres.
  destruct (Reactive_update_exit r w1 res wpost) as [out w2] eqn:Ex.
  cbn [snd] in *.
  assert (Hout : out = match res with
                       | Ok _ => Ok tt
                       | Exc e => if is_Exception e then Ok tt else Exc e
                       end).
  { unfold Reactive_update_exit, Reactive_store in Ex.
    destruct res as [v|e]; [|destruct (is_Exception e)]; by simplify_eq. }
  destruct res as [v|e].
  - subst out. rewrite Hr2. cbn [mbind option_bind].
    destruct Hres as [He ->].
    by rewrite He, (Hmono I r (en_err _ _ _ Hen)).
  - destruct (is_Exception e) eqn:Hex; subst out.
    + rewrite Hr2. cbn [mbind option_bind]. by destruct Hres as [-> ->].
    + done.
Qed.

(** Read backwards: a read of a stale reactive that returned has run
    the function from the entry state. *)
Lemma Reactive_get_value_stale run r rc w res w' :
  run_spec run → reactives w !! r = Some rc → stale rc = true →
  Reactive_get_value run r w = Some (res, w') →
  ∃ wpost,
    run (r_func rc) (Reactive_entry r w) = Some (res, wpost) ∧
    entered r w (Reactive_entry r w) ∧ returned r res wpost w'.
Proof.
  intros Hrun Hr Hs H. rewrite (Reactive_get_value_stale_eq run r rc w Hrun Hr Hs) in H.
  destruct (run _ _) as [[res1 wpost]|] eqn:E; [|done].
  cbn [mbind option_bind] in H. injection H as <- <-.
  exists wpost. split; [done|]. split; [by eapply entered_entry|].
  apply returned_exit.
Qed.


Lemma entries_single r r' :
  entries (OfReactive r') [OfReactive r] = if decide (r' = r) then 1 else 0.
Proof.
  cbn. destruct (decide (r' = r)) as [->|Hne].
  - by rewrite bool_decide_eq_true_2.
  - rewrite bool_decide_eq_false_2; [done|]. intros [=]. by apply Hne.
Qed.

Lemma entered_run_frame r w wpre :
  entered r w wpre → run_frame w wpre ∧ err_mono w wpre.
Proof.
  intros []. split.
  - constructor; [|by rewrite en_observers0|done].
    exists [OfReactive r]. split; [done|]. split; [by repeat constructor|].
    intros r'. by rewrite entries_single.
  - intros r' Hr'. destruct (decide (r' = r)) as [->|Hne]; [done|].
    by rewrite en_err_ne0.
Qed.

Lemma returned_run_frame r res wpost w' :
  returned r res wpost w' → run_frame wpost w'.
Proof.
  intros []. apply run_frame_quiet; try done. by rewrite lf_observers0.
Qed.

Lemma returned_err_mono r res wpost w' :
  returned r res wpost w' → unstored res → is_Some (reactives wpost !! r) →
  err_mono wpost w'.
Proof.
  intros [] Hu Hal r' Hr'. destruct (decide (r' = r)) as [->|Hne].
  - pose proof (lf_result0 Hal) as Hres. destruct res as [v|e]; cbn in Hu.
    + destruct Hres as [-> _]. done.
    + rewrite Hu in Hres. destruct Hres as [-> _]. done.
  - by rewrite lf_err_ne0.
Qed.

Lemma register_lookup_None d r w :
  reactives w !! r = None → reactives (Dependents_register d w) !! r = None.
Proof.
  intros Hr. unfold Dependents_register. destruct (current_ctx w); [|done].
  case_bool_decide; [done|]. destruct d as [x|r']; [done|]. cbn.
  destruct (decide (r' = r)) as [->|Hne].
  - by rewrite list_lookup_alter_eq, Hr.
  - by rewrite list_lookup_alter_ne.
Qed.

Lemma Reactive_get_value_spec run r w res w' :
  run_spec run → Reactive_get_value run r w = Some (res, w') →
  run_frame w w' ∧ (unstored res → err_mono w w').
Proof.
  intros Hrun H. destruct (reactives w !! r) as [rc|] eqn:Hr.
  2:{ unfold Reactive_get_value in H.
      by rewrite (register_lookup_None _ _ _ Hr) in H. }
  destruct (stale rc) eqn:Hs.
  - destruct (Reactive_get_value_stale run r rc w res w' Hrun Hr Hs H)
      as (wpost & E & Hen & Hret).
    destruct (entered_run_frame _ _ _ Hen) as [F1 M1].
    destruct (Hrun _ _ _ _ E) as [F2 M2].
    pose proof (returned_run_frame _ _ _ _ Hret) as F3.
    split; [eauto using run_frame_trans|].
    intros Hok.
    assert (Hal : is_Some (reactives wpost !! r)).
    { apply (lookup_of_funcs r (Reactive_entry r w)); [apply (rf_funcs _ _ F2)|].
      apply (lookup_of_funcs r w); [apply (rf_funcs _ _ F1)|eauto]. }
    eapply err_mono_trans; [exact M1|]. eapply err_mono_trans; [exact (M2 Hok)|].
    by eapply returned_err_mono.
  - rewrite (Reactive_get_value_cached run r rc w Hr Hs) in H. injection H as <- <-.
    split; [apply run_frame_register|]. intros _ r' Hr'. by rewrite err_register.
Qed.

(** [set] enters no user function. *)
Lemma ReactiveVal_set_inv_frame x v w b w' :
  ReactiveVal_set x v w = Some (b, w') →
  ∃ w1 w2, calls w1 = calls w ∧ reactives w1 = reactives w ∧
           observers w1 = observers w ∧ inv_frame w1 w2 ∧
           calls w' = calls w2 ∧ reactives w' = reactives w2 ∧
           observers w' = observers w2.
Proof.
  unfold ReactiveVal_set. intros H.
  destruct (rvals w !! x) as [rv|]; [|done]. cbn [mbind option_bind] in H.
  destruct (py_is (rv_value rv) v).
  - injection H as <- <-. exists w, w. eauto 10 using inv_frame_refl.
  - unfold Dependents_invalidate in H.
    match type of H with
    | context [foldM Context_invalidate ?ds ?wa] =>
        destruct (notify_all ds wa) as (wb & Eb & Fb & _); exists wa, wb
    end.
    rewrite Eb in H. cbn in H. injection H as <- <-. eauto 10.
Qed.

Lemma ReactiveVal_set_spec x v w b w' :
  ReactiveVal_set x v w = Some (b, w') → run_frame w w' ∧ err_mono w w'.
Proof.
  intros H. destruct (ReactiveVal_set_inv_frame _ _ _ _ _ H)
    as (w1 & w2 & C1 & R1 & O1 & F & C2 & R2 & O2).
  pose proof (inv_frame_run_frame _ _ F) as [(l & Hc & Hl & He) Ho Hf].
  pose proof (inv_frame_err_mono _ _ F) as M.
  split.
  - constructor.
    + exists l. rewrite C2, Hc, C1. split; [done|]. split; [done|].
      intros r. unfold execs in *. rewrite R2, <- R1. apply He.
    + by rewrite O2, Ho, O1.
    + by rewrite R2, Hf, R1.
  - intros r. unfold err in *. rewrite R2, <- R1. apply M.
Qed.

Lemma ReactiveVal_get_spec x w v w' :
  ReactiveVal_get x w = Some (v, w') → run_frame w w' ∧ err_mono w w'.
Proof.
  unfold ReactiveVal_get. intros H.
  destruct (rvals _ !! x) as [rv|]; [|done]. cbn in H. injection H as <- <-.
  split; [apply run_frame_register|]. intros r Hr. by rewrite err_register.
Qed.

(** Evaluating a user function enters functions of reactives only. *)
Lemma exec_spec fuel : run_spec (exec fuel).
Proof.
  induction fuel as [|f IH]; intros c w res w' H; [done|].
  destruct c as [v|e|x k|x v k|rr k]; cbn [exec] in H.
  - injection H as <- <-. split; [apply run_frame_refl|]. intros _. apply err_mono_refl.
  - injection H as <- <-. split; [apply run_frame_refl|]. intros _. apply err_mono_refl.
  - destruct (ReactiveVal_get x w) as [[v w1]|] eqn:E; [|done].
    cbn [mbind option_bind] in H.
    destruct (ReactiveVal_get_spec _ _ _ _ E) as [F1 M1].
    destruct (IH _ _ _ _ H) as [F2 M2].
    split; [eauto using run_frame_trans|]. intros Hok.
    eauto using err_mono_trans.
  - destruct (ReactiveVal_set x v w) as [[b w1]|] eqn:E; [|done].
    cbn [mbind option_bind] in H.
    destruct (ReactiveVal_set_spec _ _ _ _ _ E) as [F1 M1].
    destruct (IH _ _ _ _ H) as [F2 M2].
    split; [eauto using run_frame_trans|]. intros Hok.
    eauto using err_mono_trans.
  - destruct (Reactive_get_value (exec f) rr w) as [[res1 w1]|] eqn:E; [|done].
    cbn [mbind option_bind] in H.
    destruct (Reactive_get_value_spec _ _ _ _ _ IH E) as [F1 M1].
    destruct res1 as [v|e].
    + destruct (IH _ _ _ _ H) as [F2 M2].
      split; [eauto using run_frame_trans|]. intros Hok.
      eapply err_mono_trans; [exact (M1 I)|exact (M2 Hok)].
    + injection H as <- <-. split; [done|]. exact M1.
Qed.





(** *** The running flag *)













(** *** Reactive *)








(** C7: a coroutine function given to [Reactive] or [Observer], and a
    plain function given to [ReactiveAsync] or [ObserverAsync], is
    refused with a [TypeError], and the state is the one before the
    call: no object was allocated and no attribute initialised. *)
Theorem constructors_check_function_kind (f : func) (w : world) :
  (is_coroutine f = true →
   Reactive_init f w = (Exc (TypeError "Reactive requires a non-async function"), w) ∧
   Observer_init f w
   = Some (Exc (TypeError "Observer requires a non-async function"), w)) ∧
  (is_coroutine f = false →
   ReactiveAsync_init f w
   = (Exc (TypeError "ReactiveAsync requires an async function"), w) ∧
   ObserverAsync_init f w
   = Some (Exc (TypeError "ObserverAsync requires an async function"), w)).
Proof.
  unfold Reactive_init, Observer_init, ReactiveAsync_init, ObserverAsync_init.
  split; intros ->; done.
Qed.

(** *** Observers are entered by [flush] only *)

Lemma entries_reactive_calls o l :
  Forall is_reactive_call l → entries (OfObserver o) l = 0.
Proof.
  induction 1 as [|t l Ht _ IH]; [done|]. cbn. rewrite IH.
  destruct t; [|done]. by rewrite bool_decide_eq_false_2.
Qed.

Lemma o_execs_lookup o ob w : observers w !! o = Some ob → o_execs o w = o_exec_count ob.
Proof. intros H. unfold o_execs. by rewrite H. Qed.

Lemma destroyed_lookup o ob w : observers w !! o = Some ob → destroyed o w = o_destroyed ob.
Proof. intros H. unfold destroyed. by rewrite H. Qed.

(** A stretch that enters functions of reactives only and keeps, for
    each observer, the counter and a raised destroyed flag. *)
Lemma obs_frame_intro q w w' l :
  calls w' = calls w ++ l → Forall is_reactive_call l →
  (∀ o ob, observers w !! o = Some ob →
     ∃ ob', observers w' !! o = Some ob' ∧ o_exec_count ob' = o_exec_count ob ∧
            (o_destroyed ob = true → o_destroyed ob' = true)) →
  obs_frame q w w'.
Proof.
  intros Hc Hl Ho. constructor.
  - destruct (decide (length (observers w) ≤ length (observers w'))) as [|Hn]; [done|].
    destruct (lookup_lt_is_Some_2 (observers w) (length (observers w'))) as [ob Hob]; [lia|].
    destruct (Ho _ _ Hob) as (ob' & Hob' & _). apply lookup_lt_Some in Hob'. lia.
  - exists l. split; [done|]. split; [done|]. intros o Hlt.
    destruct (lookup_lt_is_Some_2 _ _ Hlt) as [ob Hob].
    destruct (Ho _ _ Hob) as (ob' & Hob' & He & Hd).
    rewrite (o_execs_lookup _ _ _ Hob), (o_execs_lookup _ _ _ Hob'),
      (destroyed_lookup _ _ _ Hob), (destroyed_lookup _ _ _ Hob'),
      (entries_reactive_calls _ _ Hl).
    split; [lia|]. auto.
Qed.

Lemma obs_frame_refl q w : obs_frame q w w.
Proof.
  apply (obs_frame_intro q w w []); [by rewrite app_nil_r|done|]. eauto.
Qed.

Lemma obs_frame_trans q w1 w2 w3 :
  obs_frame q w1 w2 → obs_frame q w2 w3 → obs_frame q w1 w3.
Proof.
  intros [L1 (l1 & C1 & Q1 & H1)] [L2 (l2 & C2 & Q2 & H2)]. constructor; [lia|].
  exists (l1 ++ l2). rewrite C2, C1, app_assoc. split; [done|]. split.
  - intros Hq. apply Forall_app. auto.
  - intros o Hlt. destruct (H1 o Hlt) as [E1 D1].
    destruct (H2 o ltac:(lia)) as [E2 D2]. rewrite entries_app. split; [lia|].
    intros Hd. destruct (D1 Hd) as [Hd2 Z1]. destruct (D2 Hd2) as [Hd3 Z2].
    split; [done|lia].
Qed.

Lemma obs_frame_weaken q w w' : obs_frame true w w' → obs_frame q w w'.
Proof.
  intros [L (l & C & Q & H)]. constructor; [done|]. exists l.
  split; [done|]. split; [auto|done].
Qed.

Lemma obs_frame_stable q w w' l :
  calls w' = calls w ++ l → Forall is_reactive_call l →
  o_stable <$> observers w' = o_stable <$> observers w → obs_frame q w w'.
Proof.
  intros Hc Hl Ho. apply (obs_frame_intro q w w' l Hc Hl). intros o ob Hob.
  apply (lookup_fmap_eq _ _ _ o) in Ho. rewrite Hob in Ho.
  destruct (observers w' !! o) as [ob'|]; [|done]. cbn in Ho.
  exists ob'. unfold o_stable in Ho. split; [done|]. split; [congruence|].
  intros Hd. congruence.
Qed.

Lemma run_frame_obs_frame q w w' : run_frame w w' → obs_frame q w w'.
Proof. intros [(l & Hc & Hl & _) Ho _]. by eapply obs_frame_stable. Qed.

Lemma inv_frame_obs_frame q w w' : inv_frame w w' → obs_frame q w w'.
Proof. intros F. by apply run_frame_obs_frame, inv_frame_run_frame. Qed.

(** A step that leaves the log and the heap of observers alone. *)
Lemma obs_frame_same q w w' :
  calls w' = calls w → observers w' = observers w → obs_frame q w w'.
Proof.
  intros Hc Ho. apply (obs_frame_stable q w w' []); [by rewrite app_nil_r|done|].
  by rewrite Ho.
Qed.

Lemma obs_frame_new_observer q ob w :
  obs_frame q w (set_observers (λ l, l ++ [ob]) w).
Proof.
  apply (obs_frame_intro q _ _ []); [by rewrite app_nil_r|done|].
  intros o ob0 Hob. exists ob0. cbn. rewrite lookup_app_l; [done|].
  by eapply lookup_lt_Some.
Qed.

Lemma obs_frame_upd_observer q o g w :
  (∀ ob, o_exec_count (g ob) = o_exec_count ob) →
  (∀ ob, o_destroyed ob = true → o_destroyed (g ob) = true) →
  obs_frame q w (upd_observer o g w).
Proof.
  intros He Hd. apply (obs_frame_intro q _ _ []); [by rewrite app_nil_r|done|].
  intros o' ob Hob. cbn. destruct (decide (o = o')) as [->|Hne].
  - rewrite list_lookup_alter_eq, Hob. cbn. eauto.
  - rewrite list_lookup_alter_ne by done. eauto.
Qed.

Lemma alter_snoc {A : Type} (f : A → A) (l : list A) (a : A) :
  alter f (length l) (l ++ [a]) = l ++ [f a].
Proof. induction l as [|b l IH]; cbn; [done|]. by rewrite IH. Qed.

(** The context an observer creates for itself: fresh, with the
    observer's two closures registered, and stored in the observer. *)
Lemma Observer_create_context_eq o w :
  Observer_create_context o w
  = Some (length (ctxs w),
          upd_observer o (set_o_ctx (Some (length (ctxs w))))
            (set_ctxs (λ l, l ++ [mkContext false
                                    [ObserverOnInvalidate o (length (ctxs w))]
                                    [ObserverOnFlush o]]) w)).
Proof.
  unfold Observer_create_context, Context_new, Context_on_invalidate.
  assert (is_invalidated (length (ctxs w))
            (upd_observer o (set_o_ctx (Some (length (ctxs w))))
               (set_ctxs (λ l, l ++ [mkContext false [] []]) w)) = false) as ->.
  { unfold is_invalidated. cbn. by rewrite lookup_snoc_length. }
  cbn [mbind option_bind]. do 2 f_equal.
  unfold Context_on_flush, upd_ctx, upd_observer, set_ctxs, set_observers. cbn.
  by rewrite !alter_snoc.
Qed.

(** Invalidating the context an observer has just created runs the
    observer's closure: the context is dropped and queued. *)
Lemma invalidate_created o w0 cs :
  let c := length cs in
  ctxs w0 = cs ++ [mkContext false [ObserverOnInvalidate o c] [ObserverOnFlush o]] →
  Context_invalidate c w0
  = Some (Observer_on_invalidate_cb o c
            (upd_ctx c (λ cx, mkContext true [] (c_flush_callbacks cx)) w0)).
Proof.
  intros c Hc. subst c. unfold Context_invalidate. cbn [Context_invalidate_fuel].
  rewrite Hc, lookup_snoc_length. cbn [c_invalidated c_invalidate_callbacks].
  rewrite <- Hc. reflexivity.
Qed.

Lemma Observer_init_eq f w :
  is_coroutine f = false →
  let o := length (observers w) in
  let c := length (ctxs w) in
  ∃ w', Observer_init f w = Some (Ok o, w') ∧
        obs_frame true w w' ∧ calls w' = calls w ∧
        observers w' !! o
          = Some (mkObserver (body f) false [] false None 0 (current_session w)) ∧
        is_invalidated c w' = true ∧ c ∈ pending w' ∧
        ctxs w' !! c = Some (mkContext true [] [ObserverOnFlush o]).
Proof.
  intros Hf o c. subst c. unfold Observer_init. rewrite Hf. cbv zeta. unfold wrap_async.
  fold o. set (ob := mkObserver _ _ _ _ _ _ _).
  set (w1 := set_observers (λ l, l ++ [ob]) w).
  set (w2 := match current_session w with
             | Some s => add_on_ended s (ObserverOnSessionEnded o) w1
             | None => w1
             end).
  assert (H2 : observers w2 = observers w ++ [ob] ∧ ctxs w2 = ctxs w ∧
               calls w2 = calls w ∧ pending w2 = pending w).
  { subst w2 w1. by destruct (current_session w). }
  destruct H2 as (Ho2 & Hc2 & Hl2 & Hp2).
  fold o. rewrite Observer_create_context_eq. cbn [mbind option_bind].
  rewrite Hc2.
  set (w3 := upd_observer o _ (set_ctxs _ w2)).
  rewrite (invalidate_created o w3 (ctxs w)); [|subst w3; cbn; by rewrite Hc2].
  cbn [mbind option_bind]. eexists; split; [done|].
  assert (Ho3 : observers w3 !! o = Some (set_o_ctx (Some (length (ctxs w))) ob)).
  { subst w3. cbn. rewrite Ho2. subst o. by rewrite alter_snoc, lookup_snoc_length. }
  split; [|split; [|split; [|split; [|split]]]].
  2:{ unfold Observer_on_invalidate_cb, add_pending_flush.
      case_bool_decide; cbn; by rewrite Hl2. }
  - apply (obs_frame_intro true _ _ []); [|done|].
    { unfold Observer_on_invalidate_cb, add_pending_flush.
      case_bool_decide; cbn; by rewrite Hl2, app_nil_r. }
    intros o' ob' Hob'. exists ob'.
    assert (Hlt : o' < o) by by eapply lookup_lt_Some.
    split; [|done].
    unfold Observer_on_invalidate_cb, add_pending_flush.
    case_bool_decide; cbn; rewrite Ho2;
      rewrite !list_lookup_alter_ne by lia; by rewrite lookup_app_l.
  - unfold Observer_on_invalidate_cb, add_pending_flush.
    case_bool_decide; cbn; rewrite Ho2; subst o;
      by rewrite !alter_snoc, lookup_snoc_length.
  - unfold Observer_on_invalidate_cb, add_pending_flush, is_invalidated.
    case_bool_decide; cbn; rewrite Hc2;
      by rewrite alter_snoc, lookup_snoc_length.
  - unfold Observer_on_invalidate_cb, add_pending_flush.
    case_bool_decide as Hin; [exact Hin|]. cbn. set_solver.
  - unfold Observer_on_invalidate_cb, add_pending_flush.
    case_bool_decide; cbn; rewrite Hc2;
      by rewrite alter_snoc, lookup_snoc_length.
Qed.

Lemma lookup_upd_observer o g w ob :
  observers w !! o = Some ob → observers (upd_observer o g w) !! o = Some (g ob).
Proof. intros Ho. cbn. by rewrite list_lookup_alter_eq, Ho. Qed.

(** [destroy] always returns, with the flag set and the current context
    of the observer, if it had one, invalidated. *)
Lemma Observer_destroy_total o ob w :
  observers w !! o = Some ob →
  ∃ w', Observer_destroy o w = Some w' ∧ obs_frame true w w' ∧
        destroyed o w' = true ∧
        ∀ c, o_ctx ob = Some c → c < length (ctxs w) → is_invalidated c w' = true.
Proof.
  intros Ho. unfold Observer_destroy.
  set (w1 := upd_observer o (set_o_destroyed true) w).
  pose proof (lookup_upd_observer o (set_o_destroyed true) w ob Ho) as Ho1. fold w1 in Ho1.
  rewrite Ho1. cbn [mbind option_bind o_ctx set_o_destroyed].
  assert (F1 : obs_frame true w w1) by by apply obs_frame_upd_observer.
  assert (D1 : destroyed o w1 = true) by by rewrite (destroyed_lookup _ _ _ Ho1).
  destruct (o_ctx ob) as [c|].
  - destruct (Context_invalidate_total c w1) as (w' & E & F). rewrite E.
    exists w'. split; [done|]. split; [|split].
    + eapply obs_frame_trans; [exact F1|]. by apply inv_frame_obs_frame.
    + destruct (obs_frame_trans _ _ _ _ (obs_frame_refl true w1)
                  (inv_frame_obs_frame true _ _ F)) as [_ (l & _ & _ & H)].
      destruct (H o) as [_ Hd]; [by eapply lookup_lt_Some|]. by destruct (Hd D1).
    + intros c' [= <-] Hlt. by eapply Context_invalidate_marks.
  - exists w1. split; [done|]. split; [done|]. split; [done|]. done.
Qed.

Lemma Observer_destroy_quiet o w w' :
  Observer_destroy o w = Some w' → obs_frame true w w'.
Proof.
  intros H. destruct (observers w !! o) as [ob|] eqn:Ho.
  - destruct (Observer_destroy_total o ob w Ho) as (w2 & E & F & _). congruence.
  - unfold Observer_destroy in H. cbn in H.
    by rewrite list_lookup_alter_eq, Ho in H.
Qed.

Lemma foldM_obs_frame {A : Type} q (stp : A → world → option world) :
  (∀ a w w', stp a w = Some w' → obs_frame q w w') →
  ∀ l w w', foldM stp l w = Some w' → obs_frame q w w'.
Proof.
  intros Hs l. induction l as [|a l IH]; intros w w' H; cbn in H.
  - injection H as <-. apply obs_frame_refl.
  - destruct (stp a w) as [w1|] eqn:E; [|done]. cbn in H.
    eapply obs_frame_trans; eauto.
Qed.

Lemma session_ended_quiet s w w' :
  session_ended s w = Some w' → obs_frame true w w'.
Proof.
  apply foldM_obs_frame. intros [o] w1 w2. apply Observer_destroy_quiet.
Qed.

Lemma ReactiveVal_call_quiet x args w res w' :
  ReactiveVal_call x args w = Some (res, w') → obs_frame true w w'.
Proof.
  unfold ReactiveVal_call. intros H. destruct args as [|a [|b args]].
  - destruct (ReactiveVal_get x w) as [[v w1]|] eqn:E; [|done]. cbn in H.
    injection H as <- <-. by apply run_frame_obs_frame, (ReactiveVal_get_spec _ _ _ _ E).
  - destruct (ReactiveVal_set x a w) as [[b w1]|] eqn:E; [|done]. cbn in H.
    injection H as <- <-. by apply run_frame_obs_frame, (ReactiveVal_set_spec _ _ _ _ _ E).
  - injection H as <- <-. apply obs_frame_refl.
Qed.

Lemma ReactiveValues_getitem_quiet m key w res w' :
  ReactiveValues_getitem m key w = Some (res, w') → obs_frame true w w'.
Proof.
  unfold ReactiveValues_getitem. intros H.
  destruct (rmaps w !! m) as [mp|]; [|done]. cbn [mbind option_bind] in H.
  match type of H with
  | context [ReactiveVal_call _ _ ?w1] => assert (F : obs_frame true w w1)
  end.
  { destruct (mp !! key); [apply obs_frame_refl|by apply obs_frame_same]. }
  destruct (rmaps _ !! m) as [mp1|]; [|done]. cbn [mbind option_bind] in H.
  destruct (mp1 !! key) as [x|]; [|done]. cbn [mbind option_bind] in H.
  eapply obs_frame_trans; [exact F|]. by eapply ReactiveVal_call_quiet.
Qed.

Lemma ReactiveValues_setitem_quiet m key v w res w' :
  ReactiveValues_setitem m key v w = Some (res, w') → obs_frame true w w'.
Proof.
  unfold ReactiveValues_setitem. intros H.
  destruct (rmaps w !! m) as [mp|]; [|done]. cbn [mbind option_bind] in H.
  destruct (mp !! key) as [x|].
  - destruct (ReactiveVal_call x [v] w) as [[r1 w1]|] eqn:E; [|done]. cbn in H.
    injection H as <- <-. by eapply ReactiveVal_call_quiet.
  - cbn in H. injection H as <- <-. by apply obs_frame_same.
Qed.

Lemma ObserverAsync_init_quiet f w res w' :
  ObserverAsync_init f w = Some (res, w') → obs_frame true w w'.
Proof.
  unfold ObserverAsync_init. intros H. destruct (is_coroutine f); cbn [negb] in H.
  - destruct (Observer_init_eq lambda_None w eq_refl) as (w1 & E & F & _).
    rewrite E in H. cbn in H. injection H as <- <-.
    eapply obs_frame_trans; [exact F|]. by apply obs_frame_upd_observer.
  - injection H as <- <-. apply obs_frame_refl.
Qed.

(** Every call on the engine other than [flush] leaves the observers
    that exist unentered, their counters where they were and their
    destroyed flags raised. *)
Lemma step_quiet a w w' :
  is_flush a = false → step a w = Some w' → obs_frame true w w'.
Proof.
  intros Hf H. destruct a; cbn in H; try done.
  - injection H as <-. by apply obs_frame_same.
  - destruct (ReactiveVal_get x w) as [[v1 w1]|] eqn:E; [|done].
    injection H as <-. by apply run_frame_obs_frame, (ReactiveVal_get_spec _ _ _ _ E).
  - destruct (ReactiveVal_set x v w) as [[b w1]|] eqn:E; [|done].
    injection H as <-. by apply run_frame_obs_frame, (ReactiveVal_set_spec _ _ _ _ _ E).
  - destruct (ReactiveValues_getitem m key w) as [[r1 w1]|] eqn:E; [|done].
    injection H as <-. by eapply ReactiveValues_getitem_quiet.
  - destruct (ReactiveValues_setitem m key v w) as [[r1 w1]|] eqn:E; [|done].
    injection H as <-. by eapply ReactiveValues_setitem_quiet.
  - unfold ReactiveValues_delitem in H.
    destruct (rmaps w !! m) as [mp|]; [|done]. cbn in H.
    destruct (mp !! key); injection H as <-; by apply obs_frame_same.
  - injection H as <-. unfold Reactive_init.
    destruct (is_coroutine f); by apply obs_frame_same.
  - injection H as <-. unfold ReactiveAsync_init, Reactive_init.
    destruct (is_coroutine f); by apply obs_frame_same.
  - destruct (Reactive_call fuel r w) as [[r1 w1]|] eqn:E; [|done].
    injection H as <-.
    by apply run_frame_obs_frame, (Reactive_get_value_spec _ _ _ _ _ (exec_spec fuel) E).
  - destruct (Observer_init f w) as [[r1 w1]|] eqn:E; [|done]. injection H as <-.
    destruct (is_coroutine f) eqn:Hc.
    + unfold Observer_init in E. rewrite Hc in E. injection E as <- <-.
      apply obs_frame_refl.
    + destruct (Observer_init_eq f w Hc) as (w2 & E2 & F & _). congruence.
  - destruct (ObserverAsync_init f w) as [[r1 w1]|] eqn:E; [|done]. injection H as <-.
    by eapply ObserverAsync_init_quiet.
  - injection H as <-. unfold Observer_on_invalidate. by apply obs_frame_upd_observer.
  - by eapply Observer_destroy_quiet.
  - by eapply session_ended_quiet.
Qed.

(** *** flush *)

Lemma entries_observer_single o o' :
  entries (OfObserver o') [OfObserver o] = if decide (o' = o) then 1 else 0.
Proof.
  cbn. destruct (decide (o' = o)) as [->|Hne].
  - by rewrite bool_decide_eq_true_2.
  - rewrite bool_decide_eq_false_2; [done|]. intros [=]. by apply Hne.
Qed.

Lemma entries_zero t l : entries t l = 0 → t ∉ l.
Proof.
  induction l as [|a l IH]; cbn; [intros _; apply not_elem_of_nil|].
  case_bool_decide as Ha; [lia|]. intros H. apply not_elem_of_cons.
  split; [congruence|]. by apply IH.
Qed.

(** A run of an observer that is not destroyed: its function is entered
    once and its counter goes up by one. *)
Lemma Observer_run_obs run o w res w' :
  run_spec run → destroyed o w = false →
  Observer_run run o w = Some (res, w') → obs_frame false w w'.
Proof.
  intros Hrun Hd H. unfold Observer_run in H.
  rewrite Observer_create_context_eq in H. cbn [mbind option_bind] in H.
  set (c := length (ctxs w)) in *.
  set (w1 := upd_observer o (set_o_ctx (Some c)) (set_ctxs _ w)) in *.
  set (w2 := upd_observer o incr_o_exec_count w1) in *.
  destruct (observers w2 !! o) as [ob2|] eqn:Ho2; [|done].
  cbn [mbind option_bind] in H. unfold session_context, Context_run in H.
  match type of H with
  | context [run ?body ?wpre] =>
      destruct (run body wpre) as [[res1 wpost]|] eqn:E; [|done];
      assert (Fpre : obs_frame false w wpre)
  end.
  { constructor; [cbn; by rewrite !length_alter|].
    exists [OfObserver o]. split; [done|]. split; [done|]. intros o' Hlt.
    rewrite entries_observer_single.
    destruct (lookup_lt_is_Some_2 _ _ Hlt) as [ob Hob].
    unfold o_execs, destroyed in *. cbn. destruct (decide (o' = o)) as [->|Hne].
    - rewrite !list_lookup_alter_eq, Hob. cbn. split; [lia|].
      rewrite Hob in Hd. cbn in Hd. congruence.
    - rewrite !list_lookup_alter_ne by done. split; [lia|]. done. }
  cbn in H. injection H as <- <-.
  eapply obs_frame_trans; [exact Fpre|].
  eapply obs_frame_trans; [apply run_frame_obs_frame, (Hrun _ _ _ _ E)|].
  by apply obs_frame_same.
Qed.

Lemma Observer_on_flush_cb_obs run o w res w' :
  run_spec run → Observer_on_flush_cb run o w = Some (res, w') →
  obs_frame false w w'.
Proof.
  intros Hrun H. unfold Observer_on_flush_cb in H.
  destruct (observers w !! o) as [ob|] eqn:Ho; [|done]. cbn [mbind option_bind] in H.
  destruct (o_destroyed ob) eqn:Hd; cbn [negb] in H.
  - injection H as <- <-. apply obs_frame_refl.
  - eapply Observer_run_obs; [done| |done]. by rewrite (destroyed_lookup _ _ _ Ho).
Qed.

Lemma run_flush_callbacks_obs run cbs : ∀ w res w',
  run_spec run → run_flush_callbacks run cbs w = Some (res, w') →
  obs_frame false w w'.
Proof.
  induction cbs as [|[o] cbs IH]; intros w res w' Hrun H; cbn in H.
  - injection H as <- <-. apply obs_frame_refl.
  - destruct (Observer_on_flush_cb run o w) as [[r1 w1]|] eqn:E; [|done].
    cbn in H. pose proof (Observer_on_flush_cb_obs _ _ _ _ _ Hrun E) as F1.
    destruct r1.
    + eapply obs_frame_trans; [exact F1|]. by eapply IH.
    + by injection H as <- <-.
Qed.

(** [flush] never enters a destroyed observer. *)
Lemma flush_obs fuel : ∀ w res w',
  flush fuel w = Some (res, w') → obs_frame false w w'.
Proof.
  induction fuel as [|f IH]; intros w res w' H; [done|]. cbn [flush] in H.
  destruct (pending w) as [|c rest] eqn:Hp.
  - injection H as <- <-. apply obs_frame_refl.
  - cbv zeta in H.
    destruct (run_flush_callbacks _ _ _) as [[r1 w2]|] eqn:E; [|done].
    cbn [mbind option_bind] in H.
    assert (F1 : obs_frame false w w2).
    { eapply obs_frame_trans; [|exact (run_flush_callbacks_obs _ _ _ _ _ (exec_spec f) E)].
      by apply obs_frame_same. }
    destruct r1.
    + eapply obs_frame_trans; [exact F1|]. by eapply IH.
    + by injection H as <- <-.
Qed.

Lemma step_obs a w w' : step a w = Some w' → obs_frame false w w'.
Proof.
  intros H. destruct (is_flush a) eqn:Hf.
  - destruct a; try done. cbn in H.
    destruct (flush fuel w) as [[r1 w1]|] eqn:E; [|done]. injection H as <-.
    by eapply flush_obs.
  - apply obs_frame_weaken. exact (step_quiet a w w' Hf H).
Qed.

Lemma steps_obs ops : ∀ w w', foldM step ops w = Some w' → obs_frame false w w'.
Proof. apply foldM_obs_frame, step_obs. Qed.

Lemma steps_quiet ops : ∀ w w',
  forallb (λ a, negb (is_flush a)) ops = true →
  foldM step ops w = Some w' → obs_frame true w w'.
Proof.
  induction ops as [|a ops IH]; intros w w' Hq H; cbn in *.
  - injection H as <-. apply obs_frame_refl.
  - apply andb_prop in Hq as [Ha Hq]. apply negb_true_iff in Ha.
    destruct (step a w) as [w1|] eqn:E; [|done]. cbn in H.
    eapply obs_frame_trans; [exact (step_quiet a w w1 Ha E)|]. by apply IH.
Qed.

(** *** Observer *)

(** Either constructor, chosen by the kind of the function. *)
Lemma Observer_any_init_eq f w :
  let o := length (observers w) in
  let c := length (ctxs w) in
  ∃ w1, (if is_coroutine f then ObserverAsync_init f w else Observer_init f w)
        = Some (Ok o, w1) ∧
        obs_frame true w w1 ∧ calls w1 = calls w ∧
        o_execs o w1 = 0 ∧ o < length (observers w1) ∧
        is_invalidated c w1 = true ∧ c ∈ pending w1 ∧
        ctxs w1 !! c = Some (mkContext true [] [ObserverOnFlush o]).
Proof.
  intros o c. subst o c. destruct (is_coroutine f) eqn:Hf.
  - destruct (Observer_init_eq lambda_None w eq_refl)
      as (w1 & E & F & Hc & Ho & Hi & Hp & Hx).
    unfold ObserverAsync_init. rewrite Hf. cbn [negb]. rewrite E.
    cbn [mbind option_bind]. eexists; split; [done|].
    pose proof (lookup_upd_observer (length (observers w))
                  (set_o_func (body f) ∘ set_o_is_async true) w1 _ Ho) as Ho'.
    split; [|split; [done|split; [|split; [|done]]]].
    + eapply obs_frame_trans; [exact F|]. by apply obs_frame_upd_observer.
    + by rewrite (o_execs_lookup _ _ _ Ho').
    + by eapply lookup_lt_Some.
  - destruct (Observer_init_eq f w Hf) as (w1 & E & F & Hc & Ho & Hi & Hp & Hx).
    exists w1. split; [done|]. split; [done|]. split; [done|].
    split; [by rewrite (o_execs_lookup _ _ _ Ho)|].
    split; [by eapply lookup_lt_Some|done].
Qed.

(** C5: constructing an observer, of either variant, does not enter its
    function.  The constructor creates a first context and invalidates
    it at once, which puts that context, carrying the observer's flush
    callback, in the pending set; the counter is 0, and it stays 0,
    with no entry into the function, through every sequence of calls on
    the engine that contains no [flush]. *)
Theorem Observer_first_run_deferred (f : func) (w : world) :
  let o := length (observers w) in
  let c := length (ctxs w) in
  ∃ w1, (if is_coroutine f then ObserverAsync_init f w else Observer_init f w)
        = Some (Ok o, w1) ∧
        calls w1 = calls w ∧ o_execs o w1 = 0 ∧
        is_invalidated c w1 = true ∧ c ∈ pending w1 ∧
        ctxs w1 !! c = Some (mkContext true [] [ObserverOnFlush o]) ∧
        ∀ ops w2,
          forallb (λ a, negb (is_flush a)) ops = true →
          foldM step ops w1 = Some w2 →
          o_execs o w2 = 0 ∧ ∃ l, calls w2 = calls w ++ l ∧ OfObserver o ∉ l.
Proof.
  intros o c.
  destruct (Observer_any_init_eq f w) as (w1 & E & F & Hc & He & Hlt & Hi & Hp & Hx).
  exists w1. fold o in E, He, Hlt. fold c in Hi, Hp, Hx.
  repeat (split; [done|]).
  intros ops w2 Hq H.
  destruct (steps_quiet ops w1 w2 Hq H) as [_ (l & Hl & Hr & Hobs)].
  destruct (Hobs o Hlt) as [He2 _].
  pose proof (entries_reactive_calls o l (Hr eq_refl)) as Hz.
  split; [lia|]. exists l. rewrite Hl, Hc. split; [done|]. by apply entries_zero.
Qed.

(** C6: [destroy] returns with the destroyed flag set and the current
    context of the observer, if there is one, invalidated.  From then
    on the flush callback of the observer does nothing, and through
    every sequence of calls on the engine, [flush] included, the
    observer stays destroyed, its function is not entered and its
    counter does not move. *)
Theorem Observer_destroy_terminal (o : nat) (ob : Observer) (w : world) :
  observers w !! o = Some ob →
  ∃ w1, Observer_destroy o w = Some w1 ∧
        destroyed o w1 = true ∧
        (∀ c, o_ctx ob = Some c → c < length (ctxs w) →
              is_invalidated c w1 = true) ∧
        ∀ ops w2, foldM step ops w1 = Some w2 →
          destroyed o w2 = true ∧ o_execs o w2 = o_execs o w1 ∧
          (∀ fuel, Observer_on_flush_cb (exec fuel) o w2 = Some (Ok VNone, w2)) ∧
          ∃ l, calls w2 = calls w1 ++ l ∧ OfObserver o ∉ l.
Proof.
  intros Ho.
  destruct (Observer_destroy_total o ob w Ho) as (w1 & E & [Hlen _] & Hd & Hi).
  exists w1. repeat (split; [done|]).
  intros ops w2 H.
  destruct (steps_obs ops w1 w2 H) as [Hlen2 (l & Hl & _ & Hobs)].
  assert (Hlt : o < length (observers w1)).
  { apply lookup_lt_Some in Ho. lia. }
  destruct (Hobs o Hlt) as [He Hdd]. destruct (Hdd Hd) as [Hd2 Hz].
  split; [done|]. split; [lia|]. split.
  - intros fuel. unfold Observer_on_flush_cb. unfold destroyed in Hd2.
    destruct (observers w2 !! o) as [ob2|]; [|done]. cbn in Hd2 |- *.
    by rewrite Hd2.
  - exists l. split; [done|]. by apply entries_zero.
Qed.

(** *** The properties at work on the sample states *)

Lemma ReactiveVal_set_identity_witness :
  ReactiveVal_set 0 (VObj 1 4) w_watched = Some (false, w_watched) ∧
  py_eq (VObj 1 4) (VObj 2 4) = true ∧
  ∃ w', ReactiveVal_set 0 (VObj 2 4) w_watched = Some (true, w') ∧
        rvals w' !! 0 = Some (mkReactiveVal (VObj 2 4) []) ∧
        calls w' = calls w_watched ∧
        is_invalidated 0 w' = true.
Proof.
  destruct (ReactiveVal_set_identity 0 (mkReactiveVal (VObj 1 4) [0]) (VObj 1 4)
              w_watched eq_refl) as [Hsame _].
  destruct (ReactiveVal_set_identity 0 (mkReactiveVal (VObj 1 4) [0]) (VObj 2 4)
              w_watched eq_refl) as [_ Hother].
  split; [exact (Hsame eq_refl)|]. split; [reflexivity|].
  destruct (Hother eq_refl) as (w' & E & Hv & Hc & Hinv).
  exists w'. repeat split; try done. apply Hinv; [set_solver|cbn; lia].
Defined.

Lemma ReactiveValues_getitem_unset_witness :
  ∃ w1, ReactiveValues_getitem 0 (lit "n") w_watched = Some (Ok VNone, w1) ∧
        rvals w1 !! 1 = Some (mkReactiveVal VNone [0]) ∧
        ∃ w2, ReactiveValues_setitem 0 (lit "n") (VObj 7 1) w1 = Some (Ok tt, w2) ∧
              rmaps w2 = rmaps w1 ∧ length (rvals w2) = length (rvals w1) ∧
              rvals w2 !! 1 = Some (mkReactiveVal (VObj 7 1) []) ∧
              is_invalidated 0 w2 = true.
Proof.
  destruct (ReactiveValues_getitem_unset 0 ∅ (lit "n") w_watched eq_refl eq_refl)
    as (w1 & E & _ & Hx & _ & Hset).
  exists w1. split; [exact E|]. split; [exact Hx|].
  destruct (Hset (VObj 7 1) eq_refl) as (w2 & E2 & Hm & Hl & Hx2 & Hinv).
  exists w2. repeat split; try done. apply Hinv; [reflexivity|cbn; lia].
Defined.

(** C9 (as stated) fails: after the read of an unset key inside a
    context, writing [None] under that key stores the object that is
    already there, and the context is not invalidated. *)
Lemma ReactiveValues_setitem_None_keeps_dependent :
  ∃ w1 w2, ReactiveValues_getitem 0 (lit "n") w_watched = Some (Ok VNone, w1) ∧
           rvals w1 !! 1 = Some (mkReactiveVal VNone [0]) ∧
           ReactiveValues_setitem 0 (lit "n") VNone w1 = Some (Ok tt, w2) ∧
           is_invalidated 0 w2 = false.
Proof. eexists _, _. split; [vm_compute; reflexivity|]. by vm_compute. Qed.



Lemma Observer_first_run_deferred_witness :
  Observer_init reads_reactive w_failing = Some (Ok 0, w_observed) ∧
  o_execs 0 w_observed = 0 ∧ 0 ∈ pending w_observed ∧
  ∃ w2, foldM step [ValSet 0 (VObj 2 1); ReactiveGet 5 0] w_observed = Some w2 ∧
        o_execs 0 w2 = 0 ∧
        o_execs 0 w_flushed = 1.
Proof.
  destruct (Observer_first_run_deferred reads_reactive w_failing)
    as (w1 & E & _ & He & _ & Hp & _ & Hops).
  change (Observer_init reads_reactive w_failing
          = Some (Ok (length (observers w_failing)), w1)) in E.
  assert (w1 = w_observed) as ->.
  { unfold w_observed. by rewrite E. }
  split; [exact E|]. split; [exact He|]. split; [exact Hp|].
  destruct (foldM step [ValSet 0 (VObj 2 1); ReactiveGet 5 0] w_observed)
    as [w2|] eqn:H; [|by vm_compute in H].
  exists w2. split; [done|].
  split; [|by vm_compute].
  by destruct (Hops [ValSet 0 (VObj 2 1); ReactiveGet 5 0] w2 eq_refl H).
Defined.

Lemma Observer_destroy_terminal_witness :
  o_execs 0 w_flushed = 1 ∧
  Observer_destroy 0 w_flushed = Some w_destroyed ∧
  destroyed 0 w_destroyed = true ∧ is_invalidated 1 w_destroyed = true ∧
  ∃ w2, foldM step [ValSet 0 (VObj 2 1); Flush 9; NewVal VNone; Flush 9] w_destroyed
        = Some w2 ∧
        o_execs 0 w2 = 1 ∧ destroyed 0 w2 = true.
Proof.
  edestruct Observer_destroy_terminal with (o := 0) (w := w_flushed)
    as (w1 & E & Hd & Hi & Hops); [vm_compute; reflexivity|].
  assert (w1 = w_destroyed) as ->.
  { unfold w_destroyed. by rewrite E. }
  split; [by vm_compute|]. split; [exact E|]. split; [exact Hd|].
  split; [apply Hi; [reflexivity|vm_compute; lia]|].
  destruct (foldM step [ValSet 0 (VObj 2 1); Flush 9; NewVal VNone; Flush 9] w_destroyed)
    as [w2|] eqn:H; [|by vm_compute in H].
  exists w2. split; [done|].
  destruct (Hops _ w2 H) as (Hd2 & He2 & _). split; [|exact Hd2].
  rewrite He2. by vm_compute.
Defined.

Lemma constructors_check_function_kind_witness :
  Reactive_init a_coroutine w_val
  = (Exc (TypeError "Reactive requires a non-async function"), w_val) ∧
  ObserverAsync_init reads_reactive w_val
  = Some (Exc (TypeError "ObserverAsync requires an async function"), w_val).
Proof.
  destruct (constructors_check_function_kind a_coroutine w_val) as [H1 _].
  destruct (constructors_check_function_kind reads_reactive w_val) as [_ H2].
  split; [apply (H1 eq_refl)|apply (H2 eq_refl)].
Defined.

(** *** ReactiveVal and ReactiveValues: reads after writes *)

Lemma register_rval_lookup d x rv w :
  rvals w !! x = Some rv →
  ∃ rv1, rvals (Dependents_register d w) !! x = Some rv1 ∧
         rv_value rv1 = rv_value rv.
Proof.
  intros Hx. unfold Dependents_register. destruct (current_ctx w); [|eauto].
  case_bool_decide; [eauto|]. destruct d as [y|r]; cbn; [|eauto].
  destruct (decide (y = x)) as [->|Hne].
  - rewrite list_lookup_alter_eq, Hx. cbn. eauto.
  - rewrite list_lookup_alter_ne by done. eauto.
Qed.

Lemma register_frame d w :
  rmaps (Dependents_register d w) = rmaps w ∧
  ctxs (Dependents_register d w) = ctxs w ∧
  length (rvals (Dependents_register d w)) = length (rvals w).
Proof.
  unfold Dependents_register. destruct (current_ctx w); [|done].
  case_bool_decide; [done|]. destruct d; cbn; by rewrite ?length_alter.
Qed.

(** A read returns the stored value and allocates nothing. *)
Lemma ReactiveVal_get_value x rv w :
  rvals w !! x = Some rv →
  ∃ w', ReactiveVal_get x w = Some (rv_value rv, w') ∧
        rmaps w' = rmaps w ∧ ctxs w' = ctxs w ∧
        length (rvals w') = length (rvals w).
Proof.
  intros Hx. unfold ReactiveVal_get.
  destruct (register_rval_lookup (DepVal x) x rv w Hx) as (rv1 & -> & <-).
  cbn [mbind option_bind]. eexists; split; [done|]. apply register_frame.
Qed.

Lemma ReactiveVal_call_roundtrip_aux x rv v w :
  rvals w !! x = Some rv →
  ∃ w1 v' w2,
    ReactiveVal_call x [v] w = Some (Ok VNone, w1) ∧
    ReactiveVal_call x [] w1 = Some (Ok v', w2) ∧
    py_is v' v = true ∧ (py_is (rv_value rv) v = false → v' = v) ∧
    (rmaps w1 = rmaps w ∧ length (rvals w1) = length (rvals w)) ∧
    (rmaps w2 = rmaps w1 ∧ length (rvals w2) = length (rvals w1)).
Proof.
  intros Hx. unfold ReactiveVal_call.
  destruct (py_is (rv_value rv) v) eqn:Hv.
  - unfold ReactiveVal_set. rewrite Hx. cbn [mbind option_bind]. rewrite Hv.
    destruct (ReactiveVal_get_value x rv w Hx) as (w2 & E & Hr & _ & Hl).
    exists w, (rv_value rv), w2. cbn [mbind option_bind]. rewrite E.
    cbn [mbind option_bind]. by repeat split.
  - destruct (ReactiveVal_set_frame x rv v w Hx Hv) as (w1 & -> & Hx1 & (Hr1 & Hl1 & _) & _).
    destruct (ReactiveVal_get_value x _ w1 Hx1) as (w2 & E & Hr & _ & Hl).
    exists w1, v, w2. cbn [mbind option_bind]. rewrite E. cbn [mbind option_bind].
    repeat split; try done. by destruct v; cbn; rewrite ?bool_decide_eq_true_2.
Qed.

(** X6: calling a [ReactiveVal] with one argument stores it and returns
    [None]; the call without argument that follows returns the object
    that was passed.  With two or more arguments the call raises the
    [TypeError] and nothing is stored. *)
Theorem ReactiveVal_call_roundtrip (x : nat) (rv : ReactiveVal) (v : value) (w : world) :
  rvals w !! x = Some rv →
  (∃ w1 v' w2,
     ReactiveVal_call x [v] w = Some (Ok VNone, w1) ∧
     ReactiveVal_call x [] w1 = Some (Ok v', w2) ∧
     py_is v' v = true ∧ (py_is (rv_value rv) v = false → v' = v)) ∧
  (∀ a b rest, ReactiveVal_call x (a :: b :: rest) w = Some (Exc too_many_args, w)).
Proof.
  intros Hx. split; [|done].
  destruct (ReactiveVal_call_roundtrip_aux x rv v w Hx)
    as (w1 & v' & w2 & E1 & E2 & H1 & H2 & _).
  by exists w1, v', w2.
Qed.

Lemma ReactiveVal_call_roundtrip_witness :
  (∃ w1 v' w2,
     ReactiveVal_call 0 [VObj 2 4] w_watched = Some (Ok VNone, w1) ∧
     ReactiveVal_call 0 [] w1 = Some (Ok v', w2) ∧
     py_is v' (VObj 2 4) = true ∧ v' = VObj 2 4).
Proof.
  destruct (ReactiveVal_call_roundtrip 0 (mkReactiveVal (VObj 1 4) [0]) (VObj 2 4)
              w_watched eq_refl) as [(w1 & v' & w2 & E1 & E2 & H1 & H2) _].
  exists w1, v', w2. repeat split; try done. by apply H2.
Defined.

(** X7: after [m[key] = v], reading [m[key]] returns the object that was
    written, whether the key existed or not. *)
Theorem ReactiveValues_setitem_getitem (m : nat) (mp : gmap pystr nat)
    (key : pystr) (v : value) (w : world) :
  rmaps w !! m = Some mp →
  (∀ x, mp !! key = Some x → is_Some (rvals w !! x)) →
  ∃ w1 v' w2,
    ReactiveValues_setitem m key v w = Some (Ok tt, w1) ∧
    ReactiveValues_getitem m key w1 = Some (Ok v', w2) ∧
    py_is v' v = true ∧
    length (rvals w2) = length (rvals w1).
Proof.
  intros Hm Hal. unfold ReactiveValues_setitem. rewrite Hm. cbn [mbind option_bind].
  destruct (mp !! key) as [x|] eqn:Hk.
  - destruct (Hal x eq_refl) as [rv Hx].
    destruct (ReactiveVal_call_roundtrip_aux x rv v w Hx)
      as (w1 & v' & w2 & E1 & E2 & Hv & _ & F1 & F2).
    rewrite E1. cbn [mbind option_bind]. exists w1, v', w2. split; [done|].
    destruct F2 as [_ Hl2].
    unfold ReactiveValues_getitem. destruct F1 as [Hr1 _]. rewrite Hr1, Hm.
    cbn [mbind option_bind]. rewrite Hk, Hr1, Hm. cbn [mbind option_bind].
    rewrite Hk. cbn [mbind option_bind]. by rewrite E2.
  - unfold ReactiveVal_init. cbn [fst snd].
    set (x := length (rvals w)).
    set (w1 := set_rmaps _ (set_rvals _ w)).
    assert (Hm1 : rmaps w1 !! m = Some (<[key:=x]> mp)).
    { subst w1. cbn. by rewrite list_lookup_alter_eq, Hm. }
    assert (Hx1 : rvals w1 !! x = Some (mkReactiveVal v [])).
    { subst w1 x. cbn. apply lookup_snoc_length. }
    destruct (ReactiveVal_get_value x _ w1 Hx1) as (w2 & E & _ & _ & Hl).
    exists w1, v, w2. split; [done|]. unfold ReactiveValues_getitem.
    rewrite Hm1. cbn [mbind option_bind]. rewrite lookup_insert_eq, Hm1.
    cbn [mbind option_bind]. rewrite lookup_insert_eq. cbn [mbind option_bind].
    unfold ReactiveVal_call. rewrite E. cbn [mbind option_bind].
    repeat split; [|done]. by destruct v; cbn; rewrite ?bool_decide_eq_true_2.
Qed.

Lemma ReactiveValues_setitem_getitem_witness :
  ∃ w1 v' w2,
    ReactiveValues_setitem 0 (lit "n") (VObj 7 1) w_watched = Some (Ok tt, w1) ∧
    ReactiveValues_getitem 0 (lit "n") w1 = Some (Ok v', w2) ∧
    py_is v' (VObj 7 1) = true.
Proof.
  destruct (ReactiveValues_setitem_getitem 0 ∅ (lit "n") (VObj 7 1) w_watched eq_refl)
    as (w1 & v' & w2 & E1 & E2 & H & _); [by intros x Hx|].
  by exists w1, v', w2.
Defined.

(** X8: [del m[key]] raises the [KeyError] and changes nothing when the
    key is missing.  When the key is there it only drops the entry:
    no context is invalidated, the [ReactiveVal] keeps its dependents,
    and a later [m[key] = v] stores a new [ReactiveVal], again with no
    context invalidated, so the contexts that read the key before the
    deletion are notified neither by the deletion nor by that write. *)
Theorem ReactiveValues_delitem_orphans (m : nat) (mp : gmap pystr nat)
    (key : pystr) (w : world) :
  rmaps w !! m = Some mp →
  (mp !! key = None →
   ReactiveValues_delitem m key w = Some (Exc (KeyError key), w)) ∧
  (∀ x, mp !! key = Some x →
   ∃ w1, ReactiveValues_delitem m key w = Some (Ok tt, w1) ∧
         rmaps w1 !! m = Some (delete key mp) ∧
         ctxs w1 = ctxs w ∧ rvals w1 = rvals w ∧
         ∀ v, ∃ w2, ReactiveValues_setitem m key v w1 = Some (Ok tt, w2) ∧
                    ctxs w2 = ctxs w ∧
                    rvals w2 = rvals w ++ [mkReactiveVal v []] ∧
                    rmaps w2 !! m
                    = Some (<[key := length (rvals w)]> (delete key mp))).
Proof.
  intros Hm. unfold ReactiveValues_delitem. rewrite Hm. cbn [mbind option_bind].
  split; [by intros ->|]. intros x ->.
  eexists; split; [done|]. cbn. rewrite list_lookup_alter_eq, Hm. cbn.
  repeat split; try done. intros v. unfold ReactiveValues_setitem. cbn.
  rewrite list_lookup_alter_eq, Hm. cbn. rewrite lookup_delete_eq. cbn.
  eexists; split; [done|]. cbn. repeat split; try done.
  by rewrite list_lookup_alter_eq, list_lookup_alter_eq, Hm.
Qed.

Lemma ReactiveValues_delitem_orphans_witness :
  ReactiveValues_delitem 0 (lit "k") w_watched
  = Some (Exc (KeyError (lit "k")), w_watched).
Proof.
  destruct (ReactiveValues_delitem_orphans 0 ∅ (lit "k") w_watched eq_refl) as [H _].
  by apply H.
Defined.

(** The loop of [ReactiveValues.__init__]: one new [ReactiveVal] per
    keyword, in order, each key bound to the id of its own. *)
Lemma ReactiveValues_init_loop kwargs : ∀ (mp : gmap pystr nat) w,
  ∃ mp' w',
    fold_left (λ '(mp, w) '(key, v),
                 let '(x, w') := ReactiveVal_init v w in (<[key := x]> mp, w'))
      kwargs (mp, w) = (mp', w') ∧
    rvals w' = rvals w ++ ((λ p, mkReactiveVal p.2 []) <$> kwargs) ∧
    rmaps w' = rmaps w ∧ ctxs w' = ctxs w ∧
    (∀ key, key ∉ kwargs.*1 → mp' !! key = mp !! key) ∧
    (NoDup kwargs.*1 → ∀ i key v, kwargs !! i = Some (key, v) →
       mp' !! key = Some (length (rvals w) + i)).
Proof.
  induction kwargs as [|[k0 v0] kwargs IH]; intros mp w.
  - exists mp, w. cbn. rewrite app_nil_r. by repeat split.
  - cbn [fold_left]. unfold ReactiveVal_init at 2.
    destruct (IH (<[k0 := length (rvals w)]> mp)
                (set_rvals (λ l, l ++ [mkReactiveVal v0 []]) w))
      as (mp' & w' & E & Hr & Hm & Hc & Hout & Hin).
    exists mp', w'. split; [exact E|]. cbn in Hr, Hm, Hc.
    split; [by rewrite Hr, <- app_assoc|]. split; [done|]. split; [done|]. split.
    + intros key Hk. cbn in Hk. apply not_elem_of_cons in Hk as [Hne Hk].
      rewrite (Hout key Hk). by rewrite lookup_insert_ne.
    + intros Hnd i key v Hi. cbn in Hnd. apply NoDup_cons in Hnd as [Hk0 Hnd].
      destruct i as [|i]; cbn in Hi.
      * injection Hi as <- <-. rewrite (Hout k0 Hk0), lookup_insert_eq.
        f_equal. lia.
      * rewrite (Hin Hnd i key v Hi). cbn. rewrite length_app. cbn. f_equal. lia.
Qed.

(** X9: after a [ReactiveValues] is built from keyword arguments,
    reading any of the keywords returns the value passed for it, and
    creates no new [ReactiveVal]. *)
Theorem ReactiveValues_init_getitem (kwargs : list (pystr * value)) (w : world)
    (key : pystr) (v : value) :
  NoDup kwargs.*1 → (key, v) ∈ kwargs →
  ∃ w2, ReactiveValues_getitem (ReactiveValues_init kwargs w).1 key
          (ReactiveValues_init kwargs w).2 = Some (Ok v, w2) ∧
        length (rvals w2) = length (rvals (ReactiveValues_init kwargs w).2) ∧
        rmaps w2 = rmaps (ReactiveValues_init kwargs w).2.
Proof.
  intros Hnd Hin. unfold ReactiveValues_init.
  destruct (ReactiveValues_init_loop kwargs ∅ w)
    as (mp & w1 & -> & Hr & Hm & _ & _ & Hidx).
  cbn [fst snd]. apply list_elem_of_lookup in Hin as [i Hi].
  pose proof (Hidx Hnd i key v Hi) as Hk.
  set (w1' := set_rmaps (λ l, l ++ [mp]) w1).
  assert (Hm1 : rmaps w1' !! length (rmaps w1) = Some mp).
  { subst w1'. cbn. apply lookup_snoc_length. }
  assert (Hx : rvals w1' !! (length (rvals w) + i) = Some (mkReactiveVal v [])).
  { subst w1'. cbn. rewrite Hr, lookup_app_r by lia.
    replace (length (rvals w) + i - length (rvals w)) with i by lia.
    by rewrite list_lookup_fmap, Hi. }
  destruct (ReactiveVal_get_value _ _ w1' Hx) as (w2 & E & Hr2 & _ & Hl2).
  exists w2. unfold ReactiveValues_getitem. rewrite Hm1. cbn [mbind option_bind].
  rewrite Hk, Hm1. cbn [mbind option_bind]. rewrite Hk. cbn [mbind option_bind].
  unfold ReactiveVal_call. rewrite E. by cbn.
Qed.

Lemma ReactiveValues_init_getitem_witness :
  ∃ w2, ReactiveValues_getitem
          (ReactiveValues_init [(lit "a", VObj 1 10); (lit "b", VNone)] empty_world).1
          (lit "a")
          (ReactiveValues_init [(lit "a", VObj 1 10); (lit "b", VNone)] empty_world).2
        = Some (Ok (VObj 1 10), w2).
Proof.
  destruct (ReactiveValues_init_getitem [(lit "a", VObj 1 10); (lit "b", VNone)]
              empty_world (lit "a") (VObj 1 10)) as (w2 & E & _).
  - cbn. repeat constructor; [|apply not_elem_of_nil]. by intros ?%list_elem_of_singleton.
  - by left.
  - by exists w2.
Defined.

(** *** The counters count the entries *)

Lemma count_frame_refl w : count_frame w w.
Proof.
  constructor; [done|]. exists []. rewrite app_nil_r. split; [done|].
  intros r _. cbn. lia.
Qed.

Lemma count_frame_trans w1 w2 w3 :
  count_frame w1 w2 → count_frame w2 w3 → count_frame w1 w3.
Proof.
  intros [L1 (l1 & C1 & H1)] [L2 (l2 & C2 & H2)]. constructor; [lia|].
  exists (l1 ++ l2). rewrite C2, C1, app_assoc. split; [done|].
  intros r Hr. rewrite (H2 r) by lia. rewrite (H1 r Hr), entries_app. lia.
Qed.

Lemma run_frame_count_frame w w' : run_frame w w' → count_frame w w'.
Proof.
  intros [(l & Hc & _ & He) _ Hf]. constructor.
  - apply (f_equal length) in Hf. rewrite !length_fmap in Hf. lia.
  - exists l. split; [done|]. intros r _. apply He.
Qed.

Lemma inv_frame_count_frame w w' : inv_frame w w' → count_frame w w'.
Proof. intros F. by apply run_frame_count_frame, inv_frame_run_frame. Qed.

Lemma count_frame_same w w' l :
  calls w' = calls w ++ l → (∀ r, entries (OfReactive r) l = 0) →
  reactives w' = reactives w → count_frame w w'.
Proof.
  intros Hc Hl Hr. constructor; [by rewrite Hr|]. exists l. split; [done|].
  intros r _. unfold execs. rewrite Hr, Hl. lia.
Qed.

Lemma count_frame_quiet w w' :
  calls w' = calls w → reactives w' = reactives w → count_frame w w'.
Proof.
  intros Hc Hr. apply (count_frame_same w w' []); [by rewrite app_nil_r|done|done].
Qed.

Lemma count_frame_new_reactive rc w :
  count_frame w (set_reactives (λ l, l ++ [rc]) w).
Proof.
  constructor; [cbn; rewrite length_app; lia|]. exists []. rewrite app_nil_r.
  split; [done|]. intros r Hr. unfold execs. cbn. rewrite lookup_app_l by done. lia.
Qed.

Lemma count_frame_upd_new r g w w' :
  count_frame w w' → length (reactives w) ≤ r → count_frame w (upd_reactive r g w').
Proof.
  intros [L (l & C & H)] Hr. constructor; [cbn; by rewrite length_alter|].
  exists l. split; [done|]. intros r' Hr'. rewrite <- (H r' Hr').
  unfold execs. cbn. by rewrite list_lookup_alter_ne by lia.
Qed.

Lemma foldM_count_frame {A : Type} (stp : A → world → option world) :
  (∀ a w w', stp a w = Some w' → count_frame w w') →
  ∀ l w w', foldM stp l w = Some w' → count_frame w w'.
Proof.
  intros Hs l. induction l as [|a l IH]; intros w w' H; cbn in H.
  - injection H as <-. apply count_frame_refl.
  - destruct (stp a w) as [w1|] eqn:E; [|done]. cbn in H.
    eapply count_frame_trans; eauto.
Qed.

Lemma ReactiveVal_call_count x args w res w' :
  ReactiveVal_call x args w = Some (res, w') → count_frame w w'.
Proof.
  unfold ReactiveVal_call. intros H. destruct args as [|a [|b args]].
  - destruct (ReactiveVal_get x w) as [[v w1]|] eqn:E; [|done]. cbn in H.
    injection H as <- <-. by apply run_frame_count_frame, (ReactiveVal_get_spec _ _ _ _ E).
  - destruct (ReactiveVal_set x a w) as [[b w1]|] eqn:E; [|done]. cbn in H.
    injection H as <- <-. by apply run_frame_count_frame, (ReactiveVal_set_spec _ _ _ _ _ E).
  - injection H as <- <-. apply count_frame_refl.
Qed.

Lemma Observer_destroy_count o w w' :
  Observer_destroy o w = Some w' → count_frame w w'.
Proof.
  unfold Observer_destroy. intros H.
  destruct (observers _ !! o) as [ob|]; [|done]. cbn [mbind option_bind] in H.
  destruct (o_ctx ob) as [c|].
  - destruct (Context_invalidate_total c (upd_observer o (set_o_destroyed true) w))
      as (w2 & E & F). rewrite E in H. injection H as <-.
    eapply count_frame_trans; [|by apply inv_frame_count_frame]. by apply count_frame_quiet.
  - injection H as <-. by apply count_frame_quiet.
Qed.

Lemma Observer_init_count f w res w' :
  Observer_init f w = Some (res, w') → count_frame w w'.
Proof.
  unfold Observer_init. intros H. destruct (is_coroutine f).
  - injection H as <- <-. apply count_frame_refl.
  - cbv zeta in H. rewrite Observer_create_context_eq in H.
    cbn [mbind option_bind] in H.
    match type of H with
    | context [Context_invalidate ?c ?w3] =>
        destruct (Context_invalidate_total c w3) as (w4 & E & F);
        assert (F0 : count_frame w w3)
    end.
    { apply count_frame_quiet; by destruct (current_session w). }
    rewrite E in H. cbn in H. injection H as <- <-.
    eapply count_frame_trans; [exact F0|]. by apply inv_frame_count_frame.
Qed.

Lemma Observer_run_count run o w res w' :
  run_spec run → Observer_run run o w = Some (res, w') → count_frame w w'.
Proof.
  intros Hrun H. unfold Observer_run in H.
  rewrite Observer_create_context_eq in H. cbn [mbind option_bind] in H.
  destruct (observers _ !! o) as [ob2|]; [|done].
  cbn [mbind option_bind] in H. unfold session_context, Context_run in H.
  match type of H with
  | context [run ?body ?wpre] =>
      destruct (run body wpre) as [[res1 wpost]|] eqn:E; [|done];
      assert (Fpre : count_frame w wpre)
  end.
  { apply (count_frame_same _ _ [OfObserver o]); [done| |done].
    intros r. cbn. by rewrite bool_decide_eq_false_2. }
  cbn in H. injection H as <- <-.
  eapply count_frame_trans; [exact Fpre|].
  eapply count_frame_trans; [apply run_frame_count_frame, (Hrun _ _ _ _ E)|].
  by apply count_frame_quiet.
Qed.

Lemma run_flush_callbacks_count run cbs : ∀ w res w',
  run_spec run → run_flush_callbacks run cbs w = Some (res, w') →
  count_frame w w'.
Proof.
  induction cbs as [|[o] cbs IH]; intros w res w' Hrun H; cbn in H.
  - injection H as <- <-. apply count_frame_refl.
  - destruct (Observer_on_flush_cb run o w) as [[r1 w1]|] eqn:E; [|done].
    cbn in H.
    assert (F1 : count_frame w w1).
    { unfold Observer_on_flush_cb in E.
      destruct (observers w !! o) as [ob|]; [|done]. cbn [mbind option_bind] in E.
      destruct (o_destroyed ob); cbn [negb] in E.
      - injection E as <- <-. apply count_frame_refl.
      - by eapply Observer_run_count. }
    destruct r1.
    + eapply count_frame_trans; [exact F1|]. by eapply IH.
    + by injection H as <- <-.
Qed.

Lemma flush_count fuel : ∀ w res w',
  flush fuel w = Some (res, w') → count_frame w w'.
Proof.
  induction fuel as [|f IH]; intros w res w' H; [done|]. cbn [flush] in H.
  destruct (pending w) as [|c rest] eqn:Hp.
  - injection H as <- <-. apply count_frame_refl.
  - cbv zeta in H.
    destruct (run_flush_callbacks _ _ _) as [[r1 w2]|] eqn:E; [|done].
    cbn [mbind option_bind] in H.
    assert (F1 : count_frame w w2).
    { eapply count_frame_trans;
        [|exact (run_flush_callbacks_count _ _ _ _ _ (exec_spec f) E)].
      by apply count_frame_quiet. }
    destruct r1.
    + eapply count_frame_trans; [exact F1|]. by eapply IH.
    + by injection H as <- <-.
Qed.

Lemma step_count a w w' : step a w = Some w' → count_frame w w'.
Proof.
  intros H. destruct a; cbn in H.
  - injection H as <-. by apply count_frame_quiet.
  - destruct (ReactiveVal_get x w) as [[v1 w1]|] eqn:E; [|done].
    injection H as <-. by apply run_frame_count_frame, (ReactiveVal_get_spec _ _ _ _ E).
  - destruct (ReactiveVal_set x v w) as [[b w1]|] eqn:E; [|done].
    injection H as <-. by apply run_frame_count_frame, (ReactiveVal_set_spec _ _ _ _ _ E).
  - unfold ReactiveValues_getitem in H.
    destruct (rmaps w !! m) as [mp|]; [|done]. cbn [mbind option_bind] in H.
    match type of H with
    | context [ReactiveVal_call _ _ ?w1] => assert (F : count_frame w w1)
    end.
    { destruct (mp !! key); [apply count_frame_refl|by apply count_frame_quiet]. }
    destruct (rmaps _ !! m) as [mp1|]; [|done]. cbn [mbind option_bind] in H.
    destruct (mp1 !! key) as [x|]; [|done]. cbn [mbind option_bind] in H.
    destruct (ReactiveVal_call _ _ _) as [[r1 w1]|] eqn:E; [|done]. injection H as <-.
    eapply count_frame_trans; [exact F|]. by eapply ReactiveVal_call_count.
  - unfold ReactiveValues_setitem in H.
    destruct (rmaps w !! m) as [mp|]; [|done]. cbn [mbind option_bind] in H.
    destruct (mp !! key) as [x|].
    + destruct (ReactiveVal_call x [v] w) as [[r1 w1]|] eqn:E; [|done]. cbn in H.
      injection H as <-. by eapply ReactiveVal_call_count.
    + cbn in H. injection H as <-. by apply count_frame_quiet.
  - unfold ReactiveValues_delitem in H.
    destruct (rmaps w !! m) as [mp|]; [|done]. cbn in H.
    destruct (mp !! key); injection H as <-; by apply count_frame_quiet.
  - injection H as <-. unfold Reactive_init.
    destruct (is_coroutine f); [apply count_frame_refl|apply count_frame_new_reactive].
  - injection H as <-. unfold ReactiveAsync_init, Reactive_init.
    destruct (is_coroutine f); cbn; [|apply count_frame_refl].
    apply count_frame_upd_new; [apply count_frame_new_reactive|done].
  - destruct (Reactive_call fuel r w) as [[r1 w1]|] eqn:E; [|done].
    injection H as <-.
    by apply run_frame_count_frame,
      (Reactive_get_value_spec _ _ _ _ _ (exec_spec fuel) E).
  - destruct (Observer_init f w) as [[r1 w1]|] eqn:E; [|done]. injection H as <-.
    by eapply Observer_init_count.
  - unfold ObserverAsync_init in H. destruct (is_coroutine f); cbn [negb] in H.
    + destruct (Observer_init lambda_None w) as [[r1 w1]|] eqn:E; [|done].
      cbn in H. pose proof (Observer_init_count _ _ _ _ E) as F.
      destruct r1; injection H as <-; [|done].
      eapply count_frame_trans; [exact F|]. by apply count_frame_quiet.
    + injection H as <-. apply count_frame_refl.
  - injection H as <-. by apply count_frame_quiet.
  - by eapply Observer_destroy_count.
  - unfold session_ended in H. revert H. apply foldM_count_frame.
    intros [o] w1 w2. apply Observer_destroy_count.
  - destruct (flush fuel w) as [[r1 w1]|] eqn:E; [|done]. injection H as <-.
    by eapply flush_count.
Qed.

(** X10: through every sequence of calls on the engine, [flush]
    included, the [_exec_count] of a [Reactive] moves by exactly the
    number of times its function is entered. *)
Theorem Reactive_exec_count_counts_entries (ops : list op) (w w' : world) :
  foldM step ops w = Some w' →
  ∃ l, calls w' = calls w ++ l ∧
       ∀ r, r < length (reactives w) →
            execs r w' = execs r w + entries (OfReactive r) l.
Proof.
  intros H. by destruct (foldM_count_frame step step_count ops w w' H) as [_ Hc].
Qed.

(** X11: through every sequence of calls on the engine, [flush]
    included, the [_exec_count] of an [Observer] moves by exactly the
    number of times its function is entered. *)
Theorem Observer_exec_count_counts_entries (ops : list op) (w w' : world) :
  foldM step ops w = Some w' →
  ∃ l, calls w' = calls w ++ l ∧
       ∀ o, o < length (observers w) →
            o_execs o w' = o_execs o w + entries (OfObserver o) l.
Proof.
  intros H. destruct (steps_obs ops w w' H) as [_ (l & Hc & _ & Ho)].
  exists l. split; [done|]. intros o Hlt. by destruct (Ho o Hlt).
Qed.

(** *** Sessions, runs of observers, asynchronous variants *)

Lemma Observer_init_on_ended f w :
  is_coroutine f = false →
  ∃ w1, Observer_init f w = Some (Ok (length (observers w)), w1) ∧
        length (observers w) < length (observers w1) ∧
        on_ended w1
        = on_ended w ++
          match current_session w with
          | Some s => [(s, ObserverOnSessionEnded (length (observers w)))]
          | None => []
          end.
Proof.
  intros Hf. destruct (Observer_init_eq f w Hf) as (w1 & E & _ & _ & Ho & _).
  exists w1. split; [exact E|]. split; [by eapply lookup_lt_Some|].
  unfold Observer_init in E. rewrite Hf in E. cbv zeta in E.
  rewrite Observer_create_context_eq in E. cbn [mbind option_bind] in E.
  match type of E with
  | context [Context_invalidate ?c ?w3] =>
      destruct (Context_invalidate_total c w3) as (w4 & E4 & F)
  end.
  rewrite E4 in E. cbn in E. injection E as <-. rewrite (if_on_ended _ _ F).
  destruct (current_session w); cbn; [done|by rewrite app_nil_r].
Qed.

(** Running the callbacks of an ended session destroys each observer
    they belong to. *)
Lemma run_session_callbacks_destroy cbs : ∀ w,
  Forall (λ cb, match cb with
                | ObserverOnSessionEnded o => o < length (observers w)
                end) cbs →
  ∃ w', foldM run_session_callback cbs w = Some w' ∧ obs_frame true w w' ∧
        ∀ o, ObserverOnSessionEnded o ∈ cbs → destroyed o w' = true.
Proof.
  induction cbs as [|[o] cbs IH]; intros w Hall.
  - exists w. split; [done|]. split; [apply obs_frame_refl|].
    intros o Ho. by apply elem_of_nil in Ho.
  - apply Forall_cons in Hall as [Ho Hall]. cbn [foldM run_session_callback].
    destruct (lookup_lt_is_Some_2 _ _ Ho) as [ob Hob].
    destruct (Observer_destroy_total o ob w Hob) as (w1 & -> & F1 & D1 & _).
    cbn [mbind option_bind].
    destruct (IH w1) as (w2 & -> & F2 & D2).
    { eapply Forall_impl; [exact Hall|]. intros [o'] Ho'.
      pose proof (of_length _ _ _ F1). lia. }
    exists w2. split; [done|]. split; [by eapply obs_frame_trans|].
    intros o' Hin. apply elem_of_cons in Hin as [[= ->]|Hin]; [|by apply D2].
    destruct F2 as [_ (l & _ & _ & H2)].
    destruct (H2 o) as [_ Hd].
    { pose proof (of_length _ _ _ F1). lia. }
    by destruct (Hd D1).
Qed.

(** X12: an observer constructed while a session is current is
    destroyed when that session ends. *)
Theorem session_end_destroys_observer (f : func) (w : world) (s : nat) :
  is_coroutine f = false → current_session w = Some s →
  Forall (λ p, match p.2 with
               | ObserverOnSessionEnded o => o < length (observers w)
               end) (on_ended w) →
  ∃ w1 w2, Observer_init f w = Some (Ok (length (observers w)), w1) ∧
           session_ended s w1 = Some w2 ∧
           destroyed (length (observers w)) w2 = true.
Proof.
  intros Hf Hs Hwf.
  destruct (Observer_init_on_ended f w Hf) as (w1 & E & Hlt & Hend).
  rewrite Hs in Hend.
  destruct (run_session_callbacks_destroy
              (map snd (filter (λ p, p.1 = s) (on_ended w1))) w1)
    as (w2 & E2 & _ & Hd).
  { rewrite Hend. apply Forall_forall. intros cb Hcb.
    apply list_elem_of_fmap in Hcb as ([s' cb'] & -> & Hin).
    apply list_elem_of_filter in Hin as [_ Hin]. cbn.
    apply elem_of_app in Hin as [Hin|Hin].
    - rewrite Forall_forall in Hwf. specialize (Hwf _ Hin). cbn in Hwf.
      destruct cb'. lia.
    - apply list_elem_of_singleton in Hin. injection Hin as -> ->. exact Hlt. }
  exists w1, w2. split; [exact E|]. split; [exact E2|].
  apply Hd. rewrite Hend. apply list_elem_of_fmap.
  exists (s, ObserverOnSessionEnded (length (observers w))). split; [done|].
  apply list_elem_of_filter. split; [done|]. apply elem_of_app. right. by left.
Qed.

Lemma Forall_reactive_entries o l :
  Forall is_reactive_call l → entries (OfObserver o) l = 0.
Proof.
  induction 1 as [|t l Ht _ IH]; [done|]. cbn. rewrite IH.
  destruct t; [|done]. by rewrite bool_decide_eq_false_2.
Qed.

(** [Observer.run] is the run of the function in the entry state; its
    value is dropped and the ambient context and session are put back. *)
Lemma Observer_run_eq run o ob w :
  observers w !! o = Some ob →
  Observer_run run o w
  = '(res, wpost) ← run (o_func ob) (Observer_entry o w);
    Some (discard res,
          set_current_session (current_session w)
            (set_current_ctx (current_ctx w) wpost)).
Proof.
  intros Ho. unfold Observer_run, Observer_entry.
  rewrite Observer_create_context_eq. cbn [mbind option_bind].
  set (c := length (ctxs w)).
  match goal with
  | |- context [observers ?w2 !! o] =>
      assert (Ho2 : observers w2 !! o
                    = Some (incr_o_exec_count (set_o_ctx (Some c) ob)))
  end.
  { apply lookup_upd_observer. by apply (lookup_upd_observer o _ (set_ctxs _ w)). }
  rewrite Ho2. cbn [mbind option_bind].
  unfold session_context, Context_run.
  change (o_func (incr_o_exec_count (set_o_ctx (Some c) ob))) with (o_func ob).
  change (o_session (incr_o_exec_count (set_o_ctx (Some c) ob))) with (o_session ob).
  destruct (run (o_func ob) _) as [[res wpost]|]; done.
Qed.

Lemma Observer_entry_eq o ob w :
  observers w !! o = Some ob →
  Observer_entry o w
  = log_call (OfObserver o)
      (set_current_ctx (Some (length (ctxs w)))
         (set_current_session (o_session ob)
            (upd_observer o incr_o_exec_count
               (upd_observer o (set_o_ctx (Some (length (ctxs w))))
                  (set_ctxs (λ l, l ++ [mkContext false
                                          [ObserverOnInvalidate o (length (ctxs w))]
                                          [ObserverOnFlush o]]) w))))).
Proof.
  intros Ho. unfold Observer_entry. rewrite Observer_create_context_eq.
  set (c := length (ctxs w)).
  match goal with
  | |- context [observers ?w2 !! o] =>
      assert (Ho2 : observers w2 !! o
                    = Some (incr_o_exec_count (set_o_ctx (Some c) ob)))
  end.
  { apply lookup_upd_observer. by apply (lookup_upd_observer o _ (set_ctxs _ w)). }
  by rewrite Ho2.
Qed.

Lemma Observer_run_total fuel o ob w res wpost :
  observers w !! o = Some ob →
  exec fuel (o_func ob) (Observer_entry o w) = Some (res, wpost) →
  ∃ w' l,
    Observer_run (exec fuel) o w = Some (discard res, w') ∧
    current_ctx w' = current_ctx w ∧ current_session w' = current_session w ∧
    o_execs o w' = S (o_exec_count ob) ∧
    calls w' = calls w ++ OfObserver o :: l ∧ entries (OfObserver o) l = 0.
Proof.
  intros Ho E. rewrite (Observer_run_eq _ o ob w Ho), E. cbn [mbind option_bind].
  destruct (exec_spec fuel _ _ _ _ E) as [[(l & Hc & Hl & _) Hobs _] _].
  eexists _, l. split; [done|]. split; [done|]. split; [done|]. split.
  - rewrite (Observer_entry_eq o ob w Ho) in Hobs.
    apply (lookup_fmap_eq _ _ _ o) in Hobs. unfold o_execs. cbn. cbn in Hobs.
    rewrite !list_lookup_alter_eq, Ho in Hobs. cbn in Hobs.
    destruct (observers wpost !! o) as [ob'|]; [|done]. cbn in Hobs |- *.
    unfold o_stable in Hobs. by simplify_eq.
  - split; [|by apply Forall_reactive_entries]. cbn. rewrite Hc.
    rewrite (Observer_entry_eq o ob w Ho). cbn. by rewrite <- app_assoc.
Qed.

(** X13: [Observer.run] calls the function in a context created for
    this run and stored in the observer, with the counter already one
    up and the session of the observer installed.  When the function
    comes back so does [run]: it returns [None] whatever the function
    returned, and raises what the function raised; the function was
    entered once, and the ambient context and session are those of
    before.  When the function does not come back, neither does
    [run]. *)
Theorem Observer_run_enters (fuel o : nat) (ob : Observer) (w : world) :
  observers w !! o = Some ob →
  (current_ctx (Observer_entry o w) = Some (length (ctxs w)) ∧
   current_session (Observer_entry o w) = o_session ob ∧
   ctxs (Observer_entry o w)
   = ctxs w ++ [mkContext false [ObserverOnInvalidate o (length (ctxs w))]
                  [ObserverOnFlush o]] ∧
   observers (Observer_entry o w) !! o
   = Some (incr_o_exec_count (set_o_ctx (Some (length (ctxs w))) ob)) ∧
   calls (Observer_entry o w) = calls w ++ [OfObserver o]) ∧
  (exec fuel (o_func ob) (Observer_entry o w) = None →
   Observer_run (exec fuel) o w = None) ∧
  (∀ res wpost,
     exec fuel (o_func ob) (Observer_entry o w) = Some (res, wpost) →
     ∃ w' l,
       Observer_run (exec fuel) o w
       = Some (match res with Ok _ => Ok VNone | Exc e => Exc e end, w') ∧
       current_ctx w' = current_ctx w ∧ current_session w' = current_session w ∧
       o_execs o w' = S (o_exec_count ob) ∧
       calls w' = calls w ++ OfObserver o :: l ∧ entries (OfObserver o) l = 0).
Proof.
  intros Ho. split; [|split].
  - rewrite (Observer_entry_eq o ob w Ho). cbn. repeat split.
    by rewrite !list_lookup_alter_eq, Ho.
  - intros E. by rewrite (Observer_run_eq _ o ob w Ho), E.
  - intros res wpost E. exact (Observer_run_total fuel o ob w res wpost Ho E).
Qed.


(** *** How an invalidation spreads *)

Lemma inv_frame_reactives_length w w' :
  inv_frame w w' → length (reactives w') = length (reactives w).
Proof.
  intros F. pose proof (f_equal length (if_reactives _ _ F)) as H.
  by rewrite !length_fmap in H.
Qed.

Lemma inv_frame_observers_length w w' :
  inv_frame w w' → length (observers w') = length (observers w).
Proof.
  intros F. pose proof (f_equal length (if_observers _ _ F)) as H.
  by rewrite !length_fmap in H.
Qed.

Lemma not_invalidated_before w w' e :
  inv_frame w w' → is_invalidated e w' = false → is_invalidated e w = false.
Proof.
  intros F H. destruct (is_invalidated e w) eqn:E; [|done].
  by rewrite (if_mono _ _ F e E) in H.
Qed.

Lemma live_not_invalidated e cx w :
  ctxs w !! e = Some cx → c_invalidated cx = false → is_invalidated e w = false.
Proof. intros H1 H2. unfold is_invalidated. by rewrite H1. Qed.

Lemma dirty_spread r w w' : spread w w' → dirty r w → dirty r w'.
Proof.
  intros S (rc & Hr & H1 & H2 & H3 & H4).
  destruct (sp_flags _ _ S r rc Hr) as (rc' & Hr' & F1 & F2 & F3 & F4).
  exists rc'. repeat split; auto.
Qed.

Lemma queued_spread o c w w' : spread w w' → queued o c w → queued o c w'.
Proof.
  intros S [Hp Hc]. split; [by apply (sp_pending _ _ S)|].
  intros ob' Ho'.
  assert (Hlt : o < length (observers w)).
  { rewrite <- (inv_frame_observers_length _ _ (sp_frame _ _ S)).
    by eapply lookup_lt_Some. }
  destruct (lookup_lt_is_Some_2 _ _ Hlt) as [ob Ho].
  destruct (sp_octx _ _ S o ob Ho) as (ob'' & Ho'' & H). rewrite Ho' in Ho''.
  injection Ho'' as <-. apply H, (Hc ob Ho).
Qed.

Lemma cb_done_spread cb w w1 w2 :
  spread w1 w2 → cb_done cb w w1 → cb_done cb w w2.
Proof.
  intros S. destruct cb as [r|o c]; cbn.
  - intros [Hd Hn]. split.
    + intros Hr. by eapply dirty_spread; [|apply Hd].
    + intros d Hin Hlt. apply (if_mono _ _ (sp_frame _ _ S)). by apply Hn.
  - by apply queued_spread.
Qed.

Lemma spread_static w w' :
  inv_frame w w' → ctxs w' = ctxs w →
  (∀ r, get_dependents (DepReactive r) w' = get_dependents (DepReactive r) w ∨
        (get_dependents (DepReactive r) w' = [] ∧
         ∀ d, d ∈ get_dependents (DepReactive r) w → d < length (ctxs w) →
              is_invalidated d w' = true)) →
  (∀ r rc, reactives w !! r = Some rc →
     ∃ rc', reactives w' !! r = Some rc' ∧
            (r_invalidated rc = true → r_invalidated rc' = true) ∧
            (r_value rc = VNone → r_value rc' = VNone) ∧
            (r_dependents rc = [] → r_dependents rc' = []) ∧
            (r_ctx rc = None → r_ctx rc' = None)) →
  (∀ c, c ∈ pending w → c ∈ pending w') →
  (∀ o ob, observers w !! o = Some ob →
     ∃ ob', observers w' !! o = Some ob' ∧ (o_ctx ob = None → o_ctx ob' = None)) →
  spread w w'.
Proof.
  intros F Hc Hd Hf Hp Ho.
  assert (Hno : ∀ e cx, ctxs w !! e = Some cx → c_invalidated cx = false →
                        is_invalidated e w' = true → False).
  { intros e cx He Hl Hi. unfold is_invalidated in Hi. rewrite Hc, He in Hi. congruence. }
  constructor; try done.
  - intros e _. by rewrite Hc.
  - intros e cx r d He Hl Hi. destruct (Hno e cx He Hl Hi).
  - intros e cx r He Hl Hi. destruct (Hno e cx He Hl Hi).
  - intros e cx o c He Hl Hi. destruct (Hno e cx He Hl Hi).
Qed.

Lemma spread_refl w : spread w w.
Proof.
  apply spread_static; eauto using inv_frame_refl.
  intros r rc Hr. exists rc. repeat split; auto.
Qed.

Lemma spread_trans w1 w2 w3 : spread w1 w2 → spread w2 w3 → spread w1 w3.
Proof.
  intros S1 S2.
  pose proof (sp_frame _ _ S1) as F1. pose proof (sp_frame _ _ S2) as F2.
  pose proof (if_length _ _ F1) as L1.
  constructor.
  - by eapply inv_frame_trans.
  - intros e He. rewrite (sp_live _ _ S2 e He).
    apply (sp_live _ _ S1). by eapply not_invalidated_before.
  - intros r. destruct (sp_deps _ _ S2 r) as [E2|[E2 N2]];
      destruct (sp_deps _ _ S1 r) as [E1|[E1 N1]].
    + left. congruence.
    + right. split; [congruence|]. intros d Hd Hlt.
      apply (if_mono _ _ F2). by apply N1.
    + right. split; [done|]. intros d Hd Hlt. apply N2; [by rewrite E1|lia].
    + right. split; [done|]. intros d Hd Hlt.
      apply (if_mono _ _ F2). by apply N1.
  - intros r rc Hr. destruct (sp_flags _ _ S1 r rc Hr) as (rc2 & Hr2 & A1 & A2 & A3 & A4).
    destruct (sp_flags _ _ S2 r rc2 Hr2) as (rc3 & Hr3 & B1 & B2 & B3 & B4).
    exists rc3. repeat split; auto.
  - intros c Hc. by apply (sp_pending _ _ S2), (sp_pending _ _ S1).
  - intros o ob Ho. destruct (sp_octx _ _ S1 o ob Ho) as (ob2 & Ho2 & A).
    destruct (sp_octx _ _ S2 o ob2 Ho2) as (ob3 & Ho3 & B). exists ob3. auto.
  - intros e cx r d He Hl Hi Hcb Hd Hlt.
    destruct (is_invalidated e w2) eqn:Hi2.
    + apply (if_mono _ _ F2). by eapply (sp_notified _ _ S1).
    + pose proof (sp_live _ _ S1 e Hi2) as He2. rewrite He in He2.
      destruct (sp_deps _ _ S1 r) as [E1|[E1 N1]].
      * eapply (sp_notified _ _ S2); eauto; [by rewrite E1|lia].
      * apply (if_mono _ _ F2). by apply N1.
  - intros e cx r He Hl Hi Hcb Hr.
    destruct (is_invalidated e w2) eqn:Hi2.
    + eapply dirty_spread; [exact S2|]. by eapply (sp_dirty _ _ S1).
    + pose proof (sp_live _ _ S1 e Hi2) as He2. rewrite He in He2.
      eapply (sp_dirty _ _ S2); eauto.
      by rewrite (inv_frame_reactives_length _ _ F1).
  - intros e cx o c He Hl Hi Hcb.
    destruct (is_invalidated e w2) eqn:Hi2.
    + eapply queued_spread; [exact S2|]. by eapply (sp_queued _ _ S1).
    + pose proof (sp_live _ _ S1 e Hi2) as He2. rewrite He in He2.
      eapply (sp_queued _ _ S2); eauto.
Qed.

Lemma deps_upd_reactive r g r' w :
  (∀ rc, r_dependents (g rc) = r_dependents rc) →
  get_dependents (DepReactive r') (upd_reactive r g w)
  = get_dependents (DepReactive r') w.
Proof.
  intros Hg. cbn. destruct (decide (r = r')) as [->|Hne].
  - rewrite list_lookup_alter_eq. destruct (reactives w !! r'); cbn; [|done]. by rewrite Hg.
  - by rewrite list_lookup_alter_ne.
Qed.

Lemma flags_upd_reactive r g w :
  (∀ rc, (r_invalidated rc = true → r_invalidated (g rc) = true) ∧
         (r_value rc = VNone → r_value (g rc) = VNone) ∧
         (r_dependents rc = [] → r_dependents (g rc) = []) ∧
         (r_ctx rc = None → r_ctx (g rc) = None)) →
  ∀ r' rc, reactives w !! r' = Some rc →
    ∃ rc', reactives (upd_reactive r g w) !! r' = Some rc' ∧
           (r_invalidated rc = true → r_invalidated rc' = true) ∧
           (r_value rc = VNone → r_value rc' = VNone) ∧
           (r_dependents rc = [] → r_dependents rc' = []) ∧
           (r_ctx rc = None → r_ctx rc' = None).
Proof.
  intros Hg r' rc Hr. cbn. destruct (decide (r = r')) as [->|Hne].
  - rewrite list_lookup_alter_eq, Hr. cbn. exists (g rc). split; [done|]. apply Hg.
  - rewrite list_lookup_alter_ne by done. exists rc. by repeat split.
Qed.

(** A write to a reactive that keeps its dependents. *)
Lemma spread_upd_reactive r g w :
  (∀ rc, r_stable (g rc) = r_stable rc) →
  (∀ rc, r_dependents (g rc) = r_dependents rc) →
  (∀ rc, (r_invalidated rc = true → r_invalidated (g rc) = true) ∧
         (r_value rc = VNone → r_value (g rc) = VNone) ∧
         (r_ctx rc = None → r_ctx (g rc) = None)) →
  spread w (upd_reactive r g w).
Proof.
  intros Hs Hd Hf. apply spread_static; try done.
  - by apply inv_frame_upd_reactive.
  - intros r'. left. by apply deps_upd_reactive.
  - apply flags_upd_reactive. intros rc. destruct (Hf rc) as (A & B & C).
    repeat split; try done. by rewrite Hd.
  - intros o ob Ho. exists ob. by split.
Qed.

(** Clearing a set of dependents that have all been notified. *)
Lemma spread_clear_dependents r w :
  (∀ d, d ∈ get_dependents (DepReactive r) w → d < length (ctxs w) →
        is_invalidated d w = true) →
  spread w (set_dependents (DepReactive r) [] w).
Proof.
  intros Hn. apply spread_static; try done.
  - apply inv_frame_set_dependents.
  - intros r'. destruct (decide (r = r')) as [->|Hne].
    + right. split; [|exact Hn]. cbn. rewrite list_lookup_alter_eq.
      by destruct (reactives w !! r').
    + left. cbn. by rewrite list_lookup_alter_ne.
  - apply flags_upd_reactive. intros rc. by repeat split.
  - intros o ob Ho. exists ob. by split.
Qed.

Lemma spread_observer_cb o c w :
  spread w (Observer_on_invalidate_cb o c w) ∧
  queued o c (Observer_on_invalidate_cb o c w).
Proof.
  split.
  - apply spread_static.
    + unfold Observer_on_invalidate_cb.
      eapply inv_frame_trans; [|apply inv_frame_add_pending].
      eapply inv_frame_trans; [|apply inv_frame_log_fired].
      by apply inv_frame_upd_observer.
    + unfold Observer_on_invalidate_cb, add_pending_flush. by case_bool_decide.
    + intros r. left. unfold Observer_on_invalidate_cb, add_pending_flush.
      by case_bool_decide.
    + intros r rc Hr. exists rc. unfold Observer_on_invalidate_cb, add_pending_flush.
      by case_bool_decide.
    + intros c' Hc'. unfold Observer_on_invalidate_cb, add_pending_flush.
      case_bool_decide; cbn in *; [done|]. apply elem_of_app. by left.
    + intros o' ob Ho'. unfold Observer_on_invalidate_cb, add_pending_flush.
      assert (∃ ob', alter (set_o_ctx None) o (observers w) !! o' = Some ob' ∧
                     (o_ctx ob = None → o_ctx ob' = None)) as (ob' & H1 & H2).
      { destruct (decide (o = o')) as [->|Hne].
        - rewrite list_lookup_alter_eq, Ho'. cbn. eauto.
        - rewrite list_lookup_alter_ne by done. eauto. }
      exists ob'. by case_bool_decide.
  - unfold queued, Observer_on_invalidate_cb, add_pending_flush. split.
    + case_bool_decide as Hin; [exact Hin|]. cbn. apply elem_of_app. right. by left.
    + intros ob Ho.
      assert (alter (set_o_ctx None) o (observers w) !! o = Some ob) as Ho'
        by (by case_bool_decide).
      rewrite list_lookup_alter_eq in Ho'.
      destruct (observers w !! o); [|done]. by injection Ho' as <-.
Qed.

Lemma notify_spread n inval ds :
  spreads_below n inval → ∀ w, live (ctxs w) < n →
  ∃ w', foldM inval ds w = Some w' ∧ spread w w' ∧
        ∀ d, d ∈ ds → d < length (ctxs w) → is_invalidated d w' = true.
Proof.
  intros Hi. induction ds as [|d ds IH]; intros w Hw; cbn [foldM].
  - exists w. split; [done|]. split; [apply spread_refl|].
    intros d Hd. by apply elem_of_nil in Hd.
  - destruct (Hi d w Hw) as (w1 & -> & S1 & M1). cbn [mbind option_bind].
    pose proof (sp_frame _ _ S1) as F1.
    destruct (IH w1) as (w2 & -> & S2 & M2); [pose proof (if_live _ _ F1); lia|].
    exists w2. split; [done|]. split; [by eapply spread_trans|].
    intros d' Hd' Hlt. apply elem_of_cons in Hd' as [->|Hin].
    + apply (if_mono _ _ (sp_frame _ _ S2)). by apply M1.
    + apply M2; [done|]. by rewrite (if_length _ _ F1).
Qed.

Lemma reactive_cb_spread n inval r :
  spreads_below n inval → ∀ w, live (ctxs w) < n →
  ∃ w', Reactive_on_invalidate_cb inval r w = Some w' ∧ spread w w' ∧
        cb_done (ReactiveOnInvalidate r) w w'.
Proof.
  intros Hi w Hw. unfold Reactive_on_invalidate_cb, Dependents_invalidate.
  set (w1 := upd_reactive r (set_r_invalidated true ∘ set_r_value VNone) w).
  assert (S1 : spread w w1) by by apply spread_upd_reactive.
  assert (D1 : get_dependents (DepReactive r) w1 = get_dependents (DepReactive r) w)
    by by apply deps_upd_reactive.
  destruct (notify_spread n inval (get_dependents (DepReactive r) w1) Hi w1)
    as (w2 & -> & S2 & M2); [done|].
  cbn [mbind option_bind].
  set (w3 := set_dependents (DepReactive r) [] w2).
  assert (S3 : spread w2 w3).
  { apply spread_clear_dependents. intros d Hd Hlt.
    destruct (sp_deps _ _ S2 r) as [E|[E _]]; rewrite E in Hd.
    - apply M2; [done|]. by rewrite <- (if_length _ _ (sp_frame _ _ S2)).
    - by apply elem_of_nil in Hd. }
  set (w4 := upd_reactive r (set_r_ctx None) w3).
  assert (S4 : spread w3 w4) by by apply spread_upd_reactive.
  exists w4. split; [done|]. split.
  { eapply spread_trans; [exact S1|]. eapply spread_trans; [exact S2|].
    by eapply spread_trans. }
  split.
  - intros Hr. destruct (lookup_lt_is_Some_2 _ _ Hr) as [rc Hrc].
    pose proof (lookup_upd_reactive r (set_r_invalidated true ∘ set_r_value VNone)
                  w rc Hrc) as H1. fold w1 in H1.
    destruct (sp_flags _ _ S2 r _ H1) as (rc2 & H2 & A & B & _ & _).
    exists (set_r_ctx None (set_r_dependents [] rc2)). split.
    + subst w4 w3. cbn. by rewrite !list_lookup_alter_eq, H2.
    + cbn. auto.
  - intros d Hd Hlt. apply (if_mono _ _ (sp_frame _ _ S4)).
    apply (if_mono _ _ (sp_frame _ _ S3)). apply M2; [by rewrite D1|done].
Qed.

Lemma cb_done_rebase cb w wk w' :
  spread w wk → spread wk w' → cb_done cb wk w' → cb_done cb w w'.
Proof.
  intros S1 S2. destruct cb as [r|o c]; cbn [cb_done]; [|done].
  intros [Hd Hn]. split.
  - intros Hr. apply Hd.
    by rewrite (inv_frame_reactives_length _ _ (sp_frame _ _ S1)).
  - intros d Hin Hlt. destruct (sp_deps _ _ S1 r) as [E|[_ N]].
    + apply Hn; [by rewrite E|]. by rewrite (if_length _ _ (sp_frame _ _ S1)).
    + apply (if_mono _ _ (sp_frame _ _ S2)). by apply N.
Qed.

Lemma fire_callbacks_spread n inval cbs :
  spreads_below n inval → ∀ w, live (ctxs w) < n →
  ∃ w', foldM (run_inv_callback inval) cbs w = Some w' ∧ spread w w' ∧
        ∀ cb, cb ∈ cbs → cb_done cb w w'.
Proof.
  intros Hi. induction cbs as [|cb cbs IH]; intros w Hw; cbn [foldM].
  - exists w. split; [done|]. split; [apply spread_refl|].
    intros cb Hcb. by apply elem_of_nil in Hcb.
  - assert (∃ w1, run_inv_callback inval cb w = Some w1 ∧ spread w w1 ∧
                  cb_done cb w w1) as (w1 & -> & S1 & D1).
    { destruct cb as [r|o c]; cbn [run_inv_callback].
      - by apply (reactive_cb_spread n).
      - eexists; split; [done|]. apply spread_observer_cb. }
    cbn [mbind option_bind].
    destruct (IH w1) as (w2 & -> & S2 & D2).
    { pose proof (if_live _ _ (sp_frame _ _ S1)). lia. }
    exists w2. split; [done|]. split; [by eapply spread_trans|].
    intros cb' Hcb'. apply elem_of_cons in Hcb' as [->|Hin].
    + by eapply cb_done_spread.
    + eapply cb_done_rebase; [exact S1|exact S2|]. by apply D2.
Qed.

Lemma Context_invalidate_fuel_spreads f :
  spreads_below f (Context_invalidate_fuel f).
Proof.
  induction f as [|f IH]; intros c w Hw; [lia|]. cbn [Context_invalidate_fuel].
  destruct (ctxs w !! c) as [cx|] eqn:Hc.
  2:{ exists w. split; [done|]. split; [apply spread_refl|].
      intros Hlt. apply lookup_ge_None in Hc. lia. }
  destruct (c_invalidated cx) eqn:Hi.
  { exists w. split; [done|]. split; [apply spread_refl|].
    intros _. unfold is_invalidated. by rewrite Hc. }
  pose proof (inv_frame_mark c cx w Hc Hi) as F1.
  set (w1 := upd_ctx c (λ cx, mkContext true [] (c_flush_callbacks cx)) w) in *.
  assert (Hl : live (ctxs w1) < f).
  { pose proof (live_mark _ _ _ c_flush_callbacks Hc Hi) as E.
    subst w1; cbn; lia. }
  assert (Hc1 : is_invalidated c w1 = true).
  { subst w1. unfold is_invalidated. cbn. by rewrite list_lookup_alter_eq, Hc. }
  assert (Hne : ∀ e, e ≠ c → ctxs w1 !! e = ctxs w !! e).
  { intros e He. subst w1. cbn. by rewrite list_lookup_alter_ne. }
  destruct (fire_callbacks_spread f _ (c_invalidate_callbacks cx) IH w1 Hl)
    as (w' & -> & S & D).
  pose proof (sp_frame _ _ S) as F.
  assert (Hc' : is_invalidated c w' = true) by by apply (if_mono _ _ F).
  exists w'. split; [done|]. split; [|done].
  assert (Hstep : ∀ e cxe, ctxs w !! e = Some cxe → c_invalidated cxe = false →
            (e = c ∧ cxe = cx) ∨ ctxs w1 !! e = Some cxe).
  { intros e cxe He Hle. destruct (decide (e = c)) as [->|Hec].
    - left. split; [done|]. congruence.
    - right. by rewrite Hne. }
  constructor.
  - by eapply inv_frame_trans.
  - intros e He. assert (e ≠ c) by (intros ->; congruence).
    rewrite (sp_live _ _ S e He). by apply Hne.
  - intros r. destruct (sp_deps _ _ S r) as [E|[E M]]; [by left|right].
    split; [done|]. intros d Hd Hlt. apply M; [done|].
    by rewrite (if_length _ _ F1).
  - intros r rc Hr. by apply (sp_flags _ _ S r rc).
  - intros e He. by apply (sp_pending _ _ S e).
  - intros o ob Ho. by apply (sp_octx _ _ S o ob).
  - intros e cxe r d He Hle Hie Hcb Hd Hlt.
    destruct (Hstep e cxe He Hle) as [[-> ->]|He1].
    + destruct (D _ Hcb) as [_ Hn]. apply Hn; [done|].
      by rewrite (if_length _ _ F1).
    + eapply (sp_notified _ _ S); eauto. by rewrite (if_length _ _ F1).
  - intros e cxe r He Hle Hie Hcb Hr.
    destruct (Hstep e cxe He Hle) as [[-> ->]|He1].
    + destruct (D _ Hcb) as [Hd _]. by apply Hd.
    + eapply (sp_dirty _ _ S); eauto.
  - intros e cxe o c' He Hle Hie Hcb.
    destruct (Hstep e cxe He Hle) as [[-> ->]|He1].
    + apply (D _ Hcb).
    + eapply (sp_queued _ _ S); eauto.
Qed.

Lemma Context_invalidate_spreads n : spreads_below n Context_invalidate.
Proof.
  intros c w _. apply Context_invalidate_fuel_spreads.
  pose proof (live_le_length (ctxs w)). lia.
Qed.

Lemma o_execs_stable w w' :
  o_stable <$> observers w' = o_stable <$> observers w →
  ∀ o, o_execs o w' = o_execs o w.
Proof.
  intros H o. apply (lookup_fmap_eq _ _ _ o) in H. unfold o_execs.
  destruct (observers w' !! o) as [a|], (observers w !! o) as [b|]; cbn in *; try done.
  unfold o_stable in H. by simplify_eq.
Qed.

(** Everything downstream of an invalidated context is invalidated. *)
Lemma spread_reaches w w' c d :
  spread w w' → rtc (notifies w) c d →
  is_invalidated c w' = true → d < length (ctxs w) →
  is_invalidated d w' = true.
Proof.
  intros S Hrtc. induction Hrtc as [c|c e d Hce Hed IH]; [done|].
  intros Hc Hd. apply IH; [|done].
  destruct Hce as (cx & r & Hcx & Hl & Hcb & Hin).
  eapply (sp_notified _ _ S); eauto.
  destruct Hed as [|e e' d (cxe & _ & He & _) _]; [done|].
  by eapply lookup_lt_Some.
Qed.

(** What a changing [set] does, with the spreading made explicit: the
    value is stored first, then the invalidation spreads from there. *)
Lemma ReactiveVal_set_spread x rv v w :
  rvals w !! x = Some rv → py_is (rv_value rv) v = false →
  ∃ w2 w', ReactiveVal_set x v w = Some (true, w') ∧
           spread (upd_rval x (λ rv, mkReactiveVal v (rv_dependents rv)) w) w2 ∧
           ctxs w' = ctxs w2 ∧ reactives w' = reactives w2 ∧
           observers w' = observers w2 ∧ pending w' = pending w2 ∧
           calls w' = calls w ∧
           ∀ c, c ∈ rv_dependents rv → c < length (ctxs w) →
                is_invalidated c w2 = true.
Proof.
  intros Hx Hv. unfold ReactiveVal_set. rewrite Hx. cbn [mbind option_bind].
  rewrite Hv. unfold Dependents_invalidate.
  set (w1 := upd_rval x _ w).
  assert (Hd : get_dependents (DepVal x) w1 = rv_dependents rv).
  { subst w1. cbn. by rewrite list_lookup_alter_eq, Hx. }
  rewrite Hd.
  destruct (notify_spread (S (length (ctxs w1))) Context_invalidate (rv_dependents rv)
              (Context_invalidate_spreads _) w1) as (w2 & -> & S & M).
  { pose proof (live_le_length (ctxs w1)). lia. }
  cbn [mbind option_bind]. exists w2. eexists. split; [done|].
  split; [exact S|]. cbn.
  repeat split; try done. apply (if_calls _ _ (sp_frame _ _ S)).
Qed.

(** X15: a [set] that changes the value invalidates, before it returns,
    every context downstream of the dependents of the value: the
    dependents themselves, the dependents of each [Reactive] that has
    its callback on one of them, and so on along the chain. *)
Theorem ReactiveVal_set_reaches (x : nat) (rv : ReactiveVal) (v : value)
    (w : world) (c d : nat) :
  rvals w !! x = Some rv → py_is (rv_value rv) v = false →
  c ∈ rv_dependents rv → c < length (ctxs w) →
  rtc (notifies w) c d → d < length (ctxs w) →
  ∃ w', ReactiveVal_set x v w = Some (true, w') ∧ is_invalidated d w' = true.
Proof.
  intros Hx Hv Hc Hlt Hrtc Hd.
  destruct (ReactiveVal_set_spread x rv v w Hx Hv)
    as (w2 & w' & E & S & Hctx & _ & _ & _ & _ & M).
  exists w'. split; [exact E|]. unfold is_invalidated. rewrite Hctx.
  apply (spread_reaches _ w2 c d S Hrtc); [by apply M|done].
Qed.


(** X17: an [Observer] whose callback is registered on a live context
    that such a [set] reaches is not run by the [set]: its context is
    put in the pending set, the observer drops its reference to it, and
    no user function is entered. *)
Theorem ReactiveVal_set_queues_observer (x : nat) (rv : ReactiveVal) (v : value)
    (w : world) (c e o c' : nat) (cx : Context) :
  rvals w !! x = Some rv → py_is (rv_value rv) v = false →
  c ∈ rv_dependents rv → c < length (ctxs w) → rtc (notifies w) c e →
  ctxs w !! e = Some cx → c_invalidated cx = false →
  ObserverOnInvalidate o c' ∈ c_invalidate_callbacks cx →
  ∃ w', ReactiveVal_set x v w = Some (true, w') ∧
        queued o c' w' ∧ calls w' = calls w ∧ o_execs o w' = o_execs o w.
Proof.
  intros Hx Hv Hc Hlt Hrtc He Hl Hcb.
  destruct (ReactiveVal_set_spread x rv v w Hx Hv)
    as (w2 & w' & E & S & Hctx & _ & Hob & Hpe & Hca & M).
  assert (Hie : is_invalidated e w2 = true).
  { apply (spread_reaches _ w2 c e S Hrtc); [by apply M|by eapply lookup_lt_Some]. }
  exists w'. split; [exact E|]. split; [|split; [exact Hca|]].
  - unfold queued. rewrite Hpe, Hob. by apply (sp_queued _ _ S e cx o c').
  - transitivity (o_execs o w2); [unfold o_execs; by rewrite Hob|].
    apply (o_execs_stable _ _ (if_observers _ _ (sp_frame _ _ S)) o).
Qed.

(* --------------------------------------------------------------------- *)
(** Concrete runs of the properties above. *)

Lemma Reactive_exec_count_counts_entries_witness :
  ∃ l, calls w_stepped = calls w_observed ++ l ∧
       execs 0 w_stepped = execs 0 w_observed + entries (OfReactive 0) l.
Proof.
  destruct (Reactive_exec_count_counts_entries
              [ValSet 0 (VObj 2 1); ReactiveGet 5 0; Flush 9] w_observed w_stepped)
    as (l & Hc & He); [vm_compute; reflexivity|].
  exists l. split; [exact Hc|]. apply He. vm_compute. lia.
Defined.

Lemma Observer_exec_count_counts_entries_witness :
  ∃ l, calls w_stepped = calls w_observed ++ l ∧
       o_execs 0 w_stepped = o_execs 0 w_observed + entries (OfObserver 0) l.
Proof.
  destruct (Observer_exec_count_counts_entries
              [ValSet 0 (VObj 2 1); ReactiveGet 5 0; Flush 9] w_observed w_stepped)
    as (l & Hc & He); [vm_compute; reflexivity|].
  exists l. split; [exact Hc|]. apply He. vm_compute. lia.
Defined.

Lemma session_end_destroys_observer_witness :
  ∃ w1 w2, Observer_init reads_reactive w_in_session = Some (Ok 0, w1) ∧
           session_ended 3 w1 = Some w2 ∧ destroyed 0 w2 = true.
Proof.
  apply (session_end_destroys_observer reads_reactive w_in_session 3);
    [reflexivity|reflexivity|vm_compute; constructor].
Defined.

Lemma Observer_run_enters_witness :
  calls (Observer_entry 0 w_observed) = calls w_observed ++ [OfObserver 0] ∧
  ∃ w' l, Observer_run (exec 9) 0 w_observed = Some (Exc (VObj 50 (-1)), w') ∧
          o_execs 0 w' = 1 ∧
          calls w' = calls w_observed ++ OfObserver 0 :: l ∧
          entries (OfObserver 0) l = 0.
Proof.
  destruct (Observer_run_enters 9 0
              (mkObserver (body reads_reactive) false [] false None 0 None)
              w_observed)
    as ((_ & _ & _ & _ & Hc) & _ & Hrun); [vm_compute; reflexivity|].
  split; [exact Hc|].
  destruct (Hrun (Exc (VObj 50 (-1))) w_observed_post)
    as (w' & l & H & _ & _ & Hn & Hl & Hz); [vm_compute; reflexivity|].
  by exists w', l.
Defined.


(** In the flushed state the context of the reactive notifies the
    context of the observer. *)
Lemma notifies_flushed : notifies w_flushed 2 1.
Proof.
  exists (mkContext false [ReactiveOnInvalidate 0] []), 0.
  split; [vm_compute; reflexivity|]. split; [reflexivity|].
  split; [apply list_elem_of_here|]. vm_compute. apply list_elem_of_here.
Defined.

Lemma ReactiveVal_set_reaches_witness :
  ∃ w', ReactiveVal_set 0 (VObj 2 1) w_flushed = Some (true, w') ∧
        is_invalidated 1 w' = true.
Proof.
  apply (ReactiveVal_set_reaches 0 (mkReactiveVal (VObj 1 0) [2]) (VObj 2 1)
           w_flushed 2 1);
    [vm_compute; reflexivity|reflexivity|apply list_elem_of_here|vm_compute; lia
    |apply rtc_once, notifies_flushed|vm_compute; lia].
Defined.


Lemma ReactiveVal_set_queues_observer_witness :
  ∃ w', ReactiveVal_set 0 (VObj 2 1) w_flushed = Some (true, w') ∧
        queued 0 1 w' ∧ calls w' = calls w_flushed ∧ o_execs 0 w' = 1.
Proof.
  destruct (ReactiveVal_set_queues_observer 0 (mkReactiveVal (VObj 1 0) [2])
              (VObj 2 1) w_flushed 2 1 0 1
              (mkContext false [ObserverOnInvalidate 0 1] [ObserverOnFlush 0]))
    as (w' & E & Hq & Hc & Ho);
    [vm_compute; reflexivity|reflexivity|apply list_elem_of_here|vm_compute; lia
    |apply rtc_once, notifies_flushed|vm_compute; reflexivity|reflexivity
    |apply list_elem_of_here|].
  exists w'. split; [exact E|]. split; [exact Hq|]. split; [exact Hc|exact Ho].
Defined.

(** *** Errors of a Reactive *)





End ReactivesFacts.
